(** * Deep graph matching consensus: the forward pass of [dgmc/models/dgmc.py]

    A shallow embedding of [masked_softmax], [to_sparse], [to_dense] and of
    [DGMC.__init__], [DGMC.top_k] and [DGMC.forward], and the properties the
    specification states about them.

    Numbers.  A tensor element is a value of [fval]: a finite number, one of
    the two infinities, or NaN, with the IEEE 754 rules for the special
    values ([inf - inf], [0 * inf], [inf / inf] and every operation on NaN
    give NaN; [exp (-inf) = 0]).  Finite arithmetic is exact arithmetic on
    the reals: rounding, overflow, underflow and the sign of zero are not
    modelled.

    Tensors.  A tensor is a nested list, outermost dimension first.  The
    size of the last dimension of a two-dimensional tensor is read from its
    first row, so a tensor without rows has last dimension 0. *)

From Stdlib Require Import Reals Lra Lia List Bool Arith ZArith Permutation.
Import ListNotations.

Set Implicit Arguments.

(** ** Tensor elements *)

Inductive fval : Type :=
| Fin (r : R)
| PInf
| NInf
| NaN.

Definition fzero : fval := Fin 0.
Definition fone : fval := Fin 1.

(** Sign of a real, as a [comparison] with zero: [Gt] positive, [Eq] zero,
    [Lt] negative. *)
Definition Rsign (r : R) : comparison :=
  match total_order_T 0 r with
  | inleft (left _) => Gt
  | inleft (right _) => Eq
  | inright _ => Lt
  end.

Definition sign_mul (a b : comparison) : comparison :=
  match a with
  | Eq => Eq
  | Gt => b
  | Lt => CompOpp b
  end.

(** Sign of a value that is not NaN. *)
Definition fsign (x : fval) : comparison :=
  match x with
  | Fin r => Rsign r
  | PInf => Gt
  | NInf => Lt
  | NaN => Eq
  end.

(** The infinity of a given sign; sign zero stands for an invalid
    operation ([0 * inf], [0 / 0]). *)
Definition inf_of_sign (s : comparison) : fval :=
  match s with
  | Gt => PInf
  | Lt => NInf
  | Eq => NaN
  end.

Definition fneg (x : fval) : fval :=
  match x with
  | Fin r => Fin (- r)
  | PInf => NInf
  | NInf => PInf
  | NaN => NaN
  end.

Definition fadd (x y : fval) : fval :=
  match x, y with
  | NaN, _ | _, NaN => NaN
  | Fin a, Fin b => Fin (a + b)
  | PInf, NInf | NInf, PInf => NaN
  | PInf, _ | _, PInf => PInf
  | NInf, _ | _, NInf => NInf
  end.

Definition fsub (x y : fval) : fval := fadd x (fneg y).

Definition fmul (x y : fval) : fval :=
  match x, y with
  | NaN, _ | _, NaN => NaN
  | Fin a, Fin b => Fin (a * b)
  | _, _ => inf_of_sign (sign_mul (fsign x) (fsign y))
  end.

Definition fdiv (x y : fval) : fval :=
  match x, y with
  | NaN, _ | _, NaN => NaN
  | Fin a, Fin b =>
      match Rsign b with
      | Eq => inf_of_sign (Rsign a)
      | _ => Fin (a / b)
      end
  | Fin _, _ => Fin 0
  | _, Fin b =>
      match Rsign b with
      | Lt => inf_of_sign (CompOpp (fsign x))
      | _ => inf_of_sign (fsign x)
      end
  | _, _ => NaN
  end.

Definition fexp (x : fval) : fval :=
  match x with
  | Fin r => Fin (exp r)
  | PInf => PInf
  | NInf => Fin 0
  | NaN => NaN
  end.

(** Maximum that propagates NaN, as [torch.max] does. *)
Definition fmax (x y : fval) : fval :=
  match x, y with
  | NaN, _ | _, NaN => NaN
  | PInf, _ | _, PInf => PInf
  | NInf, z | z, NInf => z
  | Fin a, Fin b => Fin (Rmax a b)
  end.

(** Strict comparison; false as soon as one side is NaN. *)
Definition flt (x y : fval) : bool :=
  match x, y with
  | NaN, _ | _, NaN => false
  | _, NInf => false
  | NInf, _ => true
  | PInf, _ => false
  | Fin _, PInf => true
  | Fin a, Fin b => if Rlt_dec a b then true else false
  end.

Definition is_finite (x : fval) : Prop :=
  match x with Fin _ => True | _ => False end.

Definition is_nan (x : fval) : Prop := x = NaN.

(** ** Nested lists as tensors *)

Definition vec := list fval.
Definition tensor2 := list vec.
Definition tensor3 := list tensor2.
Definition mask2 := list (list bool).
Definition mask3 := list (list (list bool)).

Section Zip.
Variables A B C : Type.
Variable f : A -> B -> C.

(** Elementwise combination of two lists of the same length. *)
Fixpoint map2 (l : list A) (m : list B) : list C :=
  match l, m with
  | a :: l', b :: m' => f a b :: map2 l' m'
  | _, _ => []
  end.
End Zip.

(** [x.size(-1)] of a two-dimensional tensor. *)
Definition size_last (A : Type) (x : list (list A)) : nat :=
  match x with
  | [] => 0
  | r :: _ => length r
  end.

Definition fsum (v : vec) : fval := fold_left fadd v fzero.

Definition dot (a b : vec) : fval := fsum (map2 fmul a b).

(** Column [c] of a matrix. *)
Definition column (m : tensor2) (c : nat) : vec :=
  map (fun row => nth c row fzero) m.

(** [m.transpose(-1, -2)] of an [n x p] matrix; the number of columns [p] is
    the size of its last dimension. *)
Definition transpose (p : nat) (m : tensor2) : tensor2 :=
  map (column m) (seq 0 p).

(** [a @ b] for an [n x m] matrix [a] and an [m x p] matrix [b]. *)
Definition matmul (p : nat) (a b : tensor2) : tensor2 :=
  map (fun arow => map (fun bcol => dot arow bcol) (transpose p b)) a.

(** ** Masked similarity operations *)

(** [~mask] *)
Definition mask_not (m : list bool) : list bool := map negb m.

(** [src.masked_fill(mask, v)] on the last dimension: [v] where the mask is
    true. *)
Definition masked_fill_row (src : vec) (mask : list bool) (v : fval) : vec :=
  map2 (fun x (m : bool) => if m then v else x) src mask.

Definition masked_fill (src : tensor3) (mask : mask3) (v : fval) : tensor3 :=
  map2 (map2 (fun s m => masked_fill_row s m v)) src mask.

Definition mask_not3 (m : mask3) : mask3 := map (map mask_not) m.

(** [torch.softmax] along one row: the maximum is subtracted before
    exponentiation, and every exponential is divided by their sum. *)
Definition row_max (v : vec) : fval := fold_left fmax v NInf.

Definition softmax_row (v : vec) : vec :=
  let m := row_max v in
  let e := map (fun x => fexp (fsub x m)) v in
  let s := fsum e in
  map (fun y => fdiv y s) e.

Definition softmax (src : tensor3) : tensor3 := map (map softmax_row) src.

Definition masked_softmax (src : tensor3) (mask : mask3) : tensor3 :=
  let out := masked_fill src (mask_not3 mask) NInf in
  let out := softmax out in
  let out := masked_fill out (mask_not3 mask) fzero in
  out.

(** ** Stripping and restoring padding *)

(** The rows of [x] at the true positions of [mask], in order. *)
Fixpoint select (A : Type) (x : list A) (mask : list bool) : list A :=
  match x, mask with
  | a :: x', m :: mask' => if m then a :: select x' mask' else select x' mask'
  | _, _ => []
  end.

(** [x[mask]] *)
Definition to_sparse (x : tensor3) (mask : mask2) : tensor2 :=
  concat (map2 (@select vec) x mask).

Definition count_true (mask : list bool) : nat := length (filter (fun b : bool => b) mask).

Definition count_true2 (mask : mask2) : nat :=
  list_sum (map count_true mask).

(** One row of [out[mask] = x]: the true positions take the next rows of
    [x], the others keep [zero]; the rows left over are returned. *)
Fixpoint scatter_row (A : Type) (zero : A) (x : list A) (mask : list bool)
  : list A * list A :=
  match mask with
  | [] => ([], x)
  | m :: mask' =>
      if m then
        match x with
        | a :: x' => let (o, rest) := scatter_row zero x' mask' in (a :: o, rest)
        | [] => let (o, rest) := scatter_row zero [] mask' in (zero :: o, rest)
        end
      else let (o, rest) := scatter_row zero x mask' in (zero :: o, rest)
  end.

Fixpoint scatter (A : Type) (zero : A) (x : list A) (mask : mask2)
  : list (list A) :=
  match mask with
  | [] => []
  | m :: mask' =>
      let (o, rest) := scatter_row zero x m in o :: scatter zero rest mask'
  end.

(** [to_dense]: a zero tensor of the shape of the mask, with the rows of [x]
    written at the true positions.  The assignment [out[mask] = x] needs as
    many rows as the mask has true entries, or a single row, which is then
    broadcast to every true position; anything else raises. *)
Definition to_dense (x : tensor2) (mask : mask2) : option tensor3 :=
  let zero := repeat fzero (size_last x) in
  if length x =? count_true2 mask then Some (scatter zero x mask)
  else
    match x with
    | [r] => Some (map (map (fun m : bool => if m then r else zero)) mask)
    | _ => None
    end.

(** ** Errors *)

(** A call either returns or raises; the only exception modelled is the
    shape error torch raises when operand sizes disagree. *)
Inductive error : Type := ShapeError.

Inductive result (A : Type) : Type :=
| Ok (a : A)
| Raise (e : error).

Arguments Ok {A} a.
Arguments Raise {A} e.

Definition bind (A B : Type) (r : result A) (f : A -> result B) : result B :=
  match r with
  | Ok a => f a
  | Raise e => Raise e
  end.

Notation "x <- r ;; k" := (bind r (fun x => k))
  (at level 61, r at next level, right associativity).

Definition of_option (A : Type) (o : option A) : result A :=
  match o with
  | Some a => Ok a
  | None => Raise ShapeError
  end.

Fixpoint traverse (A B : Type) (f : A -> result B) (l : list A)
  : result (list B) :=
  match l with
  | [] => Ok []
  | a :: l' => b <- f a ;; bs <- traverse f l' ;; Ok (b :: bs)
  end.

(** ** Batching adapter: [torch_geometric.utils.to_dense_batch]

    [batch] assigns a graph number to every node and is sorted, as the
    library requires; the nodes of one graph are consecutive rows of [x]. *)

Definition nodes_of (A : Type) (x : list A) (batch : list nat) (b : nat)
  : list A :=
  select x (map (Nat.eqb b) batch).

Definition num_graphs (batch : list nat) : nat :=
  match batch with
  | [] => 0
  | _ => S (list_max batch)
  end.

Definition num_nodes (batch : list nat) (b : nat) : nat :=
  count_occ Nat.eq_dec batch b.

Definition max_num_nodes (batch : list nat) : nat :=
  list_max (map (num_nodes batch) (seq 0 (num_graphs batch))).

(** The padded rows: the nodes of graph [b], then the fill value. *)
Definition batch_x (x : tensor2) (batch : list nat) (fill_value : fval)
  : tensor3 :=
  let n := max_num_nodes batch in
  let pad := repeat fill_value (size_last x) in
  map (fun b => nodes_of x batch b ++ repeat pad (n - num_nodes batch b))
      (seq 0 (num_graphs batch)).

(** The validity mask: true on the nodes of graph [b], false on padding. *)
Definition batch_mask (batch : list nat) : mask2 :=
  let n := max_num_nodes batch in
  map (fun b => repeat true (num_nodes batch b)
                ++ repeat false (n - num_nodes batch b))
      (seq 0 (num_graphs batch)).

Definition to_dense_batch (x : tensor2) (batch : list nat) (fill_value : fval)
  : tensor3 * mask2 :=
  (batch_x x batch fill_value, batch_mask batch).

(** ** The scorer: [Seq(Lin, ReLU, Lin)] *)

Record Lin : Type := mkLin {
  in_features : nat;
  out_features : nat;
  weight : tensor2;   (* out_features x in_features *)
  bias : vec          (* out_features *)
}.

(** [Lin(i, o)]; its parameters are set by [reset], here read from [w] and
    [b]. *)
Definition Lin_new (i o : nat) (w : nat -> nat -> fval) (b : nat -> fval)
  : Lin :=
  mkLin i o (map (fun r => map (w r) (seq 0 i)) (seq 0 o)) (map b (seq 0 o)).

(** [x W^T + b] on a vector; the length of [x] must be [in_features]. *)
Definition lin_apply (l : Lin) (x : vec) : result vec :=
  if length x =? in_features l
  then Ok (map2 (fun w b => fadd (dot x w) b) (weight l) (bias l))
  else Raise ShapeError.

Definition relu (x : fval) : fval := fmax x fzero.

Record MLP : Type := mkMLP { lin1 : Lin; lin2 : Lin }.

Definition mlp_apply (m : MLP) (x : vec) : result vec :=
  h <- lin_apply (lin1 m) x ;; lin_apply (lin2 m) (map relu h).

(** [.squeeze(-1)] of a last dimension of size one. *)
Definition squeeze (v : vec) : result fval :=
  match v with
  | [s] => Ok s
  | _ => Raise ShapeError
  end.

(** ** Top-k search: [LazyTensor.argKmin]

    The library keeps [k] slots, each a value and an index, initialised with
    [(+inf, 0)], and offers every candidate in turn: the candidate moves up
    from the last slot while it is strictly less than the slot's value, and
    the last slot drops out. *)

Fixpoint slot_insert (x : fval) (j : nat) (slots : list (fval * nat))
  : list (fval * nat) :=
  match slots with
  | [] => [(x, j)]
  | (y, i) :: rest =>
      if flt x y then (x, j) :: (y, i) :: rest
      else (y, i) :: slot_insert x j rest
  end.

Definition offer (k : nat) (slots : list (fval * nat)) (c : fval * nat)
  : list (fval * nat) :=
  firstn k (slot_insert (fst c) (snd c) slots).

Definition enumerate (A : Type) (l : list A) : list (A * nat) :=
  combine l (seq 0 (length l)).

Definition argKmin (k : nat) (row : vec) : list nat :=
  map snd (fold_left (offer k) (enumerate row) (repeat (PInf, 0) k)).

(** ** The model *)

Section DGMC.

(** Connectivity and edge features are only passed on to the embedding
    functions. *)
Variables EdgeIndex EdgeAttr : Type.

(** An embedding function with its declared widths. *)
Record GNN : Type := mkGNN {
  in_channels : nat;
  out_channels : nat;
  gnn_apply : tensor2 -> EdgeIndex -> EdgeAttr -> tensor2
}.

Record DGMC : Type := mkDGMC {
  psi_1 : GNN;
  psi_2 : GNN;
  num_steps : Z;
  k : Z;
  detach : bool;
  mlp : MLP
}.

(** The values [reset] gives the parameters of the scorer. *)
Record Params : Type := mkParams {
  w1 : nat -> nat -> fval;
  b1 : nat -> fval;
  w2 : nat -> nat -> fval;
  b2 : nat -> fval
}.

(** [DGMC.__init__] *)
Definition DGMC_init (psi_1 psi_2 : GNN) (num_steps k : Z) (detach : bool)
           (theta : Params) : result DGMC :=
  let mlp :=
    mkMLP (Lin_new (out_channels psi_2) (out_channels psi_2)
                   (w1 theta) (b1 theta))
          (Lin_new (out_channels psi_2) 1 (w2 theta) (b2 theta)) in
  Ok (mkDGMC psi_1 psi_2 num_steps k detach mlp).

(** [torch.randn]: the generator is a counter of the draws made so far,
    and [draws n size] is the tensor the [n]-th draw returns for [size]. *)
Variable draws : nat -> nat * nat * nat -> tensor3.

Definition randn (size : nat * nat * nat) (gen : nat) : tensor3 * nat :=
  (draws gen size, S gen).

(** [x.detach()] keeps the values. *)
Definition tensor_detach (x : tensor2) : tensor2 := x.

Definition size0 (A : Type) (x : list A) : nat := length x.
Definition size1 (A : Type) (x : list (list A)) : nat := size_last x.
Definition size2 (A : Type) (x : list (list (list A))) : nat :=
  match x with
  | [] => 0
  | m :: _ => size_last m
  end.

(** [h_s @ h_t.transpose(-1, -2)] *)
Definition similarity (h_s h_t : tensor3) : tensor3 :=
  map2 (fun a b => matmul (size1 h_t) a (transpose (size2 h_t) b)) h_s h_t.

(** [h_s_mask.unsqueeze(-1) & h_t_mask.unsqueeze(-2)] *)
Definition pair_mask (h_s_mask h_t_mask : mask2) : mask3 :=
  map2 (fun ms mt => map (fun a : bool => map (andb a) mt) ms)
       h_s_mask h_t_mask.

(** [S.transpose(-1, -2) @ r_s] *)
Definition transport (S r_s : tensor3) : tensor3 :=
  map2 (fun s r => matmul (size2 r_s) (transpose (size2 S) s) r) S r_s.

Definition vsub (u v : vec) : vec := map2 fsub u v.

(** [o_s.unsqueeze(-2) - o_t.unsqueeze(-3)] *)
Definition pairwise_diff (o_s o_t : tensor3) : list (list (list vec)) :=
  map2 (fun os ot => map (fun u => map (fun v => vsub u v) ot) os) o_s o_t.

(** [self.mlp(D).squeeze(-1)] *)
Definition score (m : MLP) (D : list (list (list vec))) : result tensor3 :=
  traverse (traverse (traverse (fun d => y <- mlp_apply m d ;; squeeze y))) D.

Definition tensor_add (a b : tensor3) : tensor3 :=
  map2 (map2 (map2 fadd)) a b.

Section Forward.
Variable self : DGMC.
Variables (edge_index_s : EdgeIndex) (edge_attr_s : EdgeAttr).
Variables (edge_index_t : EdgeIndex) (edge_attr_t : EdgeAttr).

(** One pass of the body of the dense loop, from the logits and the
    generator to the new logits and generator. *)
Definition dense_step (h_s_mask h_t_mask : mask2) (S_mask : mask3)
           (rnd_size : nat * nat * nat) (st : tensor3 * nat)
  : result (tensor3 * nat) :=
  let (S_hat, gen) := st in
  let S := masked_softmax S_hat S_mask in
  let (r_s, gen) := randn rnd_size gen in
  let r_t := transport S r_s in
  let (r_s, r_t) := (to_sparse r_s h_s_mask, to_sparse r_t h_t_mask) in
  let o_s := gnn_apply (psi_2 self) r_s edge_index_s edge_attr_s in
  let o_t := gnn_apply (psi_2 self) r_t edge_index_t edge_attr_t in
  o_s <- of_option (to_dense o_s h_s_mask) ;;
  o_t <- of_option (to_dense o_t h_t_mask) ;;
  let D := pairwise_diff o_s o_t in
  sc <- score (mlp self) D ;;
  let S_hat := tensor_add S_hat (masked_fill sc (mask_not3 S_mask) fzero) in
  Ok (S_hat, gen).

(** [for _ in range(n)] around [dense_step]. *)
Fixpoint dense_loop (n : nat) (h_s_mask h_t_mask : mask2) (S_mask : mask3)
         (rnd_size : nat * nat * nat) (st : tensor3 * nat)
  : result (tensor3 * nat) :=
  match n with
  | O => Ok st
  | S n' =>
      st' <- dense_step h_s_mask h_t_mask S_mask rnd_size st ;;
      dense_loop n' h_s_mask h_t_mask S_mask rnd_size st'
  end.

(** [top_k]: per source node, the [k] target nodes of least
    [sum (-x_s * x_t)]. *)
Definition top_k (x_s x_t : tensor3) : list (list (list nat)) :=
  map2 (fun xs xt =>
          map (fun u =>
                 argKmin (Z.to_nat (k self))
                         (map (fun v => fsum (map2 fmul (map fneg u) v)) xt))
              xs)
       x_s x_t.

(** [(tmp_s * torch.gather(tmp_t, 2, index)).sum(dim=-1)]: candidate [c]
    of source node [i] is scored against target row [S_idx[b][i][c]].
    The indices [argKmin] returns are below the number of target
    rows. *)
Definition gather_scores (h_s h_t : tensor3) (S_idx : list (list (list nat)))
  : tensor3 :=
  map2 (fun (st : tensor2 * tensor2) idx =>
          map2 (fun u row => map (fun j => dot u (nth j (snd st) [])) row)
               (fst st) idx)
       (combine h_s h_t) S_idx.

Inductive output : Type :=
| Dense (S_0 S_L : tensor3)
| Sparse (S_0 S_L : tensor3) (S_idx : list (list (list nat))).

(** [for _ in range(n): body] on the local variables [st]; the second
    component counts the passes made. *)
Fixpoint for_range (A : Type) (n : nat) (body : A -> A) (st : A)
  : A * nat :=
  match n with
  | O => (st, 0)
  | S n' => let (st', c) := for_range n' body (body st) in (st', S c)
  end.

(** [pass] *)
Definition pass (A : Type) (st : A) : A := st.

(** The sparse loop, on the local variables [S_idx], [S_hat], [S_0]. *)
Definition sparse_loop (n : nat)
           (st : list (list (list nat)) * tensor3 * tensor3) :=
  for_range n (@pass _) st.

(** [DGMC.forward], with the two fill values of the padding as
    parameters. *)
Definition forward_fill (fill_s fill_t : fval)
           (x_s : tensor2) (batch_s : list nat)
           (x_t : tensor2) (batch_t : list nat) (gen : nat)
  : result (output * nat) :=
  let h_s := gnn_apply (psi_1 self) x_s edge_index_s edge_attr_s in
  let h_t := gnn_apply (psi_1 self) x_t edge_index_t edge_attr_t in
  let (h_s, h_t) :=
    if detach self then (tensor_detach h_s, tensor_detach h_t)
    else (h_s, h_t) in
  let (h_s, h_s_mask) := to_dense_batch h_s batch_s fill_s in
  let (h_t, h_t_mask) := to_dense_batch h_t batch_t fill_t in
  if (k self <? 1)%Z then
    let S_hat := similarity h_s h_t in
    let S_mask := pair_mask h_s_mask h_t_mask in
    let S_0 := masked_softmax S_hat S_mask in
    let rnd_size := (size0 h_s, size1 h_s, in_channels (psi_2 self)) in
    st <- dense_loop (Z.to_nat (num_steps self)) h_s_mask h_t_mask S_mask
                     rnd_size (S_hat, gen) ;;
    let (S_hat, gen) := (st : tensor3 * nat) in
    let S_L := masked_softmax S_hat S_mask in
    Ok (Dense S_0 S_L, gen)
  else
    let S_idx := top_k h_s h_t in
    let S_hat := gather_scores h_s h_t S_idx in
    let S_0 := softmax S_hat in
    let '(S_idx, S_hat, S_0) :=
      fst (sparse_loop (Z.to_nat (num_steps self)) (S_idx, S_hat, S_0)) in
    let S_L := S_0 in
    Ok (Sparse S_0 S_L S_idx, gen).

(** [DGMC.forward]: source padding is [+inf], target padding [-inf]. *)
Definition forward := forward_fill PInf NInf.

End Forward.
End DGMC.

(** * Properties *)

Unset Implicit Arguments.

(** ** Padding round trip *)

Section RoundTrip.
Variable A : Type.
Variable zero : A.

Lemma scatter_row_select (mask : list bool) :
  forall x : list A,
    count_true mask <= length x ->
    select (fst (scatter_row zero x mask)) mask = firstn (count_true mask) x
    /\ snd (scatter_row zero x mask) = skipn (count_true mask) x.
Proof.
  induction mask as [|m mask IH]; intros x Hx.
  - simpl. split; reflexivity.
  - destruct m.
    + change (count_true (true :: mask)) with (S (count_true mask)) in *.
      destruct x as [|a x]; [simpl in Hx; lia|].
      assert (Hx' : count_true mask <= length x) by (simpl in Hx; lia).
      destruct (IH x Hx') as [H1 H2].
      simpl. destruct (scatter_row zero x mask) as [o rest].
      simpl in *. now rewrite H1, H2.
    + change (count_true (false :: mask)) with (count_true mask) in *.
      destruct (IH x Hx) as [H1 H2].
      simpl. destruct (scatter_row zero x mask) as [o rest].
      simpl in *. now rewrite H1, H2.
Qed.

Lemma scatter_select (mask : mask2) :
  forall x : list A,
    count_true2 mask <= length x ->
    concat (map2 (@select A) (scatter zero x mask) mask)
    = firstn (count_true2 mask) x.
Proof.
  induction mask as [|m mask IH]; intros x Hx.
  - reflexivity.
  - unfold count_true2 in *. simpl in Hx |- *.
    assert (Hm : count_true m <= length x) by lia.
    destruct (scatter_row_select m x Hm) as [H1 H2].
    destruct (scatter_row zero x m) as [o rest]. simpl in *.
    rewrite H1, H2, IH.
    + rewrite <- (firstn_skipn (count_true m) x) at 3.
      rewrite firstn_app, firstn_firstn, firstn_length_le by lia.
      replace (Nat.min _ _) with (count_true m) by lia.
      replace (count_true m + _ - count_true m)
        with (list_sum (map count_true mask)) by lia.
      reflexivity.
    + rewrite length_skipn. lia.
Qed.
End RoundTrip.

(** C10.  Padding a flat tensor that has one row per true entry of the mask
    and stripping the padding again returns the flat tensor, rows in their
    original order. *)
Theorem to_sparse_to_dense (x : tensor2) (mask : mask2) :
  length x = count_true2 mask ->
  exists d, to_dense x mask = Some d /\ to_sparse d mask = x.
Proof.
  intros Hlen. unfold to_dense.
  rewrite (proj2 (Nat.eqb_eq _ _) Hlen).
  eexists. split; [reflexivity|].
  unfold to_sparse. rewrite scatter_select.
  - rewrite <- Hlen. apply firstn_all.
  - apply Nat.eq_le_incl. symmetry. exact Hlen.
Qed.

Lemma to_sparse_to_dense_witness :
  exists d,
    to_dense [[Fin 1]; [Fin 2]] [[true; false]; [false; true]] = Some d
    /\ to_sparse d [[true; false]; [false; true]] = [[Fin 1]; [Fin 2]].
Proof. apply to_sparse_to_dense. reflexivity. Defined.

(** ** Softmax on a row *)

Definition Rsum (l : list R) : R := fold_right Rplus 0%R l.

Lemma fold_fadd_Fin (l : list R) :
  forall a, fold_left fadd (map Fin l) (Fin a) = Fin (a + Rsum l).
Proof.
  induction l as [|x l IH]; intros a; simpl.
  - f_equal. lra.
  - rewrite IH. f_equal. lra.
Qed.

Lemma fsum_Fin (l : list R) : fsum (map Fin l) = Fin (Rsum l).
Proof.
  unfold fsum, fzero. rewrite fold_fadd_Fin. f_equal. lra.
Qed.

(** A value softmax can take in: finite or [-inf]. *)
Definition regular (x : fval) : Prop :=
  match x with
  | Fin _ | NInf => True
  | _ => False
  end.

(** Order on regular values. *)
Definition fle (x y : fval) : Prop :=
  match x, y with
  | NInf, (Fin _ | NInf) => True
  | Fin a, Fin b => (a <= b)%R
  | _, _ => False
  end.

Lemma fle_refl x : regular x -> fle x x.
Proof. destruct x; simpl; try tauto. intros _. lra. Qed.

Lemma fle_trans x y z : fle x y -> fle y z -> fle x z.
Proof. destruct x, y, z; simpl; try tauto. lra. Qed.

Lemma fmax_regular x y :
  regular x -> regular y ->
  regular (fmax x y) /\ fle x (fmax x y) /\ fle y (fmax x y).
Proof.
  destruct x as [a| | |], y as [b| | |]; simpl; try tauto; intros _ _.
  - repeat split; [apply Rmax_l | apply Rmax_r].
  - repeat split. lra.
  - repeat split. lra.
Qed.

Lemma row_max_regular (v : vec) :
  forall a,
    Forall regular v -> regular a ->
    regular (fold_left fmax v a)
    /\ fle a (fold_left fmax v a)
    /\ Forall (fun x => fle x (fold_left fmax v a)) v.
Proof.
  induction v as [|x v IH]; intros a Hv Ha; simpl.
  - repeat split; auto using fle_refl.
  - inversion Hv as [|? ? Hx Hv']; subst.
    destruct (fmax_regular a x Ha Hx) as (Hr & Hle1 & Hle2).
    destruct (IH _ Hv' Hr) as (Hr' & Hle & Hall).
    repeat split; auto.
    + eapply fle_trans; eauto.
    + constructor; auto. eapply fle_trans; eauto.
Qed.

(** With a finite entry the maximum of a regular row is finite. *)
Lemma row_max_finite (v : vec) :
  Forall regular v -> Exists is_finite v ->
  exists M, row_max v = Fin M /\ Forall (fun x => fle x (Fin M)) v.
Proof.
  intros Hv Hex. unfold row_max.
  destruct (row_max_regular v NInf Hv I) as (Hr & _ & Hall).
  destruct (fold_left fmax v NInf) as [M| | |] eqn:E; simpl in Hr; try tauto.
  - exists M. split; auto.
  - exfalso. apply Exists_exists in Hex. destruct Hex as (x & Hin & Hx).
    rewrite Forall_forall in Hall. specialize (Hall x Hin).
    destruct x; simpl in *; tauto.
Qed.

(** The exponential weight of an entry against the maximum [M]. *)
Definition expw (M : R) (x : fval) : R :=
  match x with
  | Fin r => exp (r - M)
  | _ => 0%R
  end.

Lemma fexp_fsub_expw (M : R) (x : fval) :
  regular x -> fexp (fsub x (Fin M)) = Fin (expw M x).
Proof. destruct x; simpl; try tauto; intros _; reflexivity. Qed.

Lemma expw_nonneg (M : R) (x : fval) : (0 <= expw M x)%R.
Proof. destruct x; simpl; try lra. left. apply exp_pos. Qed.

Lemma Rsum_expw_pos (M : R) (v : vec) :
  Exists is_finite v -> (0 < Rsum (map (expw M) v))%R.
Proof.
  assert (Hnn : forall l, (0 <= Rsum (map (expw M) l))%R).
  { induction l as [|y l IHl]; simpl; [lra|].
    pose proof (expw_nonneg M y). lra. }
  induction 1 as [x v Hx | x v _ IH]; simpl.
  - destruct x; simpl in Hx; try tauto.
    pose proof (exp_pos (r - M)). pose proof (Hnn v). simpl. lra.
  - pose proof (expw_nonneg M x). lra.
Qed.

Lemma Rsign_pos (r : R) : (0 < r)%R -> Rsign r = Gt.
Proof.
  intros H. unfold Rsign.
  destruct (total_order_T 0 r) as [[?|?]|?]; try reflexivity; lra.
Qed.

Lemma Rsign_zero : Rsign 0 = Eq.
Proof.
  unfold Rsign.
  destruct (total_order_T 0 0) as [[?|?]|?]; try reflexivity; lra.
Qed.

Lemma Rsign_neg (r : R) : (r < 0)%R -> Rsign r = Lt.
Proof.
  intros H. unfold Rsign.
  destruct (total_order_T 0 r) as [[?|?]|?]; try reflexivity; lra.
Qed.

(** Softmax of a regular row with a finite entry, in closed form. *)
Lemma softmax_row_regular (v : vec) :
  Forall regular v -> Exists is_finite v ->
  exists M,
    row_max v = Fin M
    /\ (0 < Rsum (map (expw M) v))%R
    /\ softmax_row v
       = map (fun x => Fin (expw M x / Rsum (map (expw M) v))) v.
Proof.
  intros Hv Hex.
  destruct (row_max_finite v Hv Hex) as (M & HM & _).
  pose proof (Rsum_expw_pos M v Hex) as Hpos.
  exists M. repeat split; auto.
  unfold softmax_row. rewrite HM.
  assert (He : map (fun x => fexp (fsub x (Fin M))) v
               = map Fin (map (expw M) v)).
  { rewrite map_map. apply map_ext_in. intros x Hin.
    apply fexp_fsub_expw. rewrite Forall_forall in Hv. auto. }
  rewrite He, fsum_Fin, !map_map.
  apply map_ext. intros x. simpl. now rewrite (Rsign_pos _ Hpos).
Qed.

(** ** Elementwise combination *)

Section Map2Facts.
Variables A B C D : Type.

Lemma map2_length (f : A -> B -> C) (l : list A) :
  forall m, length (map2 f l m) = Nat.min (length l) (length m).
Proof.
  induction l as [|a l IH]; intros [|b m]; simpl; auto.
Qed.

Lemma map2_ext (f g : A -> B -> C) (l : list A) :
  forall m, (forall a b, f a b = g a b) -> map2 f l m = map2 g l m.
Proof.
  induction l as [|a l IH]; intros [|b m] H; simpl; auto.
  now rewrite H, IH.
Qed.

Lemma map2_map_r (f : A -> B -> C) (g : D -> B) (l : list A) :
  forall m, map2 f l (map g m) = map2 (fun a d => f a (g d)) l m.
Proof.
  induction l as [|a l IH]; intros [|b m]; simpl; auto. now rewrite IH.
Qed.

Lemma map2_map_l (f : A -> B -> C) (g : D -> A) (l : list D) :
  forall m, map2 f (map g l) m = map2 (fun d b => f (g d) b) l m.
Proof.
  induction l as [|a l IH]; intros [|b m]; simpl; auto. now rewrite IH.
Qed.

Lemma map_map2 (f : A -> B -> C) (h : C -> D) (l : list A) :
  forall m, map h (map2 f l m) = map2 (fun a b => h (f a b)) l m.
Proof.
  induction l as [|a l IH]; intros [|b m]; simpl; auto. now rewrite IH.
Qed.

Lemma map2_map2_r (f : A -> B -> C) (g : C -> B -> D) (l : list A) :
  forall m, map2 g (map2 f l m) m = map2 (fun a b => g (f a b) b) l m.
Proof.
  induction l as [|a l IH]; intros [|b m]; simpl; auto. now rewrite IH.
Qed.

Lemma nth_error_map2 (f : A -> B -> C) (l : list A) :
  forall m n a b,
    nth_error l n = Some a -> nth_error m n = Some b ->
    nth_error (map2 f l m) n = Some (f a b).
Proof.
  induction l as [|x l IH]; intros [|y m] [|n] a b Ha Hb;
    simpl in *; try discriminate.
  - now inversion Ha; inversion Hb.
  - eauto.
Qed.

Lemma nth_error_map2_inv (f : A -> B -> C) (l : list A) :
  forall m n c,
    nth_error (map2 f l m) n = Some c ->
    exists a b,
      nth_error l n = Some a /\ nth_error m n = Some b /\ c = f a b.
Proof.
  induction l as [|x l IH]; intros [|y m] [|n] c H;
    simpl in *; try discriminate.
  - inversion H. eauto.
  - eauto.
Qed.
End Map2Facts.

(** ** Masked softmax, row by row *)

Definition masked_softmax_row (src : vec) (mask : list bool) : vec :=
  masked_fill_row
    (softmax_row (masked_fill_row src (mask_not mask) NInf))
    (mask_not mask) fzero.

Lemma masked_softmax_rows (src : tensor3) (mask : mask3) :
  masked_softmax src mask = map2 (map2 masked_softmax_row) src mask.
Proof.
  unfold masked_softmax, masked_fill, softmax, mask_not3.
  rewrite !map2_map_r, map2_map_l, map2_map2_r.
  apply map2_ext. intros s m.
  rewrite !map2_map_r, map2_map_l, map2_map2_r.
  apply map2_ext. intros r b. reflexivity.
Qed.

(** The row with the masked entries at [-inf]. *)
Definition fill_row (src : vec) (mask : list bool) : vec :=
  masked_fill_row src (mask_not mask) NInf.

(** A cell is acceptable when it is finite wherever the mask is true. *)
Definition ok_cell (x : fval) (m : bool) : Prop := m = true -> is_finite x.

Lemma fill_row_regular (src : vec) (mask : list bool) :
  Forall2 ok_cell src mask -> Forall regular (fill_row src mask).
Proof.
  induction 1 as [|x m src mask Hx _ IH]; simpl; constructor; auto.
  destruct m; simpl; auto.
  specialize (Hx eq_refl). destruct x; simpl in *; tauto.
Qed.

Lemma fill_row_finite (src : vec) (mask : list bool) :
  Forall2 ok_cell src mask -> In true mask ->
  Exists is_finite (fill_row src mask).
Proof.
  induction 1 as [|x m src mask Hx _ IH]; simpl; intros Hin; [tauto|].
  destruct Hin as [->|Hin].
  - left. simpl. auto.
  - right. auto.
Qed.

Lemma fill_row_select_sum (M : R) (src : vec) (mask : list bool) :
  Forall2 ok_cell src mask ->
  Rsum (map (expw M) (select (fill_row src mask) mask))
  = Rsum (map (expw M) (fill_row src mask)).
Proof.
  induction 1 as [|x m src mask Hx _ IH]; simpl; auto.
  destruct m; simpl.
  - unfold fill_row in IH. now rewrite IH.
  - unfold fill_row in IH. rewrite IH. lra.
Qed.

Lemma select_masked_fill (ys : vec) (mask : list bool) (z : fval) :
  select (masked_fill_row ys (mask_not mask) z) mask = select ys mask.
Proof.
  revert mask. induction ys as [|y ys IH]; intros [|m mask]; simpl; auto.
  destruct m; simpl; now rewrite IH.
Qed.

Lemma select_map (A B : Type) (g : A -> B) (l : list A) :
  forall mask, select (map g l) mask = map g (select l mask).
Proof.
  induction l as [|a l IH]; intros [|m mask]; simpl; auto.
  destruct m; simpl; now rewrite IH.
Qed.

Lemma Rsum_div (s : R) (l : list R) :
  Rsum (map (fun w => w / s)%R l) = (Rsum l / s)%R.
Proof.
  induction l as [|w l IH]; simpl.
  - unfold Rdiv. lra.
  - rewrite IH. unfold Rdiv. lra.
Qed.

(** A masked entry of the result is exactly zero, whatever the input. *)
Lemma masked_softmax_row_zero (src : vec) (mask : list bool) (j : nat) x :
  nth_error (masked_softmax_row src mask) j = Some x ->
  nth_error mask j = Some false ->
  x = fzero.
Proof.
  unfold masked_softmax_row, masked_fill_row at 1, mask_not.
  rewrite map2_map_r. intros H Hm.
  apply nth_error_map2_inv in H. destruct H as (a & b & _ & Hb & ->).
  rewrite Hm in Hb. inversion Hb. reflexivity.
Qed.

(** A row with a valid entry, finite at its valid entries, sums to one over
    the valid entries. *)
Lemma masked_softmax_row_sum (src : vec) (mask : list bool) :
  Forall2 ok_cell src mask -> In true mask ->
  fsum (select (masked_softmax_row src mask) mask) = Fin 1.
Proof.
  intros Hok Hin.
  destruct (softmax_row_regular _ (fill_row_regular _ _ Hok)
                                (fill_row_finite _ _ Hok Hin))
    as (M & _ & Hpos & Hsm).
  unfold masked_softmax_row. rewrite select_masked_fill.
  fold (fill_row src mask). rewrite Hsm.
  rewrite select_map.
  rewrite <- (map_map (fun x => expw M x / Rsum (map (expw M) (fill_row src mask)))%R Fin).
  rewrite fsum_Fin. f_equal.
  rewrite <- (map_map (expw M) (fun w => w / Rsum (map (expw M) (fill_row src mask)))%R).
  rewrite Rsum_div, fill_row_select_sum by assumption.
  field. lra.
Qed.

Lemma masked_fill_row_finite (l : vec) (mask : list bool) :
  Forall is_finite l -> Forall is_finite (masked_fill_row l mask fzero).
Proof.
  intros Hl. revert mask.
  induction Hl as [|y l Hy _ IH]; intros [|m mask]; simpl; constructor; auto.
  destruct m; simpl; auto.
Qed.

Lemma masked_fill_row_all (l : vec) (mask : list bool) (z : fval) :
  Forall (fun m => m = false) mask ->
  Forall (fun x => x = z) (masked_fill_row l (mask_not mask) z).
Proof.
  intros Hm. revert l.
  induction Hm as [|m mask Hm _ IH]; intros [|y l]; simpl; constructor; auto.
  now subst m.
Qed.

Lemma all_false_or_true (mask : list bool) :
  In true mask \/ Forall (fun m => m = false) mask.
Proof.
  induction mask as [|[|] mask IH]; simpl; auto.
  destruct IH; auto.
Qed.

(** A row that is finite at its valid entries comes out finite. *)
Lemma masked_softmax_row_finite (src : vec) (mask : list bool) :
  Forall2 ok_cell src mask ->
  Forall is_finite (masked_softmax_row src mask).
Proof.
  intros Hok.
  destruct (all_false_or_true mask) as [Hin|Hall].
  - destruct (softmax_row_regular _ (fill_row_regular _ _ Hok)
                                  (fill_row_finite _ _ Hok Hin))
      as (M & _ & _ & Hsm).
    unfold masked_softmax_row. fold (fill_row src mask). rewrite Hsm.
    apply masked_fill_row_finite.
    apply Forall_forall. intros y Hy. apply in_map_iff in Hy.
    destruct Hy as (x & <- & _). exact I.
  - unfold masked_softmax_row.
    eapply Forall_impl; [|apply masked_fill_row_all; exact Hall].
    intros x ->. exact I.
Qed.

(** A row whose mask is false throughout comes out all zero, whatever the
    input. *)
Lemma masked_softmax_row_padding (src : vec) (mask : list bool) :
  Forall (fun m => m = false) mask ->
  Forall (fun x => x = fzero) (masked_softmax_row src mask).
Proof.
  intros Hall. unfold masked_softmax_row.
  apply masked_fill_row_all. exact Hall.
Qed.

(** ** Indexing *)

Definition row3 {A : Type} (t : list (list (list A))) (b i : nat)
  : option (list A) :=
  match nth_error t b with
  | Some m => nth_error m i
  | None => None
  end.

Definition cell3 {A : Type} (t : list (list (list A))) (b i j : nat)
  : option A :=
  match row3 t b i with
  | Some r => nth_error r j
  | None => None
  end.

Lemma row3_map2 (A B C : Type) (f : list A -> list B -> list C) s m b i r :
  row3 (map2 (map2 f) s m) b i = Some r ->
  exists rs rm, row3 s b i = Some rs /\ row3 m b i = Some rm /\ r = f rs rm.
Proof.
  unfold row3. intros H.
  destruct (nth_error (map2 (map2 f) s m) b) as [x|] eqn:E; [|discriminate].
  apply nth_error_map2_inv in E. destruct E as (sb & mb & Hs & Hm & ->).
  apply nth_error_map2_inv in H. destruct H as (rs & rm & Hrs & Hrm & ->).
  rewrite Hs, Hm. eauto.
Qed.

(** ** NaN and masked softmax *)

(** C3, as the code has it.  Where every unmasked entry of the input is
    finite, every entry of the result of [masked_softmax] is finite, so none
    is NaN; and whatever the input, a row whose mask entries are all false
    is returned all zero. *)
Theorem masked_softmax_nan_free (src : tensor3) (mask : mask3) :
  (Forall2 (Forall2 (Forall2 ok_cell)) src mask ->
   Forall (Forall (Forall is_finite)) (masked_softmax src mask))
  /\ (forall b i r m,
         row3 (masked_softmax src mask) b i = Some r ->
         row3 mask b i = Some m ->
         Forall (fun v => v = false) m ->
         Forall (fun x => x = fzero) r).
Proof.
  rewrite masked_softmax_rows. split.
  - induction 1 as [|s m src mask Hsm _ IH]; simpl; constructor; auto.
    clear IH. induction Hsm as [|r b s m Hrb _ IH]; simpl; constructor; auto.
    apply masked_softmax_row_finite. exact Hrb.
  - intros b i r m Hr Hm Hall.
    apply row3_map2 in Hr. destruct Hr as (rs & rm & _ & Hrm & ->).
    rewrite Hm in Hrm. inversion Hrm; subst rm.
    apply masked_softmax_row_padding. exact Hall.
Qed.

Lemma masked_softmax_nan_free_witness :
  Forall (Forall (Forall is_finite))
         (masked_softmax [[[Fin 1; NaN]; [PInf; NaN]]]
                         [[[true; false]; [false; false]]]).
Proof.
  apply (proj1 (masked_softmax_nan_free
                  [[[Fin 1; NaN]; [PInf; NaN]]]
                  [[[true; false]; [false; false]]])).
  repeat constructor; unfold ok_cell; simpl; intros; try discriminate; auto.
Defined.

(** C3, as stated, fails: an unmasked [+inf] turns its whole row into
    NaN. *)
Lemma masked_softmax_returns_nan :
  masked_softmax [[[Fin 0; PInf]]] [[[true; true]]] = [[[NaN; NaN]]].
Proof. reflexivity. Qed.

(** ** The forward pass: loops without effect, construction *)

Section ForwardFacts.
Variables EdgeIndex EdgeAttr : Type.
Variable draws : nat -> nat * nat * nat -> tensor3.
Variable self : DGMC EdgeIndex EdgeAttr.
Variables (edge_index_s : EdgeIndex) (edge_attr_s : EdgeAttr).
Variables (edge_index_t : EdgeIndex) (edge_attr_t : EdgeAttr).
Variables (x_s : tensor2) (batch_s : list nat).
Variables (x_t : tensor2) (batch_t : list nat).
Variable gen : nat.

(** The body [pass] leaves the local variables as they are, and the loop
    makes [n] passes. *)
Lemma for_range_pass (A : Type) (n : nat) (st : A) :
  for_range n (@pass A) st = (st, n).
Proof.
  induction n as [|n IH]; simpl; auto.
  unfold pass at 2. now rewrite IH.
Qed.

(** C5.  In dense mode with [num_steps = 0] the returned [S_L] is the
    returned [S_0]; no random tensor is drawn. *)
Theorem dense_zero_steps :
  (k self < 1)%Z -> num_steps self = 0%Z ->
  exists S_0,
    forward draws self edge_index_s edge_attr_s edge_index_t edge_attr_t
            x_s batch_s x_t batch_t gen
    = Ok (Dense S_0 S_0, gen).
Proof.
  intros Hk Hn. unfold forward, forward_fill.
  destruct (detach self); simpl;
    rewrite (proj2 (Z.ltb_lt _ _) Hk), Hn; simpl; eexists; reflexivity.
Qed.

End ForwardFacts.

(** C9, as the code has it.  Construction checks no width and always
    succeeds: both layers of the scorer are sized from the declared output
    width of [psi_2], and no width of [psi_1] is read. *)
Theorem DGMC_init_never_fails (EdgeIndex EdgeAttr : Type)
        (psi_1 psi_2 : GNN EdgeIndex EdgeAttr) (num_steps k : Z)
        (detach : bool) (theta : Params) :
  exists self,
    DGMC_init psi_1 psi_2 num_steps k detach theta = Ok self
    /\ in_features (lin1 (mlp self)) = out_channels psi_2
    /\ out_features (lin1 (mlp self)) = out_channels psi_2
    /\ in_features (lin2 (mlp self)) = out_channels psi_2
    /\ out_features (lin2 (mlp self)) = 1.
Proof.
  eexists. split; [reflexivity|]. simpl. auto.
Qed.

(** ** A small instance *)

Module Tiny.
(** An embedding function that returns its input, with declared widths
    [i] and [o]. *)
Definition psi_id (i o : nat) : GNN unit unit :=
  mkGNN i o (fun x _ _ => x).

(** An embedding function with declared widths [i] and [o] that returns
    one zero row of width [w] per node. *)
Definition psi_const (i o w : nat) : GNN unit unit :=
  mkGNN i o (fun x _ _ => map (fun _ => repeat fzero w) x).

Definition theta0 : Params :=
  mkParams (fun _ _ => fzero) (fun _ => fzero)
           (fun _ _ => fzero) (fun _ => fzero).

(** Every draw is the zero tensor of the requested size. *)
Definition draws0 (n : nat) (size : nat * nat * nat) : tensor3 :=
  let '(B, N, C) := size in repeat (repeat (repeat fzero C) N) B.

Definition model (steps k : Z) : DGMC unit unit :=
  mkDGMC (psi_id 1 1) (psi_id 1 1) steps k false
         (mkMLP (Lin_new 1 1 (w1 theta0) (b1 theta0))
                (Lin_new 1 1 (w2 theta0) (b2 theta0))).
End Tiny.

Lemma dense_zero_steps_witness :
  exists S_0,
    forward Tiny.draws0 (Tiny.model 0 (-1)) tt tt tt tt
            [[Fin 1]] [0] [[Fin 1]] [0] 0
    = Ok (Dense S_0 S_0, 0).
Proof.
  apply dense_zero_steps; [reflexivity | reflexivity].
Defined.


(** C9, as stated, fails.  Here [psi_1] declares output width 3 and [psi_2]
    input width 5; [psi_2] declares output width 2, which sizes the scorer,
    and returns rows of width 1.  Construction succeeds, and the width the
    scorer cannot take is raised by the first forward call. *)
Lemma DGMC_init_accepts_mismatch :
  exists self,
    DGMC_init (Tiny.psi_const 1 3 3) (Tiny.psi_const 5 2 1) 1 (-1) false
              Tiny.theta0
    = Ok self
    /\ out_channels (psi_1 self) <> in_channels (psi_2 self)
    /\ size_last (gnn_apply (psi_2 self) [[Fin 1]] tt tt)
       <> in_features (lin1 (mlp self))
    /\ forward Tiny.draws0 self tt tt tt tt [[Fin 1]] [0] [[Fin 1]] [0] 0
       = Raise ShapeError.
Proof.
  eexists. split; [reflexivity|]. repeat split.
  - simpl. discriminate.
  - simpl. discriminate.
Qed.

(** ** Finite values and shapes *)

Definition fin1 (v : vec) : Prop := Forall is_finite v.
Definition fin2 (t : tensor2) : Prop := Forall fin1 t.
Definition fin3 (t : tensor3) : Prop := Forall fin2 t.

(** A matrix of [n] rows of length [m], a tensor of [b] such matrices. *)
Definition shape2 {A : Type} (n m : nat) (t : list (list A)) : Prop :=
  length t = n /\ Forall (fun r => length r = m) t.

Definition shape3 {A : Type} (b n m : nat) (t : list (list (list A))) : Prop :=
  length t = b /\ Forall (shape2 n m) t.

Lemma fadd_finite x y : is_finite x -> is_finite y -> is_finite (fadd x y).
Proof. destruct x, y; simpl; tauto. Qed.

Lemma fneg_finite x : is_finite x -> is_finite (fneg x).
Proof. destruct x; simpl; tauto. Qed.

Lemma fsub_finite x y : is_finite x -> is_finite y -> is_finite (fsub x y).
Proof. intros. apply fadd_finite; auto using fneg_finite. Qed.

Lemma fmul_finite x y : is_finite x -> is_finite y -> is_finite (fmul x y).
Proof. destruct x, y; simpl; tauto. Qed.

Lemma relu_finite x : is_finite x -> is_finite (relu x).
Proof. destruct x; simpl; tauto. Qed.

Lemma Forall_map2 (A B C : Type) (P : A -> Prop) (Q : B -> Prop)
      (R : C -> Prop) (f : A -> B -> C) (l : list A) (m : list B) :
  (forall a b, P a -> Q b -> R (f a b)) ->
  Forall P l -> Forall Q m -> Forall R (map2 f l m).
Proof.
  intros Hf Hl. revert m.
  induction Hl as [|a l Ha _ IH]; intros m Hm; simpl; [constructor|].
  destruct Hm as [|b m Hb Hm]; constructor; auto.
Qed.

Lemma fsum_finite (v : vec) : fin1 v -> is_finite (fsum v).
Proof.
  unfold fsum. assert (H0 : is_finite fzero) by exact I. revert H0.
  generalize fzero.
  induction v as [|x v IH]; intros a Ha Hv; simpl; auto.
  inversion Hv; subst. apply IH; auto using fadd_finite.
Qed.

Lemma dot_finite (a b : vec) : fin1 a -> fin1 b -> is_finite (dot a b).
Proof.
  intros Ha Hb. apply fsum_finite.
  apply (Forall_map2 _ _ _ is_finite is_finite); auto using fmul_finite.
Qed.

Lemma nth_finite (c : nat) (row : vec) :
  fin1 row -> is_finite (nth c row fzero).
Proof.
  intros H. revert c.
  induction H as [|x row Hx _ IH]; intros [|c]; simpl; auto; exact I.
Qed.

Lemma column_finite (m : tensor2) (c : nat) : fin2 m -> fin1 (column m c).
Proof.
  intros H. unfold column, fin1.
  apply Forall_forall. intros y Hy. apply in_map_iff in Hy.
  destruct Hy as (row & <- & Hin). apply nth_finite.
  unfold fin2 in H. rewrite Forall_forall in H. auto.
Qed.

Lemma transpose_finite (p : nat) (m : tensor2) :
  fin2 m -> fin2 (transpose p m).
Proof.
  intros H. unfold transpose, fin2.
  apply Forall_forall. intros y Hy. apply in_map_iff in Hy.
  destruct Hy as (c & <- & _). now apply column_finite.
Qed.

Lemma matmul_finite (p : nat) (a b : tensor2) :
  fin2 a -> fin2 b -> fin2 (matmul p a b).
Proof.
  intros Ha Hb. unfold matmul, fin2.
  apply Forall_forall. intros y Hy. apply in_map_iff in Hy.
  destruct Hy as (arow & <- & Hin).
  apply Forall_forall. intros z Hz. apply in_map_iff in Hz.
  destruct Hz as (bcol & <- & Hin').
  apply dot_finite.
  - unfold fin2 in Ha. rewrite Forall_forall in Ha. auto.
  - pose proof (transpose_finite p b Hb) as Ht.
    unfold fin2 in Ht. rewrite Forall_forall in Ht. auto.
Qed.

Lemma matmul_shape (p : nat) (a b : tensor2) :
  shape2 (length a) p (matmul p a b).
Proof.
  unfold matmul, shape2. split.
  - apply length_map.
  - apply Forall_forall. intros y Hy. apply in_map_iff in Hy.
    destruct Hy as (arow & <- & _).
    unfold transpose. now rewrite !length_map, length_seq.
Qed.

Lemma transpose_length (p : nat) (m : tensor2) : length (transpose p m) = p.
Proof. unfold transpose. now rewrite length_map, length_seq. Qed.

(** ** Selection and the batching adapter *)

Lemma select_length (A : Type) (x : list A) :
  forall mask, length x = length mask ->
               length (select x mask) = count_true mask.
Proof.
  induction x as [|a x IH]; intros [|m mask] H; simpl in *; try discriminate;
    auto.
  destruct m; simpl.
  - change (count_true (true :: mask)) with (S (count_true mask)).
    f_equal. apply IH. lia.
  - change (count_true (false :: mask)) with (count_true mask).
    apply IH. lia.
Qed.

Lemma select_In (A : Type) (x : list A) :
  forall mask a, In a (select x mask) -> In a x.
Proof.
  induction x as [|y x IH]; intros [|m mask] a H; simpl in *; try tauto.
  destruct m; simpl in H.
  - destruct H; eauto.
  - eauto.
Qed.

Lemma count_true_eqb (batch : list nat) (b : nat) :
  count_true (map (Nat.eqb b) batch) = num_nodes batch b.
Proof.
  unfold num_nodes.
  induction batch as [|a batch IH]; simpl; auto.
  destruct (Nat.eq_dec a b) as [->|Hne].
  - rewrite Nat.eqb_refl.
    change (count_true (true :: map (Nat.eqb b) batch))
      with (S (count_true (map (Nat.eqb b) batch))).
    now rewrite IH.
  - assert (E : Nat.eqb b a = false) by (apply Nat.eqb_neq; congruence).
    rewrite E.
    change (count_true (false :: map (Nat.eqb b) batch))
      with (count_true (map (Nat.eqb b) batch)).
    exact IH.
Qed.

Lemma nodes_of_length (A : Type) (x : list A) (batch : list nat) (b : nat) :
  length x = length batch ->
  length (nodes_of x batch b) = num_nodes batch b.
Proof.
  intros H. unfold nodes_of.
  rewrite select_length by now rewrite length_map.
  apply count_true_eqb.
Qed.

Lemma num_nodes_le_max (batch : list nat) (b : nat) :
  b < num_graphs batch -> num_nodes batch b <= max_num_nodes batch.
Proof.
  intros Hb. unfold max_num_nodes.
  pose proof (proj1 (list_max_le (map (num_nodes batch)
                                      (seq 0 (num_graphs batch))) _)
                    (Nat.le_refl _)) as H.
  rewrite Forall_forall in H. apply H.
  apply in_map. apply in_seq. lia.
Qed.

Lemma Forall2_map_same (A B C : Type) (R : B -> C -> Prop)
      (f : A -> B) (g : A -> C) (l : list A) :
  (forall a, In a l -> R (f a) (g a)) -> Forall2 R (map f l) (map g l).
Proof.
  induction l as [|a l IH]; intros H; simpl; constructor.
  - apply H. now left.
  - apply IH. intros x Hx. apply H. now right.
Qed.

Lemma Forall2_repeat (A B : Type) (R : A -> B -> Prop) (a : A) (b : B) n :
  R a b -> Forall2 R (repeat a n) (repeat b n).
Proof. intros H. induction n; simpl; constructor; auto. Qed.

Lemma Forall2_true_l (A : Type) (P : A -> Prop) (l : list A) :
  Forall P l -> Forall2 (fun a (m : bool) => m = true -> P a)
                        l (repeat true (length l)).
Proof. induction 1; simpl; constructor; auto. Qed.

Lemma Forall2_nth_error (A B : Type) (R : A -> B -> Prop) l m :
  Forall2 R l m ->
  forall j y, nth_error m j = Some y ->
              exists x, nth_error l j = Some x /\ R x y.
Proof.
  induction 1 as [|a b l m Hab _ IH]; intros [|j] y Hy; simpl in *;
    try discriminate.
  - inversion Hy; subst. eauto.
  - eauto.
Qed.

Lemma Forall2_seq_map (X Y Z : Type) (R : X -> Z -> Prop)
      (f : nat -> X) (g : Y -> Z) (l : list Y) :
  forall s,
    (forall j y, nth_error l j = Some y -> R (f (s + j)) (g y)) ->
    Forall2 R (map f (seq s (length l))) (map g l).
Proof.
  induction l as [|y l IH]; intros s H; simpl; constructor.
  - specialize (H 0 y eq_refl). now rewrite Nat.add_0_r in H.
  - apply IH. intros j z Hj. specialize (H (S j) z Hj).
    now rewrite Nat.add_succ_r in H.
Qed.

Lemma Forall2_map2_map2 (A B C A' B' C' : Type)
      (P : A -> A' -> Prop) (Q : B -> B' -> Prop) (R : C -> C' -> Prop)
      (f : A -> B -> C) (g : A' -> B' -> C') a a' :
  Forall2 P a a' ->
  forall b b',
    Forall2 Q b b' ->
    (forall x x' y y', P x x' -> Q y y' -> R (f x y) (g x' y')) ->
    Forall2 R (map2 f a b) (map2 g a' b').
Proof.
  induction 1 as [|x x' a a' Hx _ IH]; intros b b' Hb Hf; simpl.
  - constructor.
  - destruct Hb as [|y y' b b' Hy Hb]; constructor; auto.
Qed.

(** The rows the mask marks valid are rows of [x]. *)
Lemma batch_x_rows (x : tensor2) (batch : list nat) (fill : fval) :
  length x = length batch ->
  Forall2 (Forall2 (fun row (m : bool) => m = true -> In row x))
          (batch_x x batch fill) (batch_mask batch).
Proof.
  intros Hlen. unfold batch_x, batch_mask.
  apply Forall2_map_same. intros b _.
  apply Forall2_app.
  - rewrite <- (nodes_of_length _ x batch b Hlen).
    apply Forall2_true_l. apply Forall_forall.
    intros row Hin. unfold nodes_of in Hin. eapply select_In; eauto.
  - apply Forall2_repeat. discriminate.
Qed.

Lemma batch_mask_shape (batch : list nat) :
  shape2 (num_graphs batch) (max_num_nodes batch) (batch_mask batch).
Proof.
  unfold batch_mask, shape2. split.
  - now rewrite length_map, length_seq.
  - apply Forall_forall. intros m Hm. apply in_map_iff in Hm.
    destruct Hm as (b & <- & Hb). apply in_seq in Hb.
    rewrite length_app, !repeat_length.
    pose proof (num_nodes_le_max batch b). lia.
Qed.

Lemma batch_x_size0 (x : tensor2) (batch : list nat) (fill : fval) :
  length (batch_x x batch fill) = num_graphs batch.
Proof. unfold batch_x. now rewrite length_map, length_seq. Qed.

Lemma num_graphs_pos (batch : list nat) : batch <> [] -> 0 < num_graphs batch.
Proof. destruct batch; [congruence|]. intros _. unfold num_graphs. lia. Qed.

Lemma batch_x_size1 (x : tensor2) (batch : list nat) (fill : fval) :
  length x = length batch -> batch <> [] ->
  size_last (batch_x x batch fill) = max_num_nodes batch.
Proof.
  intros Hlen Hne. pose proof (num_graphs_pos batch Hne) as HB.
  unfold batch_x. destruct (num_graphs batch) as [|n] eqn:E; [lia|].
  simpl. rewrite length_app, repeat_length, nodes_of_length by assumption.
  pose proof (num_nodes_le_max batch 0). rewrite E in H. lia.
Qed.

Lemma max_num_nodes_pos (batch : list nat) :
  batch <> [] -> 0 < max_num_nodes batch.
Proof.
  destruct batch as [|a batch]; [congruence|]. intros _.
  set (l := a :: batch).
  assert (Ha : a < num_graphs l).
  { unfold num_graphs, l. simpl. lia. }
  assert (Hn : 0 < num_nodes l a).
  { unfold num_nodes, l. simpl. destruct (Nat.eq_dec a a); [lia|congruence]. }
  pose proof (num_nodes_le_max l a Ha). lia.
Qed.

(** A graph that has a node has a true entry in its mask row. *)
Lemma batch_mask_count_pos (batch : list nat) :
  batch <> [] -> 0 < count_true2 (batch_mask batch).
Proof.
  destruct batch as [|a batch]; [congruence|]. intros _.
  set (l := a :: batch).
  assert (Ha : a < num_graphs l).
  { unfold num_graphs, l. simpl. lia. }
  assert (Hn : 0 < num_nodes l a).
  { unfold num_nodes, l. simpl. destruct (Nat.eq_dec a a); [lia|congruence]. }
  unfold count_true2, batch_mask. rewrite map_map.
  assert (Hin : In (count_true (repeat true (num_nodes l a)
                     ++ repeat false (max_num_nodes l - num_nodes l a)))
                   (map (fun b => count_true (repeat true (num_nodes l b)
                     ++ repeat false (max_num_nodes l - num_nodes l b)))
                        (seq 0 (num_graphs l)))).
  { apply in_map_iff. exists a. split; auto. apply in_seq. lia. }
  assert (Hle : forall xs y, In y xs -> y <= list_sum xs).
  { induction xs as [|z xs IH]; simpl; [tauto|].
    intros y [->|Hy]; [lia|]. specialize (IH y Hy). lia. }
  apply Hle in Hin.
  assert (Hc : 0 < count_true (repeat true (num_nodes l a)
                     ++ repeat false (max_num_nodes l - num_nodes l a))).
  { destruct (num_nodes l a) as [|n]; [lia|].
    simpl. unfold count_true. simpl. lia. }
  lia.
Qed.

(** ** The initial logits *)

Lemma column_nth (b : tensor2) (c : nat) :
  forall j, nth j (column b c) fzero = nth c (nth j b []) fzero.
Proof.
  induction b as [|row b IH]; intros [|j]; simpl; auto;
    destruct c; reflexivity.
Qed.

Lemma column_transpose (D : nat) (b : tensor2) (j : nat) :
  column (transpose D b) j
  = map (fun c => nth c (nth j b []) fzero) (seq 0 D).
Proof.
  unfold column at 1, transpose. rewrite map_map.
  apply map_ext. intros c. apply column_nth.
Qed.

Lemma Forall2_map_map (A B A' B' : Type) (R : B -> B' -> Prop)
      (f : A -> B) (g : A' -> B') l m :
  Forall2 (fun x y => R (f x) (g y)) l m -> Forall2 R (map f l) (map g m).
Proof. induction 1; simpl; constructor; auto. Qed.

Lemma Forall2_and_r (A B : Type) (R : A -> B -> Prop) (S : B -> Prop) l m :
  Forall2 R l m -> Forall S m -> Forall2 (fun x y => R x y /\ S y) l m.
Proof.
  induction 1 as [|a b l m Hab _ IH]; intros Hm; constructor;
    inversion Hm; subst; auto.
Qed.

(** A padded row is acceptable when it is finite wherever the mask is
    true. *)
Definition ok_row (row : vec) (m : bool) : Prop := m = true -> fin1 row.

Lemma similarity_ok (h_s h_t : tensor3) (ms mt : mask2) :
  Forall2 (Forall2 ok_row) h_s ms ->
  Forall2 (Forall2 ok_row) h_t mt ->
  Forall (fun m => length m = size_last h_t) mt ->
  Forall2 (Forall2 (Forall2 ok_cell)) (similarity h_s h_t) (pair_mask ms mt).
Proof.
  intros Hs Ht Hlen. unfold similarity, pair_mask, size1.
  apply (Forall2_map2_map2 _ _ _ _ _ _ _ _ _ _ _ _ _ Hs _ _
                           (Forall2_and_r _ _ _ _ _ _ Ht Hlen)).
  intros a msb b mtb Ha [Hb Hl].
  unfold matmul. apply Forall2_map_map.
  eapply Forall2_impl; [|exact Ha].
  intros arow s Hrow. simpl in Hrow.
  unfold transpose at 1. rewrite map_map, <- Hl.
  apply Forall2_seq_map. intros j y Hj Hy. simpl.
  apply andb_prop in Hy. destruct Hy as [-> ->].
  apply dot_finite; [now apply Hrow|].
  rewrite column_transpose.
  destruct (Forall2_nth_error _ _ _ _ _ Hb j true Hj) as (x & Hx & Hfin).
  rewrite (nth_error_nth _ _ _ Hx).
  apply Forall_forall. intros z Hz. apply in_map_iff in Hz.
  destruct Hz as (c & <- & _). apply nth_finite. now apply Hfin.
Qed.

(** ** Shapes through the dense step *)

(** Arithmetic on lengths, with the tensor types unfolded to lists. *)
Ltac llia := unfold tensor3, tensor2, vec, mask3, mask2 in *; lia.

(** Two nested lists of the same shape. *)
Definition same1 {A B : Type} (l : list A) (m : list B) : Prop :=
  Forall2 (fun _ _ => True) l m.
Definition same2 {A B : Type} (l : list (list A)) (m : list (list B)) : Prop :=
  Forall2 same1 l m.
Definition same3 {A B : Type} (l : list (list (list A)))
           (m : list (list (list B))) : Prop :=
  Forall2 same2 l m.

Lemma same1_length (A B : Type) (l : list A) (m : list B) :
  same1 l m <-> length l = length m.
Proof.
  split.
  - apply Forall2_length.
  - revert m. induction l as [|a l IH]; intros [|b m] H; simpl in H;
      try discriminate; constructor; auto. apply IH. lia.
Qed.

Lemma Forall2_map2_r (A B C : Type) (P : A -> B -> Prop) (Q : C -> B -> Prop)
      (f : A -> B -> C) l m :
  Forall2 P l m ->
  (forall a b, P a b -> Q (f a b) b) ->
  Forall2 Q (map2 f l m) m.
Proof. induction 1; intros Hf; simpl; constructor; auto. Qed.

Lemma masked_softmax_row_length (src : vec) (mask : list bool) :
  length src = length mask ->
  length (masked_softmax_row src mask) = length mask.
Proof.
  intros H. unfold masked_softmax_row, masked_fill_row, softmax_row, mask_not.
  rewrite map2_length, !length_map, map2_length, !length_map. lia.
Qed.

Lemma masked_softmax_same (S_hat : tensor3) (M : mask3) :
  Forall2 (Forall2 (Forall2 ok_cell)) S_hat M ->
  same3 (masked_softmax S_hat M) M.
Proof.
  intros H. rewrite masked_softmax_rows.
  eapply Forall2_map2_r; [exact H|]. intros s m Hsm.
  eapply Forall2_map2_r; [exact Hsm|]. intros r b Hrb.
  apply same1_length. apply masked_softmax_row_length.
  eapply Forall2_length; eauto.
Qed.

Lemma same3_shape (A B : Type) (t : list (list (list A)))
      (M : list (list (list B))) b n m :
  same3 t M -> shape3 b n m M -> shape3 b n m t.
Proof.
  intros Hs [Hb HM]. split.
  - apply Forall2_length in Hs. lia.
  - clear Hb. induction Hs as [|x y t M Hxy _ IH]; constructor.
    + inversion HM as [|? ? [Hn Hy] _]; subst.
      split; [apply Forall2_length in Hxy; lia|].
      clear IH HM. induction Hxy as [|r q x y Hrq _ IH']; constructor.
      * inversion Hy; subst. apply Forall2_length in Hrq. lia.
      * apply IH'. now inversion Hy.
    + apply IH. now inversion HM.
Qed.

Lemma pair_mask_shape (ms mt : mask2) B Ns Nt :
  shape2 B Ns ms -> shape2 B Nt mt -> shape3 B Ns Nt (pair_mask ms mt).
Proof.
  intros [Hls Hs] [Hlt Ht]. unfold pair_mask. split.
  - rewrite map2_length. lia.
  - apply (Forall_map2 _ _ _ (fun r => length r = Ns)
                       (fun r => length r = Nt)); auto.
    intros a b Ha Hb. split.
    + now rewrite length_map.
    + apply Forall_forall. intros y Hy. apply in_map_iff in Hy.
      destruct Hy as (s & <- & _). now rewrite length_map.
Qed.

Lemma size2_shape (A : Type) (t : list (list (list A))) b n m :
  shape3 b n m t -> 0 < b -> 0 < n -> size2 t = m.
Proof.
  intros [Hb Ht] Hb0 Hn0. destruct t as [|x t]; simpl in *; [lia|].
  inversion Ht as [|? ? [Hn Hx] _]; subst.
  destruct x as [|r x]; simpl in *; [lia|]. now inversion Hx.
Qed.

Lemma transport_ok (S r_s : tensor3) B Ns Nt C :
  shape3 B Ns Nt S -> shape3 B Ns C r_s -> 0 < B -> 0 < Ns ->
  fin3 S -> fin3 r_s ->
  shape3 B Nt C (transport S r_s) /\ fin3 (transport S r_s).
Proof.
  intros HS Hr HB HN HfS Hfr. unfold transport.
  rewrite (size2_shape _ _ _ _ _ HS HB HN), (size2_shape _ _ _ _ _ Hr HB HN).
  destruct HS as [HlS _], Hr as [Hlr _]. split; [split|].
  - rewrite map2_length. llia.
  - apply (Forall_map2 _ _ _ (fun _ => True) (fun _ => True)).
    + intros s r _ _.
      pose proof (matmul_shape C (transpose Nt s) r) as H.
      now rewrite transpose_length in H.
    + apply Forall_forall. auto.
    + apply Forall_forall. auto.
  - apply (Forall_map2 _ _ _ fin2 fin2); auto.
    intros s r Hs Hr. apply matmul_finite; auto using transpose_finite.
Qed.

Lemma select_Forall (A : Type) (P : A -> Prop) (x : list A) mask :
  Forall P x -> Forall P (select x mask).
Proof.
  intros H. apply Forall_forall. intros a Ha.
  rewrite Forall_forall in H. eauto using select_In.
Qed.

Lemma to_sparse_Forall (P : vec -> Prop) (r : tensor3) (mask : mask2) :
  Forall (Forall P) r -> Forall P (to_sparse r mask).
Proof.
  intros H. unfold to_sparse. revert mask.
  induction H as [|x r Hx _ IH]; intros [|m mask]; simpl; try constructor.
  apply Forall_app. split; auto using select_Forall.
Qed.

Lemma to_sparse_length (r : tensor3) (mask : mask2) B N C :
  shape3 B N C r -> shape2 B N mask ->
  length (to_sparse r mask) = count_true2 mask.
Proof.
  intros [Hb Hr] [Hb' Hm]. unfold to_sparse, count_true2.
  revert B mask Hb Hb' Hm.
  induction Hr as [|x r [Hx _] _ IH]; intros B [|m mask] Hb Hb' Hm;
    simpl in *; auto; try lia.
  inversion Hm; subst.
  rewrite length_app, select_length by (symmetry; assumption).
  f_equal. apply (IH (length r)); auto.
Qed.

Lemma shape3_rows (A : Type) (t : list (list (list A))) b n m :
  shape3 b n m t -> Forall (Forall (fun r => length r = m)) t.
Proof.
  intros [_ H]. eapply Forall_impl; [|exact H]. intros x [_ Hx]. exact Hx.
Qed.

Lemma scatter_row_Forall2 (A : Type) (P : A -> Prop) (zero : A)
      (mask : list bool) :
  P zero ->
  forall x, Forall P x ->
            Forall2 (fun a (_ : bool) => P a) (fst (scatter_row zero x mask)) mask
            /\ Forall P (snd (scatter_row zero x mask)).
Proof.
  intros Hz. induction mask as [|m mask IH]; intros x Hx; simpl.
  - split; [constructor | assumption].
  - destruct m.
    + destruct x as [|a x].
      * destruct (IH [] Hx) as [H1 H2].
        destruct (scatter_row zero [] mask) as [o rest]. simpl in *.
        split; [constructor|]; auto.
      * inversion Hx; subst. destruct (IH x H2) as [H3 H4].
        destruct (scatter_row zero x mask) as [o rest]. simpl in *.
        split; [constructor|]; auto.
    + destruct (IH x Hx) as [H1 H2].
      destruct (scatter_row zero x mask) as [o rest]. simpl in *.
      split; [constructor|]; auto.
Qed.

Lemma scatter_Forall2 (A : Type) (P : A -> Prop) (zero : A) (mask : mask2) :
  P zero ->
  forall x, Forall P x ->
            Forall2 (Forall2 (fun a (_ : bool) => P a)) (scatter zero x mask) mask.
Proof.
  intros Hz. induction mask as [|m mask IH]; intros x Hx; simpl.
  - constructor.
  - destruct (scatter_row_Forall2 A P zero m Hz x Hx) as [H1 H2].
    destruct (scatter_row zero x m) as [o rest]. simpl in *.
    constructor; auto.
Qed.

(** A padded row of the re-embedding: finite and of the declared width. *)
Definition emb_row (W : nat) (row : vec) : Prop := fin1 row /\ length row = W.

Lemma to_dense_ok (o : tensor2) (mask : mask2) (W : nat) :
  length o = count_true2 mask -> 0 < count_true2 mask ->
  Forall (emb_row W) o ->
  exists d,
    to_dense o mask = Some d
    /\ Forall2 (Forall2 (fun row (_ : bool) => emb_row W row)) d mask.
Proof.
  intros Hlen Hpos Ho. unfold to_dense.
  rewrite (proj2 (Nat.eqb_eq _ _) Hlen).
  eexists. split; [reflexivity|].
  apply scatter_Forall2; auto.
  destruct o as [|r o]; [simpl in Hlen; lia|].
  inversion Ho as [|? ? [Hr Hw] _]; subst. simpl. split.
  - apply Forall_forall. intros z Hz. apply repeat_spec in Hz. now subst z.
  - apply repeat_length.
Qed.

(** ** The scorer on well-shaped input *)

Definition finite_params (theta : Params) : Prop :=
  (forall i j, is_finite (w1 theta i j)) /\ (forall i, is_finite (b1 theta i))
  /\ (forall i j, is_finite (w2 theta i j)) /\ (forall i, is_finite (b2 theta i)).

Lemma lin_apply_ok (i o : nat) (w : nat -> nat -> fval) (b : nat -> fval)
      (x : vec) :
  (forall r c, is_finite (w r c)) -> (forall r, is_finite (b r)) ->
  fin1 x -> length x = i ->
  exists y, lin_apply (Lin_new i o w b) x = Ok y /\ fin1 y /\ length y = o.
Proof.
  intros Hw Hb Hx Hl. unfold lin_apply, Lin_new. simpl.
  rewrite (proj2 (Nat.eqb_eq _ _) Hl).
  eexists. split; [reflexivity|]. split.
  - apply (Forall_map2 _ _ _ fin1 is_finite).
    + intros wr br Hwr Hbr. apply fadd_finite; auto using dot_finite.
    + apply Forall_forall. intros wr Hin. apply in_map_iff in Hin.
      destruct Hin as (r & <- & _).
      apply Forall_forall. intros z Hz. apply in_map_iff in Hz.
      destruct Hz as (c & <- & _). apply Hw.
    + apply Forall_forall. intros z Hz. apply in_map_iff in Hz.
      destruct Hz as (r & <- & _). apply Hb.
  - rewrite map2_length, !length_map, length_seq. lia.
Qed.

Lemma mlp_apply_ok (W : nat) (theta : Params) (d : vec) :
  finite_params theta -> fin1 d -> length d = W ->
  exists y,
    (y0 <- mlp_apply (mkMLP (Lin_new W W (w1 theta) (b1 theta))
                            (Lin_new W 1 (w2 theta) (b2 theta))) d ;;
     squeeze y0) = Ok y
    /\ is_finite y.
Proof.
  intros (H1 & H2 & H3 & H4) Hd Hl. unfold mlp_apply. simpl.
  destruct (lin_apply_ok W W _ _ d H1 H2 Hd Hl) as (h & -> & Hh & Hlh).
  simpl.
  assert (Hr : fin1 (map relu h)).
  { apply Forall_forall. intros z Hz. apply in_map_iff in Hz.
    destruct Hz as (u & <- & Hu). apply relu_finite.
    unfold fin1 in Hh. rewrite Forall_forall in Hh. auto. }
  assert (Hlr : length (map relu h) = W) by now rewrite length_map.
  destruct (lin_apply_ok W 1 _ _ _ H3 H4 Hr Hlr) as (y & -> & Hy & Hly).
  simpl. destruct y as [|s [|? ?]]; simpl in Hly; try discriminate.
  exists s. split; auto. now inversion Hy.
Qed.

Lemma traverse_Forall2 (A B M : Type) (f : A -> result B)
      (Q : B -> M -> Prop) (l : list A) (ms : list M) :
  Forall2 (fun a m => exists b, f a = Ok b /\ Q b m) l ms ->
  exists bs, traverse f l = Ok bs /\ Forall2 Q bs ms.
Proof.
  induction 1 as [|a m l ms (b & Hb & Hq) _ (bs & Hbs & HQ)]; simpl.
  - exists []. split; auto.
  - rewrite Hb. simpl. rewrite Hbs. simpl.
    exists (b :: bs). split; auto.
Qed.

Lemma vsub_emb (W : nat) (u v : vec) :
  emb_row W u -> emb_row W v -> emb_row W (vsub u v).
Proof.
  intros [Hu Hlu] [Hv Hlv]. unfold vsub. split.
  - apply (Forall_map2 _ _ _ is_finite is_finite); auto using fsub_finite.
  - rewrite map2_length. lia.
Qed.

Lemma score_ok (W : nat) (theta : Params) (d_s d_t : tensor3) (ms mt : mask2) :
  finite_params theta ->
  Forall2 (Forall2 (fun row (_ : bool) => emb_row W row)) d_s ms ->
  Forall2 (Forall2 (fun row (_ : bool) => emb_row W row)) d_t mt ->
  exists sc,
    score (mkMLP (Lin_new W W (w1 theta) (b1 theta))
                 (Lin_new W 1 (w2 theta) (b2 theta)))
          (pairwise_diff d_s d_t) = Ok sc
    /\ Forall2 (Forall2 (Forall2 (fun y (_ : bool) => is_finite y)))
               sc (pair_mask ms mt).
Proof.
  intros Hth Hs Ht. unfold score, pairwise_diff, pair_mask.
  apply traverse_Forall2.
  apply (Forall2_map2_map2 _ _ _ _ _ _ _ _ _ _ _ _ _ Hs _ _ Ht).
  intros os msb ot mtb Hos Hot.
  apply traverse_Forall2. apply Forall2_map_map.
  eapply Forall2_impl; [|exact Hos]. intros u a Hu. simpl in Hu.
  apply traverse_Forall2. apply Forall2_map_map.
  eapply Forall2_impl; [|exact Hot]. intros v b Hv. simpl in Hv.
  destruct (vsub_emb W u v Hu Hv) as [Hf Hl].
  apply mlp_apply_ok; auto.
Qed.

(** ** The update of the logits *)

Lemma update_row_ok (r q : vec) (m : list bool) :
  Forall2 ok_cell r m ->
  Forall2 (fun y (_ : bool) => is_finite y) q m ->
  Forall2 ok_cell (map2 fadd r (masked_fill_row q (mask_not m) fzero)) m.
Proof.
  intros Hrm. revert q.
  induction Hrm as [|x b r m Hx _ IH]; intros q Hq; simpl.
  - constructor.
  - inversion Hq as [|y ? q' ? Hy Hq']; subst. simpl. constructor; auto.
    intros Hb. subst b. simpl. apply fadd_finite; auto.
Qed.

Lemma update_ok (S_hat sc : tensor3) (M : mask3) :
  Forall2 (Forall2 (Forall2 ok_cell)) S_hat M ->
  Forall2 (Forall2 (Forall2 (fun y (_ : bool) => is_finite y))) sc M ->
  Forall2 (Forall2 (Forall2 ok_cell))
          (tensor_add S_hat (masked_fill sc (mask_not3 M) fzero)) M.
Proof.
  unfold tensor_add, masked_fill, mask_not3.
  intros HS. revert sc.
  induction HS as [|s m S_hat M Hsm _ IH]; intros sc Hsc; simpl.
  - constructor.
  - inversion Hsc as [|c ? sc' ? Hc Hsc']; subst. simpl.
    constructor; auto.
    clear IH Hsc Hsc'. revert c Hc.
    induction Hsm as [|r b s m Hrb _ IH]; intros c Hc; simpl.
    + constructor.
    + inversion Hc as [|q ? c' ? Hq Hc']; subst. simpl.
      constructor; auto using update_row_ok.
Qed.

(** ** The dense step keeps the valid logits finite *)

Section DenseInvariant.
Variables EdgeIndex EdgeAttr : Type.
Variable draws : nat -> nat * nat * nat -> tensor3.
Variable self : DGMC EdgeIndex EdgeAttr.
Variable theta : Params.
Variables (edge_index_s : EdgeIndex) (edge_attr_s : EdgeAttr).
Variables (edge_index_t : EdgeIndex) (edge_attr_t : EdgeAttr).
Variables (B Ns Nt : nat) (ms mt : mask2).

Hypothesis Hth : finite_params theta.
Hypothesis Hmlp :
  mlp self
  = mkMLP (Lin_new (out_channels (psi_2 self)) (out_channels (psi_2 self))
                   (w1 theta) (b1 theta))
          (Lin_new (out_channels (psi_2 self)) 1 (w2 theta) (b2 theta)).
Hypothesis Hdraw :
  forall n, shape3 B Ns (in_channels (psi_2 self))
                   (draws n (B, Ns, in_channels (psi_2 self)))
            /\ fin3 (draws n (B, Ns, in_channels (psi_2 self))).
Hypothesis Hpsi2 :
  forall r e a,
    fin2 r -> Forall (fun row => length row = in_channels (psi_2 self)) r ->
    length (gnn_apply (psi_2 self) r e a) = length r
    /\ Forall (emb_row (out_channels (psi_2 self)))
              (gnn_apply (psi_2 self) r e a).
Hypothesis Hms : shape2 B Ns ms.
Hypothesis Hmt : shape2 B Nt mt.
Hypothesis HB : 0 < B.
Hypothesis HNs : 0 < Ns.
Hypothesis Hcs : 0 < count_true2 ms.
Hypothesis Hct : 0 < count_true2 mt.

Lemma reembed_ok (r : tensor3) (mask : mask2) (N : nat) e a :
  shape3 B N (in_channels (psi_2 self)) r -> fin3 r ->
  shape2 B N mask -> 0 < count_true2 mask ->
  exists d,
    to_dense (gnn_apply (psi_2 self) (to_sparse r mask) e a) mask = Some d
    /\ Forall2 (Forall2 (fun row (_ : bool) =>
                           emb_row (out_channels (psi_2 self)) row))
               d mask.
Proof.
  intros Hr Hf Hm Hc.
  assert (Hfs : fin2 (to_sparse r mask)) by (apply to_sparse_Forall; exact Hf).
  assert (Hws : Forall (fun row => length row = in_channels (psi_2 self))
                       (to_sparse r mask)).
  { apply to_sparse_Forall. eapply shape3_rows; eauto. }
  destruct (Hpsi2 _ e a Hfs Hws) as [Hl He].
  apply to_dense_ok; auto.
  - rewrite Hl. eapply to_sparse_length; eauto.
Qed.

Lemma dense_step_ok (S_hat : tensor3) (gen : nat) :
  Forall2 (Forall2 (Forall2 ok_cell)) S_hat (pair_mask ms mt) ->
  exists S_hat',
    dense_step draws self edge_index_s edge_attr_s edge_index_t edge_attr_t
               ms mt (pair_mask ms mt)
               (B, Ns, in_channels (psi_2 self)) (S_hat, gen)
    = Ok (S_hat', S gen)
    /\ Forall2 (Forall2 (Forall2 ok_cell)) S_hat' (pair_mask ms mt).
Proof.
  intros Hok. unfold dense_step, randn.
  pose proof (proj1 (masked_softmax_nan_free S_hat (pair_mask ms mt)) Hok)
    as HfS.
  pose proof (same3_shape _ _ _ _ B Ns Nt (masked_softmax_same _ _ Hok)
                          (pair_mask_shape ms mt B Ns Nt Hms Hmt)) as HsS.
  destruct (Hdraw gen) as [Hsr Hfr].
  destruct (transport_ok _ _ B Ns Nt _ HsS Hsr HB HNs HfS Hfr) as [Hst Hft].
  destruct (reembed_ok _ ms Ns edge_index_s edge_attr_s Hsr Hfr Hms Hcs)
    as (d_s & -> & Hds).
  destruct (reembed_ok _ mt Nt edge_index_t edge_attr_t Hst Hft Hmt Hct)
    as (d_t & -> & Hdt).
  simpl. rewrite Hmlp.
  destruct (score_ok _ theta d_s d_t ms mt Hth Hds Hdt) as (sc & -> & Hsc).
  simpl. eexists. split; [reflexivity|].
  apply update_ok; assumption.
Qed.

Lemma dense_loop_ok (n : nat) :
  forall (S_hat : tensor3) (gen : nat),
    Forall2 (Forall2 (Forall2 ok_cell)) S_hat (pair_mask ms mt) ->
    exists S_hat',
      dense_loop draws self edge_index_s edge_attr_s edge_index_t edge_attr_t
                 n ms mt (pair_mask ms mt)
                 (B, Ns, in_channels (psi_2 self)) (S_hat, gen)
      = Ok (S_hat', gen + n)
      /\ Forall2 (Forall2 (Forall2 ok_cell)) S_hat' (pair_mask ms mt).
Proof.
  induction n as [|n IH]; intros S_hat gen Hok; cbn [dense_loop].
  - exists S_hat. rewrite Nat.add_0_r. auto.
  - destruct (dense_step_ok S_hat gen Hok) as (S1 & E1 & H1).
    destruct (IH S1 (S gen) H1) as (S2 & E2 & H2).
    exists S2. split; auto.
    rewrite E1. cbn [bind]. rewrite E2.
    now replace (gen + S n) with (S gen + n) by lia.
Qed.
End DenseInvariant.

(** ** Rows of the dense correspondence *)

(** Over the padded tensor [S] with source mask [ms] and target mask [mt]:
    the row of a valid source node whose pair has a target node sums to one
    over the valid target columns, and every cell at an invalid position is
    exactly zero. *)
Definition row_stochastic (ms mt : mask2) (S : tensor3) : Prop :=
  (forall b i r msb mtb,
      row3 S b i = Some r ->
      nth_error ms b = Some msb -> nth_error msb i = Some true ->
      nth_error mt b = Some mtb -> In true mtb ->
      fsum (select r mtb) = Fin 1)
  /\ (forall b i j x,
         cell3 S b i j = Some x ->
         cell3 (pair_mask ms mt) b i j = Some false ->
         x = fzero).

Lemma row3_pair_mask (ms mt : mask2) b i msb mtb a :
  nth_error ms b = Some msb -> nth_error msb i = Some a ->
  nth_error mt b = Some mtb ->
  row3 (pair_mask ms mt) b i = Some (map (andb a) mtb).
Proof.
  intros Hs Hi Ht. unfold row3, pair_mask.
  rewrite (nth_error_map2 _ _ _ _ ms mt b msb mtb Hs Ht).
  now rewrite nth_error_map, Hi.
Qed.

Lemma Forall2_row3 (A B : Type) (P : list A -> list B -> Prop)
      (t : list (list (list A))) (M : list (list (list B))) b i rm :
  Forall2 (Forall2 P) t M -> row3 M b i = Some rm ->
  exists rs, row3 t b i = Some rs /\ P rs rm.
Proof.
  intros H Hrm. unfold row3 in *.
  destruct (nth_error M b) as [m|] eqn:E; [|discriminate].
  destruct (Forall2_nth_error _ _ _ _ _ H b m E) as (s & -> & Hsm).
  destruct (Forall2_nth_error _ _ _ _ _ Hsm i rm Hrm) as (rs & -> & Hp).
  eauto.
Qed.

Lemma masked_softmax_stochastic (ms mt : mask2) (S_hat : tensor3) :
  Forall2 (Forall2 (Forall2 ok_cell)) S_hat (pair_mask ms mt) ->
  row_stochastic ms mt (masked_softmax S_hat (pair_mask ms mt)).
Proof.
  intros Hok. rewrite masked_softmax_rows. split.
  - intros b i r msb mtb Hr Hs Hi Ht Hin.
    apply row3_map2 in Hr. destruct Hr as (rs & rm & Hrs & Hrm & ->).
    rewrite (row3_pair_mask ms mt b i msb mtb true Hs Hi Ht) in Hrm.
    assert (E : map (andb true) mtb = mtb).
    { rewrite <- (map_id mtb) at 2. apply map_ext. reflexivity. }
    rewrite E in Hrm. inversion Hrm; subst rm.
    destruct (Forall2_row3 _ _ _ _ _ b i mtb Hok) as (rs' & Hrs' & Hcells).
    { now rewrite (row3_pair_mask ms mt b i msb mtb true Hs Hi Ht), E. }
    rewrite Hrs in Hrs'. inversion Hrs'; subst rs'.
    now apply masked_softmax_row_sum.
  - intros b i j x Hx Hm. unfold cell3 in *.
    destruct (row3 (map2 (map2 masked_softmax_row) S_hat (pair_mask ms mt))
                   b i) as [r|] eqn:Hr; [|discriminate].
    apply row3_map2 in Hr. destruct Hr as (rs & rm & Hrs & Hrm & ->).
    rewrite Hrm in Hm.
    eapply masked_softmax_row_zero; eauto.
Qed.


Lemma draws0_ok (n b m c : nat) :
  shape3 b m c (Tiny.draws0 n (b, m, c)) /\ fin3 (Tiny.draws0 n (b, m, c)).
Proof.
  unfold Tiny.draws0. split.
  - split; [apply repeat_length|].
    apply Forall_forall. intros x Hx. apply repeat_spec in Hx. subst x.
    split; [apply repeat_length|].
    apply Forall_forall. intros x Hx. apply repeat_spec in Hx. subst x.
    apply repeat_length.
  - apply Forall_forall. intros x Hx. apply repeat_spec in Hx. subst x.
    apply Forall_forall. intros x Hx. apply repeat_spec in Hx. subst x.
    apply Forall_forall. intros x Hx. apply repeat_spec in Hx. subst x.
    exact I.
Qed.

Lemma theta0_finite : finite_params Tiny.theta0.
Proof. repeat split; intros; exact I. Qed.

Lemma psi_id_ok (i : nat) (r : tensor2) (e a : unit) :
  fin2 r -> Forall (fun row => length row = in_channels (Tiny.psi_id i i)) r ->
  length (gnn_apply (Tiny.psi_id i i) r e a) = length r
  /\ Forall (emb_row (out_channels (Tiny.psi_id i i)))
            (gnn_apply (Tiny.psi_id i i) r e a).
Proof.
  intros Hf Hw. simpl in *. split; [reflexivity|].
  unfold fin2 in Hf. rewrite Forall_forall in *.
  intros row Hin. split; auto.
Qed.


(** ** The sparse path *)

Lemma slot_insert_length x j (slots : list (fval * nat)) :
  length (slot_insert x j slots) = S (length slots).
Proof.
  induction slots as [|[y i] slots IH]; simpl; auto.
  destruct (flt x y); simpl; auto.
Qed.

Lemma offer_length k (slots : list (fval * nat)) c :
  length slots = k -> length (offer k slots c) = k.
Proof.
  intros H. unfold offer. rewrite length_firstn, slot_insert_length. lia.
Qed.

Lemma argKmin_length (k : nat) (row : vec) : length (argKmin k row) = k.
Proof.
  unfold argKmin. rewrite length_map.
  assert (H : length (repeat (PInf, 0) k) = k) by apply repeat_length.
  revert H. generalize (repeat (PInf, 0) k). generalize (enumerate row).
  induction l as [|c l IH]; intros slots H; simpl; auto.
  apply IH. now apply offer_length.
Qed.

Lemma softmax_row_length (v : vec) : length (softmax_row v) = length v.
Proof. unfold softmax_row. now rewrite !length_map. Qed.

(** A non-empty row of finite scores becomes a distribution. *)
Lemma softmax_row_sum (v : vec) :
  fin1 v -> v <> [] -> fsum (softmax_row v) = Fin 1.
Proof.
  intros Hf Hne.
  assert (Hreg : Forall regular v).
  { eapply Forall_impl; [|exact Hf]. intros x. destruct x; simpl; tauto. }
  assert (Hex : Exists is_finite v).
  { destruct v as [|x v]; [congruence|]. left. now inversion Hf. }
  destruct (softmax_row_regular v Hreg Hex) as (M & _ & Hpos & ->).
  rewrite <- (map_map (fun x => expw M x / Rsum (map (expw M) v))%R Fin).
  rewrite fsum_Fin. f_equal.
  rewrite <- (map_map (expw M) (fun w => w / Rsum (map (expw M) v))%R).
  rewrite Rsum_div. field. lra.
Qed.

Lemma row3_map (A B : Type) (f : list A -> list B)
      (t : list (list (list A))) b i r :
  row3 (map (map f) t) b i = Some r ->
  exists r', row3 t b i = Some r' /\ r = f r'.
Proof.
  unfold row3. rewrite nth_error_map.
  destruct (nth_error t b) as [m|]; simpl; [|discriminate].
  rewrite nth_error_map.
  destruct (nth_error m i) as [r'|]; simpl; [|discriminate].
  intros H. inversion H. eauto.
Qed.

Lemma nth_error_combine (A B : Type) (l : list A) :
  forall (m : list B) n a b,
    nth_error (combine l m) n = Some (a, b) ->
    nth_error l n = Some a /\ nth_error m n = Some b.
Proof.
  induction l as [|x l IH]; intros [|y m] [|n] a b H; simpl in *;
    try discriminate.
  - inversion H. auto.
  - auto.
Qed.

Lemma row3_gather_scores (h_s h_t : tensor3) (S_idx : list (list (list nat)))
      b i r :
  row3 (gather_scores h_s h_t S_idx) b i = Some r ->
  exists u ht idx,
    row3 h_s b i = Some u /\ nth_error h_t b = Some ht
    /\ row3 S_idx b i = Some idx
    /\ r = map (fun j => dot u (nth j ht [])) idx.
Proof.
  unfold row3, gather_scores. intros H.
  destruct (nth_error (map2 _ (combine h_s h_t) S_idx) b) as [m|] eqn:E;
    [|discriminate].
  apply nth_error_map2_inv in E. destruct E as ([hs ht] & ix & Hc & Hix & ->).
  apply nth_error_combine in Hc. destruct Hc as [Hhs Hht].
  apply nth_error_map2_inv in H. destruct H as (u & idx & Hu & Hidx & ->).
  cbn [fst snd] in *. unfold tensor3, tensor2, vec in *.
  exists u, ht, idx. rewrite Hhs, Hix. auto.
Qed.

(** The scores [top_k] ranks the targets of one source row by. *)
Definition distances (u : vec) (xt : tensor2) : vec :=
  map (fun v => fsum (map2 fmul (map fneg u) v)) xt.

Lemma row3_top_k (EdgeIndex EdgeAttr : Type) (self : DGMC EdgeIndex EdgeAttr)
      (x_s x_t : tensor3) b i idx :
  row3 (top_k self x_s x_t) b i = Some idx ->
  exists u xt,
    row3 x_s b i = Some u /\ nth_error x_t b = Some xt
    /\ idx = argKmin (Z.to_nat (k self)) (distances u xt).
Proof.
  unfold row3, top_k. intros H.
  match type of H with
  | context [nth_error ?t b] => destruct (nth_error t b) as [m|] eqn:E
  end; [|discriminate].
  apply nth_error_map2_inv in E. destruct E as (xs & xt & Hxs & Hxt & ->).
  rewrite nth_error_map in H.
  destruct (nth_error xs i) as [u|] eqn:Hu; simpl in H; [|discriminate].
  inversion H. unfold tensor3, tensor2, vec in *.
  exists u, xt. rewrite Hxs. auto.
Qed.

(** What the sparse branch returns. *)
Lemma forward_sparse (EdgeIndex EdgeAttr : Type)
      (draws : nat -> nat * nat * nat -> tensor3)
      (self : DGMC EdgeIndex EdgeAttr)
      (edge_index_s : EdgeIndex) (edge_attr_s : EdgeAttr)
      (edge_index_t : EdgeIndex) (edge_attr_t : EdgeAttr)
      (x_s : tensor2) (batch_s : list nat)
      (x_t : tensor2) (batch_t : list nat) (gen : nat) :
  (1 <= k self)%Z ->
  let h_s := batch_x (gnn_apply (psi_1 self) x_s edge_index_s edge_attr_s)
                     batch_s PInf in
  let h_t := batch_x (gnn_apply (psi_1 self) x_t edge_index_t edge_attr_t)
                     batch_t NInf in
  forward draws self edge_index_s edge_attr_s edge_index_t edge_attr_t
          x_s batch_s x_t batch_t gen
  = Ok (Sparse (softmax (gather_scores h_s h_t (top_k self h_s h_t)))
               (softmax (gather_scores h_s h_t (top_k self h_s h_t)))
               (top_k self h_s h_t), gen).
Proof.
  intros Hk. unfold forward, forward_fill, to_dense_batch, tensor_detach.
  assert (Hk' : (k self <? 1)%Z = false) by (apply Z.ltb_ge; lia).
  destruct (detach self); rewrite Hk'; unfold sparse_loop;
    rewrite for_range_pass; reflexivity.
Qed.

Lemma nth_error_map_seq (A : Type) (f : nat -> A) (n b : nat) (x : A) :
  nth_error (map f (seq 0 n)) b = Some x -> x = f b /\ b < n.
Proof.
  rewrite nth_error_map, nth_error_seq.
  destruct (Nat.ltb b n) eqn:E; simpl; [|discriminate].
  intros H. inversion H. split; auto. now apply Nat.ltb_lt.
Qed.

(** Row [i] of graph [b] in the padded tensor is a node row when [i] is
    below the number of nodes of the graph. *)
Lemma batch_x_valid_row (h : tensor2) (batch : list nat) (fill : fval)
      (b i : nat) (u : vec) :
  length h = length batch ->
  row3 (batch_x h batch fill) b i = Some u ->
  i < num_nodes batch b -> In u h.
Proof.
  intros Hl Hr Hi. unfold row3, batch_x in Hr.
  destruct (nth_error (map _ (seq 0 (num_graphs batch))) b) as [m|] eqn:E;
    [|discriminate].
  apply nth_error_map_seq in E. destruct E as [-> _].
  rewrite nth_error_app1 in Hr by (now rewrite nodes_of_length).
  apply nth_error_In in Hr. unfold nodes_of in Hr.
  eapply select_In; eauto.
Qed.

Lemma batch_x_valid_nth (h : tensor2) (batch : list nat) (fill : fval)
      (b j : nat) (ht : tensor2) :
  length h = length batch ->
  nth_error (batch_x h batch fill) b = Some ht ->
  j < num_nodes batch b -> In (nth j ht []) h.
Proof.
  intros Hl Hb Hj. unfold batch_x in Hb.
  apply nth_error_map_seq in Hb. destruct Hb as [-> _].
  rewrite app_nth1 by (now rewrite nodes_of_length).
  assert (Hin : In (nth j (nodes_of h batch b) []) (nodes_of h batch b)).
  { apply nth_In. now rewrite nodes_of_length. }
  unfold nodes_of in Hin. eapply select_In; eauto.
Qed.

Lemma batch_x_rows_length (h : tensor2) (batch : list nat) (fill : fval) :
  length h = length batch ->
  Forall (fun m => length m = max_num_nodes batch) (batch_x h batch fill).
Proof.
  intros Hl. unfold batch_x. apply Forall_forall. intros m Hm.
  apply in_map_iff in Hm. destruct Hm as (b & <- & Hb). apply in_seq in Hb.
  rewrite length_app, repeat_length, nodes_of_length by assumption.
  pose proof (num_nodes_le_max batch b). lia.
Qed.

Lemma Forall_True (A : Type) (l : list A) : Forall (fun _ => True) l.
Proof. apply Forall_forall. auto. Qed.

Lemma top_k_shape (EdgeIndex EdgeAttr : Type) (self : DGMC EdgeIndex EdgeAttr)
      (x_s x_t : tensor3) (B N : nat) :
  length x_s = B -> length x_t = B ->
  Forall (fun m => length m = N) x_s ->
  shape3 B N (Z.to_nat (k self)) (top_k self x_s x_t).
Proof.
  intros Hs Ht Hn. unfold top_k. split.
  - rewrite map2_length. llia.
  - apply (Forall_map2 _ _ _ (fun m => length m = N) (fun _ => True));
      auto using Forall_True.
    intros xs xt Hxs _. split.
    + now rewrite length_map.
    + apply Forall_forall. intros r Hr. apply in_map_iff in Hr.
      destruct Hr as (u & <- & _). apply argKmin_length.
Qed.

Lemma gather_scores_shape (h_s h_t : tensor3) (S_idx : list (list (list nat)))
      (B N K : nat) :
  length h_s = B -> length h_t = B ->
  Forall (fun m => length m = N) h_s ->
  shape3 B N K S_idx ->
  shape3 B N K (gather_scores h_s h_t S_idx).
Proof.
  intros Hs Ht Hn [Hi HI]. unfold gather_scores. split.
  - rewrite map2_length, length_combine. llia.
  - apply (Forall_map2 _ _ _ (fun st : tensor2 * tensor2 => length (fst st) = N)
                       (shape2 N K)); auto.
    + intros [hs ht] idx Hhs [Hl Hr]. simpl in *. split.
      * rewrite map2_length. llia.
      * apply (Forall_map2 _ _ _ (fun _ => True) (fun r => length r = K));
          auto using Forall_True.
        intros u r _ Hr'. now rewrite length_map.
    + clear - Hn. revert h_t.
      induction Hn as [|x l Hx _ IH]; intros [|y h_t]; simpl; constructor;
        auto.
Qed.

Lemma softmax_shape (t : tensor3) (B N K : nat) :
  shape3 B N K t -> shape3 B N K (softmax t).
Proof.
  intros [Hb Ht]. unfold softmax. split.
  - now rewrite length_map.
  - apply Forall_forall. intros m Hm. apply in_map_iff in Hm.
    destruct Hm as (x & <- & Hx). rewrite Forall_forall in Ht.
    destruct (Ht x Hx) as [Hn Hr]. split.
    + now rewrite length_map.
    + apply Forall_forall. intros r Hr'. apply in_map_iff in Hr'.
      destruct Hr' as (v & <- & Hv). rewrite Forall_forall in Hr.
      rewrite softmax_row_length. auto.
Qed.




(** ** [argKmin] over all the targets *)


Definition fin_slot (s : fval * nat) : Prop := is_finite (fst s).

Lemma flt_finite_PInf (x : fval) : is_finite x -> flt x PInf = true.
Proof. destruct x; simpl; tauto. Qed.

(** Inserting a finite candidate in front of the unused slots. *)
Lemma slot_insert_app (x : fval) (j : nat) (m : nat) :
  is_finite x ->
  forall L, Forall fin_slot L ->
            exists L',
              slot_insert x j (L ++ repeat (PInf, 0) m)
              = L' ++ repeat (PInf, 0) m
              /\ Permutation L' ((x, j) :: L)
              /\ Forall fin_slot L'.
Proof.
  intros Hx. induction L as [|[y i] L IH]; intros HL.
  - exists [(x, j)]. split; [|split].
    + destruct m; simpl; auto. now rewrite (flt_finite_PInf x Hx).
    + apply Permutation_refl.
    + constructor; auto.
  - inversion HL as [|? ? Hy HL']; subst. simpl.
    destruct (flt x y).
    + exists ((x, j) :: (y, i) :: L). split; [reflexivity|]. split.
      * apply Permutation_refl.
      * constructor; auto.
    + destruct (IH HL') as (L' & E & Hp & Hf).
      exists ((y, i) :: L'). split; [|split].
      * simpl. now rewrite E.
      * eapply Permutation_trans; [apply perm_skip; exact Hp|].
        apply perm_swap.
      * constructor; auto.
Qed.

Lemma offer_app (k : nat) (c : fval * nat) (m : nat) (L : list (fval * nat)) :
  fin_slot c -> Forall fin_slot L -> length L + S m = k ->
  exists L',
    offer k (L ++ repeat (PInf, 0) (S m)) c = L' ++ repeat (PInf, 0) m
    /\ Permutation L' (c :: L)
    /\ Forall fin_slot L'.
Proof.
  intros Hc HL Hk. destruct c as [x j]. unfold offer. simpl fst. simpl snd.
  destruct (slot_insert_app x j (S m) Hc L HL) as (L' & E & Hp & Hf).
  exists L'. split; [|split]; auto.
  rewrite E. pose proof (Permutation_length Hp) as Hl. simpl in Hl.
  rewrite firstn_app, firstn_all2 by lia.
  f_equal. replace (k - length L') with m by lia.
  replace (S m) with (m + 1) by lia.
  rewrite repeat_app, firstn_app, firstn_all2 by (rewrite repeat_length; lia).
  rewrite repeat_length, Nat.sub_diag. simpl. apply app_nil_r.
Qed.

Lemma offers_app (k : nat) (cands : list (fval * nat)) :
  Forall fin_slot cands ->
  forall (m : nat) (L : list (fval * nat)),
    Forall fin_slot L -> length L + (length cands + m) = k ->
    exists L',
      fold_left (offer k) cands (L ++ repeat (PInf, 0) (length cands + m))
      = L' ++ repeat (PInf, 0) m
      /\ Permutation L' (cands ++ L).
Proof.
  induction 1 as [|c cands Hc _ IH]; intros m L HL Hk;
    cbn [fold_left length Nat.add app] in *.
  - exists L. split; auto.
  - destruct (offer_app k c (length cands + m) L Hc HL Hk)
      as (L1 & E & Hp & Hf).
    rewrite E.
    pose proof (Permutation_length Hp) as Hl. simpl in Hl.
    destruct (IH m L1 Hf) as (L' & E' & Hp'); [lia|].
    exists L'. split; auto.
    eapply Permutation_trans; [exact Hp'|].
    eapply Permutation_trans; [apply Permutation_app_head; exact Hp|].
    apply Permutation_sym, Permutation_middle.
Qed.

Lemma enumerate_snd (A : Type) (l : list A) :
  map snd (enumerate l) = seq 0 (length l).
Proof.
  unfold enumerate. generalize 0.
  induction l as [|a l IH]; intros s; simpl; auto. now rewrite IH.
Qed.

Lemma enumerate_finite (row : vec) :
  fin1 row -> Forall fin_slot (enumerate row).
Proof.
  unfold enumerate. generalize 0.
  induction row as [|x row IH]; intros s H; simpl; constructor;
    inversion H; subst; auto.
Qed.

(** With as many slots as finite candidates, every candidate is kept. *)
Lemma argKmin_all (row : vec) :
  fin1 row -> Permutation (argKmin (length row) row) (seq 0 (length row)).
Proof.
  intros Hf. unfold argKmin.
  pose proof (offers_app (length row) (enumerate row)
                         (enumerate_finite row Hf) 0 [] (Forall_nil _)) as H.
  assert (El : length (enumerate row) = length row).
  { unfold enumerate. rewrite length_combine, length_seq. lia. }
  rewrite El, Nat.add_0_r in H. simpl in H.
  destruct (H eq_refl) as (L' & E & Hp).
  rewrite E, app_nil_r in *.
  rewrite <- enumerate_snd. now apply Permutation_map.
Qed.

(** ** Softmax of a finite row, independent of the order of the entries *)

Definition rval (x : fval) : R :=
  match x with
  | Fin r => r
  | _ => 0%R
  end.

Lemma Rsum_expw (M : R) (v : vec) :
  fin1 v ->
  Rsum (map (expw M) v)
  = (exp (- M) * Rsum (map (fun y => exp (rval y)) v))%R.
Proof.
  induction 1 as [|x v Hx _ IH]; simpl.
  - lra.
  - rewrite IH. destruct x; simpl in Hx; try tauto. simpl.
    unfold Rminus. rewrite exp_plus. lra.
Qed.

Lemma softmax_row_closed (v : vec) :
  fin1 v -> v <> [] ->
  (0 < Rsum (map (fun y => exp (rval y)) v))%R
  /\ softmax_row v
     = map (fun x => Fin (exp (rval x)
                          / Rsum (map (fun y => exp (rval y)) v))) v.
Proof.
  intros Hf Hne.
  assert (Hreg : Forall regular v).
  { eapply Forall_impl; [|exact Hf]. intros x. destruct x; simpl; tauto. }
  assert (Hex : Exists is_finite v).
  { destruct v as [|x v]; [congruence|]. left. now inversion Hf. }
  destruct (softmax_row_regular v Hreg Hex) as (M & _ & Hpos & ->).
  rewrite (Rsum_expw M v Hf) in *.
  pose proof (exp_pos (- M)) as HM.
  assert (Hs : (0 < Rsum (map (fun y => exp (rval y)) v))%R).
  { destruct (Rlt_le_dec 0 (Rsum (map (fun y => exp (rval y)) v)))
      as [?|Hle]; auto.
    exfalso.
    assert (exp (- M) * Rsum (map (fun y => exp (rval y)) v) <= 0)%R by nra.
    lra. }
  split; auto.
  apply map_ext_in. intros x Hin. f_equal.
  unfold fin1 in Hf. rewrite Forall_forall in Hf. specialize (Hf x Hin).
  destruct x; simpl in Hf; try tauto. simpl.
  unfold Rminus. rewrite exp_plus. field. split; lra.
Qed.

Lemma Rsum_perm (A : Type) (g : A -> R) (l1 l2 : list A) :
  Permutation l1 l2 -> Rsum (map g l1) = Rsum (map g l2).
Proof.
  induction 1; simpl; lra.
Qed.

(** Softmax over the candidates, read at candidate [c], is softmax over all
    the targets read at the target that candidate [c] names. *)
Lemma softmax_row_perm (f : nat -> fval) (idx : list nat) (K : nat) :
  Permutation idx (seq 0 K) -> (forall j, j < K -> is_finite (f j)) ->
  forall c j x,
    nth_error idx c = Some j ->
    nth_error (softmax_row (map f idx)) c = Some x ->
    nth_error (softmax_row (map f (seq 0 K))) j = Some x.
Proof.
  intros Hp Hf c j x Hj Hx.
  assert (HjK : j < K).
  { apply nth_error_In in Hj. apply (Permutation_in _ Hp) in Hj.
    apply in_seq in Hj. lia. }
  assert (Hf1 : fin1 (map f (seq 0 K))).
  { apply Forall_forall. intros y Hy. apply in_map_iff in Hy.
    destruct Hy as (i & <- & Hi). apply in_seq in Hi. apply Hf. lia. }
  assert (Hf2 : fin1 (map f idx)).
  { apply Forall_forall. intros y Hy. apply in_map_iff in Hy.
    destruct Hy as (i & <- & Hi). apply (Permutation_in _ Hp) in Hi.
    apply in_seq in Hi. apply Hf. lia. }
  assert (Hn1 : map f (seq 0 K) <> []).
  { destruct K; [lia|]. simpl. discriminate. }
  assert (Hn2 : map f idx <> []).
  { destruct idx; [destruct c; discriminate | simpl; discriminate]. }
  destruct (softmax_row_closed _ Hf1 Hn1) as [_ E1].
  destruct (softmax_row_closed _ Hf2 Hn2) as [_ E2].
  rewrite E1. rewrite E2 in Hx.
  rewrite !map_map in *.
  rewrite nth_error_map, Hj in Hx. simpl in Hx.
  rewrite nth_error_map, nth_error_seq.
  rewrite (proj2 (Nat.ltb_lt j K) HjK). simpl.
  rewrite <- Hx. do 3 f_equal.
  symmetry. apply (Rsum_perm _ (fun j => exp (rval (f j))) _ _ Hp).
Qed.

(** ** The dense initial correspondence, row by row *)

Lemma forward_dense_S0 (EdgeIndex EdgeAttr : Type)
      (draws : nat -> nat * nat * nat -> tensor3)
      (self : DGMC EdgeIndex EdgeAttr)
      (edge_index_s : EdgeIndex) (edge_attr_s : EdgeAttr)
      (edge_index_t : EdgeIndex) (edge_attr_t : EdgeAttr)
      (x_s : tensor2) (batch_s : list nat)
      (x_t : tensor2) (batch_t : list nat) (gen gen' : nat)
      (S_0 S_L : tensor3) :
  (k self < 1)%Z ->
  forward draws self edge_index_s edge_attr_s edge_index_t edge_attr_t
          x_s batch_s x_t batch_t gen
  = Ok (Dense S_0 S_L, gen') ->
  S_0 = masked_softmax
          (similarity
             (batch_x (gnn_apply (psi_1 self) x_s edge_index_s edge_attr_s)
                      batch_s PInf)
             (batch_x (gnn_apply (psi_1 self) x_t edge_index_t edge_attr_t)
                      batch_t NInf))
          (pair_mask (batch_mask batch_s) (batch_mask batch_t)).
Proof.
  intros Hk. unfold forward, forward_fill, to_dense_batch, tensor_detach.
  rewrite (proj2 (Z.ltb_lt _ _) Hk).
  destruct (detach self);
    match goal with
    | |- context [dense_loop ?a ?b ?c ?d ?e ?f ?g ?h ?i ?j ?k ?l] =>
        destruct (dense_loop a b c d e f g h i j k l) as [[S' g']|err]
    end; simpl; intros H; inversion H; reflexivity.
Qed.

Lemma row3_similarity (h_s h_t : tensor3) b i u ht :
  row3 h_s b i = Some u -> nth_error h_t b = Some ht ->
  row3 (similarity h_s h_t) b i
  = Some (map (fun j => dot u (column (transpose (size2 h_t) ht) j))
              (seq 0 (size1 h_t))).
Proof.
  unfold row3, similarity. intros Hu Hht. unfold tensor3, tensor2, vec in *.
  destruct (nth_error h_s b) as [hs|] eqn:Hhs; [|discriminate Hu].
  rewrite (nth_error_map2 _ _ _ _ h_s h_t b hs ht Hhs Hht).
  unfold matmul. rewrite (map_nth_error _ _ _ Hu).
  unfold transpose at 1. now rewrite map_map.
Qed.

Lemma map_nth_seq (row : vec) :
  map (fun c => nth c row fzero) (seq 0 (length row)) = row.
Proof.
  induction row as [|x row IH]; simpl; auto.
  f_equal. rewrite <- seq_shift, map_map. exact IH.
Qed.

Lemma masked_fill_row_none (r : vec) (n : nat) (v : fval) :
  length r <= n -> masked_fill_row r (mask_not (repeat true n)) v = r.
Proof.
  unfold masked_fill_row, mask_not. revert n.
  induction r as [|x r IH]; intros [|n] H; simpl in *; auto; try lia.
  f_equal. apply IH. lia.
Qed.

Lemma masked_softmax_row_all_true (r : vec) :
  masked_softmax_row r (repeat true (length r)) = softmax_row r.
Proof.
  unfold masked_softmax_row.
  rewrite (masked_fill_row_none r) by lia.
  apply masked_fill_row_none. now rewrite softmax_row_length.
Qed.

Lemma nth_error_batch_mask (batch : list nat) (b : nat) :
  b < num_graphs batch ->
  nth_error (batch_mask batch) b
  = Some (repeat true (num_nodes batch b)
          ++ repeat false (max_num_nodes batch - num_nodes batch b)).
Proof.
  intros Hb. unfold batch_mask.
  rewrite nth_error_map, nth_error_seq, (proj2 (Nat.ltb_lt _ _) Hb).
  reflexivity.
Qed.

Lemma nth_error_batch_x (h : tensor2) (batch : list nat) (fill : fval) b :
  b < num_graphs batch ->
  nth_error (batch_x h batch fill) b
  = Some (nodes_of h batch b
          ++ repeat (repeat fill (size_last h))
                    (max_num_nodes batch - num_nodes batch b)).
Proof.
  intros Hb. unfold batch_x.
  rewrite nth_error_map, nth_error_seq, (proj2 (Nat.ltb_lt _ _) Hb).
  reflexivity.
Qed.

Lemma nth_error_repeat_true (n m i : nat) :
  i < n -> nth_error (repeat true n ++ repeat false m) i = Some true.
Proof.
  intros Hi. rewrite nth_error_app1 by now rewrite repeat_length.
  revert i Hi. induction n as [|n IH]; intros [|i] Hi; simpl; auto; try lia.
  apply IH. lia.
Qed.

(** When every graph has [K] nodes the padded size is [K]. *)
Lemma max_num_nodes_const (batch : list nat) (K : nat) :
  batch <> [] ->
  (forall b, b < num_graphs batch -> num_nodes batch b = K) ->
  max_num_nodes batch = K.
Proof.
  intros Hne HK. pose proof (num_graphs_pos batch Hne) as HB.
  pose proof (num_nodes_le_max batch 0 HB) as Hge. rewrite (HK 0 HB) in Hge.
  assert (Hle : max_num_nodes batch <= K).
  { unfold max_num_nodes. apply list_max_le.
    apply Forall_forall. intros n Hn. apply in_map_iff in Hn.
    destruct Hn as (b & <- & Hb). apply in_seq in Hb.
    rewrite HK by lia. lia. }
  lia.
Qed.

Lemma row3_inv (A : Type) (t : list (list (list A))) b i r :
  row3 t b i = Some r ->
  exists m, nth_error t b = Some m /\ nth_error m i = Some r.
Proof.
  unfold row3. destruct (nth_error t b) as [m|]; [eauto | discriminate].
Qed.

Lemma row3_map2_fwd (A B C : Type) (f : list A -> list B -> list C)
      s m b i rs rm :
  row3 s b i = Some rs -> row3 m b i = Some rm ->
  row3 (map2 (map2 f) s m) b i = Some (f rs rm).
Proof.
  unfold row3. intros Hs Hm.
  destruct (nth_error s b) as [sb|] eqn:Es; [|discriminate Hs].
  destruct (nth_error m b) as [mb|] eqn:Em; [|discriminate Hm].
  rewrite (nth_error_map2 _ _ _ _ s m b sb mb Es Em).
  now apply nth_error_map2.
Qed.

Lemma size2_batch_x (g : tensor2) (batch : list nat) (fill : fval) (D : nat) :
  length g = length batch -> 0 < num_graphs batch ->
  0 < num_nodes batch 0 -> Forall (fun row => length row = D) g ->
  size2 (batch_x g batch fill) = D.
Proof.
  intros Hl HB Hn HD.
  pose proof (nth_error_batch_x g batch fill 0 HB) as E.
  destruct (batch_x g batch fill) as [|m t]; [discriminate E|].
  simpl in E. inversion E as [Em]. unfold size2.
  pose proof (nodes_of_length _ g batch 0 Hl) as Hlen.
  destruct (nodes_of g batch 0) as [|r rs] eqn:En; [simpl in Hlen; lia|].
  simpl. rewrite Forall_forall in HD. apply HD.
  assert (Hin : In r (nodes_of g batch 0)) by (rewrite En; now left).
  unfold nodes_of in Hin. eapply select_In; eauto.
Qed.




(** ** The refinement step as the specification words it *)

Set Implicit Arguments.

Module Spec.
Section Step.
Variables EdgeIndex EdgeAttr : Type.
Variable draws : nat -> nat * nat * nat -> tensor3.
Variable self : DGMC EdgeIndex EdgeAttr.
Variables (edge_index_s : EdgeIndex) (edge_attr_s : EdgeAttr).
Variables (edge_index_t : EdgeIndex) (edge_attr_t : EdgeAttr).
Variables h_s_mask h_t_mask : mask2.

(** Step 1: the current soft correspondence, from the current logits. *)
Definition normalize (S_hat : tensor3) : tensor3 :=
  masked_softmax S_hat (pair_mask h_s_mask h_t_mask).

(** Step 3: target node [j] receives, channel by channel, the sum over the
    source nodes [i] of [S[i][j] * r_s[i]]. *)
Definition mix (S r_s : tensor3) : tensor3 :=
  map2 (fun s r =>
          map (fun j =>
                 map (fun c => fsum (map2 fmul (column s j) (column r c)))
                     (seq 0 (size2 r_s)))
              (seq 0 (size2 S)))
       S r_s.

(** Step 4: strip the padding, re-embed on the graph's own connectivity,
    pad again. *)
Definition reembed (r : tensor3) (mask : mask2) (e : EdgeIndex) (a : EdgeAttr)
  : result tensor3 :=
  of_option (to_dense (gnn_apply (psi_2 self) (to_sparse r mask) e a) mask).

(** Steps 5 and 6: the scalar the scorer gives the difference of a source
    row and a target row. *)
Definition pair_score (u v : vec) : result fval :=
  y <- mlp_apply (mlp self) (vsub u v) ;; squeeze y.

Definition scores (o_s o_t : tensor3) : result tensor3 :=
  traverse (fun st : tensor2 * tensor2 =>
              traverse (fun u => traverse (pair_score u) (snd st)) (fst st))
           (combine o_s o_t).

(** Step 6: the score, zero outside the valid pairs, is added to the
    logits. *)
Definition update (S_hat sc : tensor3) : tensor3 :=
  map2 (map2 (map2 fadd)) S_hat
       (map2 (map2 (map2 (fun s (valid : bool) => if valid then s else fzero)))
             sc (pair_mask h_s_mask h_t_mask)).

(** One refinement step on the logits, from the random tensor [r_s]. *)
Definition step (r_s S_hat : tensor3) : result tensor3 :=
  let S := normalize S_hat in
  let r_t := mix S r_s in
  o_s <- reembed r_s h_s_mask edge_index_s edge_attr_s ;;
  o_t <- reembed r_t h_t_mask edge_index_t edge_attr_t ;;
  sc <- scores o_s o_t ;;
  Ok (update S_hat sc).

(** [n] steps; the first uses draw number [gen] of the given size, the next
    draw number [gen + 1], and so on. *)
Fixpoint refine (n : nat) (size : nat * nat * nat) (gen : nat)
         (S_hat : tensor3) : result tensor3 :=
  match n with
  | O => Ok S_hat
  | S n' => S1 <- step (draws gen size) S_hat ;; refine n' size (S gen) S1
  end.
End Step.
End Spec.

Unset Implicit Arguments.

Lemma traverse_map (A B C : Type) (g : A -> B) (f : B -> result C) l :
  traverse f (map g l) = traverse (fun a => f (g a)) l.
Proof. induction l as [|a l IH]; simpl; auto. now rewrite IH. Qed.

Lemma traverse_ext (A B : Type) (f g : A -> result B) l :
  (forall a, f a = g a) -> traverse f l = traverse g l.
Proof.
  intros H. induction l as [|a l IH]; simpl; auto. now rewrite H, IH.
Qed.

Lemma map2_combine (A B C : Type) (f : A -> B -> C) (l : list A) :
  forall m, map2 f l m = map (fun p => f (fst p) (snd p)) (combine l m).
Proof.
  induction l as [|a l IH]; intros [|b m]; simpl; auto. now rewrite IH.
Qed.

Section Refinement.
Variables EdgeIndex EdgeAttr : Type.
Variable draws : nat -> nat * nat * nat -> tensor3.
Variable self : DGMC EdgeIndex EdgeAttr.
Variables (edge_index_s : EdgeIndex) (edge_attr_s : EdgeAttr).
Variables (edge_index_t : EdgeIndex) (edge_attr_t : EdgeAttr).
Variables ms mt : mask2.

Lemma transport_mix (S r_s : tensor3) : transport S r_s = Spec.mix S r_s.
Proof.
  unfold transport, Spec.mix. apply map2_ext. intros s r.
  unfold matmul. unfold transpose at 2. rewrite map_map.
  apply map_ext. intros j. unfold transpose. rewrite map_map.
  reflexivity.
Qed.

Lemma score_scores (o_s o_t : tensor3) :
  score (mlp self) (pairwise_diff o_s o_t) = Spec.scores self o_s o_t.
Proof.
  unfold score, pairwise_diff, Spec.scores.
  rewrite map2_combine, traverse_map.
  apply traverse_ext. intros [os ot]. simpl.
  rewrite traverse_map. apply traverse_ext. intros u.
  rewrite traverse_map. reflexivity.
Qed.

Lemma masked_add_update (S_hat sc : tensor3) :
  tensor_add S_hat (masked_fill sc (mask_not3 (pair_mask ms mt)) fzero)
  = Spec.update ms mt S_hat sc.
Proof.
  unfold tensor_add, masked_fill, mask_not3, Spec.update. f_equal.
  rewrite map2_map_r. apply map2_ext. intros s m.
  rewrite map2_map_r. apply map2_ext. intros r b.
  unfold masked_fill_row, mask_not. rewrite map2_map_r.
  apply map2_ext. intros x v. now destruct v.
Qed.

Lemma dense_step_refines (size : nat * nat * nat) (S_hat : tensor3) (gen : nat) :
  dense_step draws self edge_index_s edge_attr_s edge_index_t edge_attr_t
             ms mt (pair_mask ms mt) size (S_hat, gen)
  = (S1 <- Spec.step self edge_index_s edge_attr_s edge_index_t edge_attr_t
                     ms mt (draws gen size) S_hat ;;
     Ok (S1, S gen)).
Proof.
  unfold dense_step, randn, Spec.step, Spec.reembed, Spec.normalize.
  rewrite transport_mix.
  destruct (of_option (to_dense _ ms)) as [o_s|e]; simpl; auto.
  destruct (of_option (to_dense _ mt)) as [o_t|e]; simpl; auto.
  rewrite score_scores.
  destruct (Spec.scores self o_s o_t) as [sc|e]; simpl; auto.
  now rewrite masked_add_update.
Qed.

Lemma dense_loop_refines (size : nat * nat * nat) (n : nat) :
  forall (S_hat : tensor3) (gen : nat),
    dense_loop draws self edge_index_s edge_attr_s edge_index_t edge_attr_t
               n ms mt (pair_mask ms mt) size (S_hat, gen)
    = (S' <- Spec.refine draws self edge_index_s edge_attr_s
                         edge_index_t edge_attr_t ms mt n size gen S_hat ;;
       Ok (S', gen + n)).
Proof.
  induction n as [|n IH]; intros S_hat gen; cbn [dense_loop Spec.refine].
  - simpl. now rewrite Nat.add_0_r.
  - rewrite dense_step_refines.
    destruct (Spec.step self edge_index_s edge_attr_s edge_index_t
                        edge_attr_t ms mt (draws gen size) S_hat)
      as [S1|e]; cbn [bind]; auto.
    rewrite IH.
    now replace (S gen + n) with (gen + S n) by lia.
Qed.
End Refinement.



(** ** Masking isolation: rows with a masked tail *)

Lemma fmax_NInf_r (x : fval) : fmax x NInf = x.
Proof. destruct x; reflexivity. Qed.

Lemma fadd_0_r (x : fval) : fadd x (Fin 0) = x.
Proof. destruct x; simpl; auto. f_equal. lra. Qed.

Lemma fold_fmax_NInf (m : nat) (a : fval) :
  fold_left fmax (repeat NInf m) a = a.
Proof.
  revert a. induction m as [|m IH]; intros a; simpl; auto.
  now rewrite fmax_NInf_r.
Qed.

Lemma fold_fadd_zero (m : nat) (a : fval) :
  fold_left fadd (repeat (Fin 0) m) a = a.
Proof.
  revert a. induction m as [|m IH]; intros a; simpl; auto.
  now rewrite fadd_0_r.
Qed.

Lemma fold_fadd_NaN (v : vec) : fold_left fadd v NaN = NaN.
Proof. induction v as [|x v IH]; simpl; auto. Qed.

Lemma fold_fadd_has_NaN (v : vec) :
  In NaN v -> forall a, fold_left fadd v a = NaN.
Proof.
  induction v as [|x v IH]; intros Hin a; simpl in *; [tauto|].
  destruct Hin as [->|Hin]; auto.
  replace (fadd a NaN) with NaN by (destruct a; reflexivity).
  apply fold_fadd_NaN.
Qed.

Lemma fold_fmax_NInf_inv (v : vec) :
  forall a, fold_left fmax v a = NInf -> a = NInf /\ Forall (eq NInf) v.
Proof.
  induction v as [|x v IH]; intros a H; simpl in *; auto.
  destruct (IH _ H) as [Hax Hv].
  assert (a = NInf /\ x = NInf) as [-> ->].
  { destruct a, x; simpl in Hax; try discriminate; auto. }
  auto.
Qed.

Lemma map2_app (A B C : Type) (f : A -> B -> C) (l1 l2 : list A) :
  forall m1 m2,
    length l1 = length m1 ->
    map2 f (l1 ++ l2) (m1 ++ m2) = map2 f l1 m1 ++ map2 f l2 m2.
Proof.
  induction l1 as [|a l1 IH]; intros [|b m1] m2 H; simpl in *;
    try discriminate; auto.
  rewrite IH by lia. reflexivity.
Qed.

Lemma masked_fill_row_all_true (r : vec) (v : fval) :
  masked_fill_row r (repeat true (length r)) v = repeat v (length r).
Proof.
  unfold masked_fill_row. induction r as [|x r IH]; simpl; auto.
  now rewrite IH.
Qed.

(** The sum of the exponentials does not change when entries at [-inf] are
    appended to a row that is not empty. *)
Lemma softmax_sum_tail (r1 : vec) (m : nat) :
  r1 <> [] ->
  fold_left fadd
            (repeat (fexp (fsub NInf (row_max r1))) m)
            (fsum (map (fun x => fexp (fsub x (row_max r1))) r1))
  = fsum (map (fun x => fexp (fsub x (row_max r1))) r1).
Proof.
  intros Hne. destruct (row_max r1) as [M| | |] eqn:E.
  - apply fold_fadd_zero.
  - apply fold_fadd_zero.
  - unfold row_max in E. apply fold_fmax_NInf_inv in E. destruct E as [_ Hall].
    assert (Hs : fsum (map (fun x => fexp (fsub x NInf)) r1) = NaN).
    { apply fold_fadd_has_NaN.
      destruct r1 as [|x r1]; [congruence|]. inversion Hall; subst.
      left. reflexivity. }
    rewrite Hs. apply fold_fadd_NaN.
  - assert (Hs : fsum (map (fun x => fexp (fsub x NaN)) r1) = NaN).
    { apply fold_fadd_has_NaN.
      destruct r1 as [|x r1]; [congruence|].
      left. destruct x; reflexivity. }
    rewrite Hs. apply fold_fadd_NaN.
Qed.

(** Softmax with a masked tail: the valid entries are the softmax of the
    valid part alone, the tail is zero. *)
Lemma masked_softmax_row_tail (r1 r2 : vec) :
  r1 <> [] ->
  masked_softmax_row (r1 ++ r2)
                     (repeat true (length r1) ++ repeat false (length r2))
  = softmax_row r1 ++ repeat fzero (length r2).
Proof.
  intros Hne. unfold masked_softmax_row.
  assert (Efill : masked_fill_row (r1 ++ r2)
                    (mask_not (repeat true (length r1)
                               ++ repeat false (length r2))) NInf
                  = r1 ++ repeat NInf (length r2)).
  { unfold mask_not. rewrite map_app, !map_repeat. simpl.
    unfold masked_fill_row.
    rewrite map2_app by now rewrite repeat_length.
    f_equal.
    - fold (masked_fill_row r1 (repeat false (length r1)) NInf).
      change (repeat false (length r1))
        with (repeat (negb true) (length r1)).
      rewrite <- map_repeat. apply masked_fill_row_none. lia.
    - apply (masked_fill_row_all_true r2 NInf). }
  rewrite Efill.
  assert (Emax : row_max (r1 ++ repeat NInf (length r2)) = row_max r1).
  { unfold row_max. rewrite fold_left_app. apply fold_fmax_NInf. }
  assert (Esm : softmax_row (r1 ++ repeat NInf (length r2))
                = softmax_row r1
                  ++ map (fun y => fdiv y
                            (fsum (map (fun x => fexp (fsub x (row_max r1)))
                                       r1)))
                         (repeat (fexp (fsub NInf (row_max r1)))
                                 (length r2))).
  { unfold softmax_row. rewrite Emax, map_app, map_repeat.
    unfold fsum at 1. rewrite fold_left_app.
    fold (fsum (map (fun x => fexp (fsub x (row_max r1))) r1)).
    rewrite (softmax_sum_tail r1 (length r2) Hne).
    now rewrite map_app. }
  rewrite Esm. unfold mask_not. rewrite map_app, !map_repeat. simpl.
  unfold masked_fill_row.
  rewrite map2_app by now rewrite softmax_row_length, repeat_length.
  f_equal.
  - fold (masked_fill_row (softmax_row r1) (repeat false (length r1)) fzero).
    change (repeat false (length r1)) with (repeat (negb true) (length r1)).
    rewrite <- map_repeat. apply masked_fill_row_none.
    rewrite softmax_row_length. lia.
  - pose proof (masked_fill_row_all_true
                  (repeat (fdiv (fexp (fsub NInf (row_max r1)))
                                (fsum (map (fun x => fexp (fsub x (row_max r1)))
                                           r1)))
                          (length r2)) fzero) as H.
    rewrite repeat_length in H. exact H.
Qed.

(** ** Masking isolation: the nodes of one graph in a sorted batch *)

(** A batch vector is sorted when it lists the nodes of graph 0, then those
    of graph 1, and so on; a graph may be empty. *)
Definition sorted_batch (batch : list nat) : Prop :=
  batch = concat (map (fun b => repeat b (num_nodes batch b))
                      (seq 0 (num_graphs batch))).

(** The part of a padded tensor that belongs to pair [p]: its first [n]
    rows, cut to their first [m] entries. *)
Definition block {A : Type} (n m p : nat) (S : list (list (list A)))
  : list (list A) :=
  map (firstn m) (firstn n (nth p S [])).

Lemma select_app (A : Type) (a b : list A) :
  forall ma mb,
    length a = length ma ->
    select (a ++ b) (ma ++ mb) = select a ma ++ select b mb.
Proof.
  induction a as [|x a IH]; intros [|m ma] mb H; simpl in *;
    try discriminate; auto.
  rewrite IH by lia. destruct m; reflexivity.
Qed.

Lemma select_none (A : Type) (m : nat) :
  forall x : list A, select x (repeat false m) = [].
Proof.
  induction m as [|m IH]; intros [|a x]; simpl; auto.
Qed.

Lemma select_true_false (A : Type) (c m : nat) :
  forall x : list A,
    select x (repeat true c ++ repeat false m) = firstn c x.
Proof.
  induction c as [|c IH]; intros x; simpl.
  - apply select_none.
  - destruct x as [|a x]; simpl; auto. now rewrite IH.
Qed.

Lemma select_eqb_repeat (A : Type) (p l : nat) (X : list A) :
  select X (map (Nat.eqb p) (repeat l (length X)))
  = if p =? l then X else [].
Proof.
  rewrite map_repeat. destruct (p =? l).
  - pose proof (select_true_false A (length X) 0 X) as H.
    simpl in H. rewrite app_nil_r, firstn_all in H. exact H.
  - apply select_none.
Qed.

Lemma nodes_of_groups (A : Type) (cnt : nat -> nat) (p : nat)
      (Xs : list (list A)) :
  forall s,
    (forall j X, nth_error Xs j = Some X -> length X = cnt (s + j)) ->
    select (concat Xs)
           (map (Nat.eqb p)
                (concat (map (fun b => repeat b (cnt b))
                             (seq s (length Xs)))))
    = if (s <=? p) && (p <? s + length Xs) then nth (p - s) Xs [] else [].
Proof.
  induction Xs as [|X Xs IH]; intros s H.
  - simpl. destruct ((s <=? p) && (p <? s + 0)); destruct (p - s); reflexivity.
  - cbn [length seq map concat]. rewrite map_app.
    assert (HX : length X = cnt s).
    { rewrite (H 0 X eq_refl). f_equal. lia. }
    rewrite select_app by now rewrite length_map, repeat_length.
    rewrite <- HX, select_eqb_repeat.
    rewrite IH.
    2:{ intros j Y Hj. rewrite (H (S j) Y Hj). f_equal. lia. }
    destruct (Nat.eqb_spec p s) as [->|Hne].
    + replace (S s <=? s) with false by (symmetry; apply Nat.leb_gt; lia).
      replace (s <=? s) with true by (symmetry; apply Nat.leb_le; lia).
      replace (s <? s + S (length Xs)) with true
        by (symmetry; apply Nat.ltb_lt; lia).
      rewrite Nat.sub_diag. simpl. apply app_nil_r.
    + cbn [app].
      replace (s + S (length Xs)) with (S s + length Xs) by lia.
      destruct (le_lt_dec (S s) p) as [Hle|Hgt].
      * rewrite (proj2 (Nat.leb_le (S s) p)) by lia.
        rewrite (proj2 (Nat.leb_le s p)) by lia.
        cbn [andb]. destruct (p <? S s + length Xs); auto.
        replace (p - s) with (S (p - S s)) by lia. reflexivity.
      * rewrite (proj2 (Nat.leb_gt (S s) p)) by lia.
        rewrite (proj2 (Nat.leb_gt s p)) by lia.
        reflexivity.
Qed.

Lemma nth_map2 (A B C : Type) (f : A -> B -> C) (l : list A) (m : list B)
      (n : nat) (a : A) (b : B) (d : C) :
  nth_error l n = Some a -> nth_error m n = Some b ->
  nth n (map2 f l m) d = f a b.
Proof.
  intros Ha Hb. apply nth_error_nth.
  now apply nth_error_map2.
Qed.

Lemma nth_error_seq0 (n j : nat) : j < n -> nth_error (seq 0 n) j = Some j.
Proof.
  intros H. rewrite (nth_error_nth' _ 0) by now rewrite length_seq.
  now rewrite seq_nth.
Qed.

Lemma nth_error_Some_nth (A : Type) (l : list A) (n : nat) (d : A) :
  n < length l -> nth_error l n = Some (nth n l d).
Proof. intros H. now apply nth_error_nth'. Qed.

Lemma to_sparse_batch_mask (d : tensor3) (batch : list nat) :
  to_sparse d (batch_mask batch)
  = concat (map2 (fun (m : tensor2) b => firstn (num_nodes batch b) m)
                 d (seq 0 (num_graphs batch))).
Proof.
  unfold to_sparse, batch_mask. rewrite map2_map_r. f_equal.
  apply map2_ext. intros a b. apply select_true_false.
Qed.

(** The rows [to_sparse] keeps for graph [p] are the first rows of entry
    [p] of the padded tensor. *)
Lemma nodes_of_to_sparse (d : tensor3) (batch : list nat) (p : nat) :
  sorted_batch batch -> length d = num_graphs batch ->
  Forall (fun m : tensor2 => length m = max_num_nodes batch) d ->
  p < num_graphs batch ->
  nodes_of (to_sparse d (batch_mask batch)) batch p
  = firstn (num_nodes batch p) (nth p d []).
Proof.
  intros Hsort Hlen Hrows Hp.
  rewrite to_sparse_batch_mask. unfold nodes_of.
  set (Xs := map2 (fun (m : tensor2) b => firstn (num_nodes batch b) m)
                  d (seq 0 (num_graphs batch))).
  assert (HXs : length Xs = num_graphs batch).
  { unfold Xs. rewrite map2_length, length_seq. llia. }
  assert (E : map (Nat.eqb p) batch
              = map (Nat.eqb p)
                    (concat (map (fun b => repeat b (num_nodes batch b))
                                 (seq 0 (length Xs))))).
  { rewrite HXs. f_equal. exact Hsort. }
  rewrite E.
  rewrite (nodes_of_groups vec (num_nodes batch) p Xs 0).
  - rewrite HXs. simpl.
    replace (p <? num_graphs batch) with true
      by (symmetry; apply Nat.ltb_lt; lia).
    rewrite Nat.sub_0_r. unfold Xs.
    apply (nth_map2 _ _ _
             (fun (m : tensor2) b => firstn (num_nodes batch b) m)
             d (seq 0 (num_graphs batch)) p (nth p d []) p).
    + apply nth_error_Some_nth. llia.
    + now apply nth_error_seq0.
  - intros j X Hj. unfold Xs in Hj.
    apply nth_error_map2_inv in Hj. destruct Hj as (m & b & Hm & Hb & ->).
    assert (Hjb : j < num_graphs batch).
    { assert (H : nth_error (seq 0 (num_graphs batch)) j <> None)
        by congruence.
      apply nth_error_Some in H. now rewrite length_seq in H. }
    rewrite (nth_error_seq0 _ _ Hjb) in Hb. injection Hb as <-.
    simpl. rewrite length_firstn.
    apply nth_error_In in Hm. rewrite Forall_forall in Hrows.
    rewrite (Hrows m Hm).
    pose proof (num_nodes_le_max batch j Hjb). lia.
Qed.

Lemma count_true_true_false (c m : nat) :
  count_true (repeat true c ++ repeat false m) = c.
Proof.
  unfold count_true. induction c as [|c IH]; simpl.
  - induction m as [|m IHm]; simpl; auto.
  - now rewrite IH.
Qed.

Lemma count_true2_batch_mask (batch : list nat) :
  sorted_batch batch -> count_true2 (batch_mask batch) = length batch.
Proof.
  intros Hsort.
  assert (E : length batch
              = length (concat (map (fun b => repeat b (num_nodes batch b))
                                    (seq 0 (num_graphs batch)))))
    by (f_equal; exact Hsort).
  rewrite E, length_concat. unfold count_true2, batch_mask.
  rewrite !map_map. f_equal. apply map_ext. intros b.
  now rewrite count_true_true_false, repeat_length.
Qed.

Lemma scatter_shape (A : Type) (zero : A) (mask : mask2) (B N : nat) :
  shape2 B N mask ->
  forall x : list A, shape2 B N (scatter zero x mask).
Proof.
  intros [Hlen Hrows] x.
  pose proof (scatter_Forall2 A (fun _ => True) zero mask I x
                              (Forall_True A x)) as H.
  split.
  - rewrite <- Hlen. apply (Forall2_length H).
  - clear Hlen. induction H as [|r m rs ms Hr Hrs IH]; constructor.
    + rewrite (Forall2_length Hr). now inversion Hrows.
    + apply IH. now inversion Hrows.
Qed.

(** Re-padding: the first rows of entry [p] of [to_dense o] are the rows
    of [o] that belong to graph [p]. *)
Lemma to_dense_block (o : tensor2) (batch : list nat) (p : nat) (d : tensor3) :
  sorted_batch batch -> length o = length batch -> p < num_graphs batch ->
  to_dense o (batch_mask batch) = Some d ->
  shape2 (num_graphs batch) (max_num_nodes batch) d
  /\ firstn (num_nodes batch p) (nth p d []) = nodes_of o batch p.
Proof.
  intros Hsort Hlen Hp Hd. unfold to_dense in Hd.
  pose proof (count_true2_batch_mask batch Hsort) as Hc.
  replace (length o =? count_true2 (batch_mask batch)) with true in Hd
    by (symmetry; apply Nat.eqb_eq; llia).
  injection Hd as <-.
  pose proof (scatter_shape vec (repeat fzero (size_last o))
                            (batch_mask batch) _ _
                            (batch_mask_shape batch) o) as Hsh.
  split; [exact Hsh|].
  destruct Hsh as [Hl Hr].
  rewrite <- nodes_of_to_sparse; auto.
  f_equal. unfold to_sparse.
  rewrite scatter_select by llia.
  replace (count_true2 (batch_mask batch)) with (length o) by llia.
  apply firstn_all.
Qed.

Lemma Forall_eq_repeat_r (A : Type) (z : A) (l : list A) :
  Forall (fun x => x = z) l -> l = repeat z (length l).
Proof.
  induction 1 as [|x l Hx Hl IH]; simpl; auto. now rewrite Hx, <- IH.
Qed.

Lemma map2_repeat_r (A B C : Type) (f : A -> B -> C) (c : B) (l : list A) :
  map2 f l (repeat c (length l)) = map (fun a => f a c) l.
Proof. induction l as [|a l IH]; simpl; auto. now rewrite IH. Qed.

Lemma map_andb_true (l : list bool) : map (andb true) l = l.
Proof. induction l as [|a l IH]; simpl; auto. now rewrite IH. Qed.

Lemma map_andb_false (l : list bool) :
  map (andb false) l = repeat false (length l).
Proof. induction l as [|a l IH]; simpl; auto. now rewrite IH. Qed.

Lemma masked_softmax_row_none (row : vec) (n : nat) :
  length row = n -> masked_softmax_row row (repeat false n) = repeat fzero n.
Proof.
  intros H.
  assert (Hl : length (masked_softmax_row row (repeat false n)) = n).
  { rewrite masked_softmax_row_length; now rewrite repeat_length. }
  rewrite <- Hl at 2. apply Forall_eq_repeat_r.
  apply masked_softmax_row_padding.
  clear. induction n; simpl; constructor; auto.
Qed.

Lemma In_firstn_all (A : Type) (n : nat) (l : list A) (a : A) :
  In a (firstn n l) -> In a l.
Proof.
  intros H. rewrite <- (firstn_skipn n l). apply in_or_app. now left.
Qed.

Lemma In_skipn_all (A : Type) (n : nat) (l : list A) (a : A) :
  In a (skipn n l) -> In a l.
Proof.
  intros H. rewrite <- (firstn_skipn n l). apply in_or_app. now right.
Qed.

(** The correspondence rows of one pair: valid source rows are the softmax
    of their valid entries, followed by zeros; padding source rows are
    zero. *)
Lemma masked_softmax_pair (X : tensor2) (n_s n_t Ns Nt : nat) :
  n_s <= Ns -> 0 < n_t -> n_t <= Nt -> shape2 Ns Nt X ->
  map2 masked_softmax_row X
       (map (fun a : bool =>
               map (andb a) (repeat true n_t ++ repeat false (Nt - n_t)))
            (repeat true n_s ++ repeat false (Ns - n_s)))
  = map (fun row => softmax_row (firstn n_t row) ++ repeat fzero (Nt - n_t))
        (firstn n_s X)
    ++ repeat (repeat fzero Nt) (Ns - n_s).
Proof.
  intros Hs Ht0 Ht [Hlen Hrows].
  rewrite <- (firstn_skipn n_s X) at 1.
  assert (Hf : length (firstn n_s X) = n_s) by (rewrite length_firstn; llia).
  assert (Hk : length (skipn n_s X) = Ns - n_s) by (rewrite length_skipn; llia).
  rewrite map_app, !map_repeat.
  rewrite map2_app by now rewrite repeat_length.
  rewrite map_andb_true, map_andb_false.
  rewrite length_app, !repeat_length.
  replace (n_t + (Nt - n_t)) with Nt by lia.
  f_equal.
  - rewrite <- Hf at 2. rewrite map2_repeat_r.
    apply map_ext_in. intros row Hin.
    assert (Hrow : length row = Nt).
    { rewrite Forall_forall in Hrows. apply Hrows.
      eapply In_firstn_all; eauto. }
    assert (H1 : length (firstn n_t row) = n_t)
      by (rewrite length_firstn; lia).
    assert (H2 : length (skipn n_t row) = Nt - n_t)
      by (rewrite length_skipn; lia).
    assert (Hne : firstn n_t row <> []).
    { intros E. rewrite E in H1. simpl in H1. lia. }
    pose proof (masked_softmax_row_tail (firstn n_t row) (skipn n_t row) Hne)
      as E.
    rewrite firstn_skipn, H1, H2 in E. exact E.
  - rewrite <- Hk. rewrite map2_repeat_r, <- map_const.
    apply map_ext_in. intros row Hin.
    apply masked_softmax_row_none.
    rewrite Forall_forall in Hrows. apply Hrows.
    eapply In_skipn_all; eauto.
Qed.

(** ** Masking isolation: products with zero rows *)

Lemma fold_fadd_zero_products (b2 : vec) :
  fin1 b2 ->
  forall k acc,
    fold_left fadd (map2 fmul (repeat (Fin 0) k) b2) acc = acc.
Proof.
  induction 1 as [|y b2 Hy Hb IH]; intros [|k] acc; simpl; auto.
  rewrite IH. destruct y as [y| | |]; try contradiction.
  destruct acc; simpl; auto. f_equal. lra.
Qed.

(** Zero weights on finite values add nothing to a product sum. *)
Lemma dot_pad (a b b2 : vec) (k : nat) :
  length a = length b -> fin1 b2 ->
  dot (a ++ repeat (Fin 0) k) (b ++ b2) = dot a b.
Proof.
  intros Hlen Hfin. unfold dot, fsum.
  rewrite map2_app by assumption.
  rewrite fold_left_app. now apply fold_fadd_zero_products.
Qed.

Lemma column_app (m1 m2 : tensor2) (c : nat) :
  column (m1 ++ m2) c = column m1 c ++ column m2 c.
Proof. unfold column. apply map_app. Qed.

Lemma column_zero_rows (n k j : nat) :
  column (repeat (repeat fzero n) k) j = repeat fzero k.
Proof.
  unfold column. rewrite map_repeat. f_equal. apply nth_repeat.
Qed.

Lemma column_length (m : tensor2) (c : nat) : length (column m c) = length m.
Proof. unfold column. apply length_map. Qed.

Lemma firstn_seq_min (n : nat) :
  forall s len, firstn n (seq s len) = seq s (Nat.min n len).
Proof.
  induction n as [|n IH]; intros s [|len]; simpl; auto.
  now rewrite IH.
Qed.

(** The transported features of the valid target nodes only depend on the
    valid source rows. *)
Lemma transport_pair (Xv r_p : tensor2) (n_t Nt C k : nat) :
  n_t <= Nt ->
  Forall (fun row : vec => n_t <= length row) Xv ->
  length Xv <= length r_p -> fin2 r_p ->
  firstn n_t
    (matmul C
       (transpose Nt
          (map (fun row => softmax_row (firstn n_t row)
                           ++ repeat fzero (Nt - n_t)) Xv
           ++ repeat (repeat fzero Nt) k))
       r_p)
  = matmul C (transpose n_t (map softmax_row (map (firstn n_t) Xv)))
           (firstn (length Xv) r_p).
Proof.
  intros Ht Hrows Hlen Hfin. unfold matmul, transpose.
  rewrite !map_map, firstn_map, firstn_seq_min.
  replace (Nat.min n_t Nt) with n_t by lia.
  apply map_ext_in. intros j Hj. apply in_seq in Hj.
  rewrite !map_map. apply map_ext. intros c.
  rewrite column_app, column_zero_rows.
  rewrite <- (firstn_skipn (length Xv) r_p) at 1.
  rewrite column_app.
  assert (E : column (map (fun row => softmax_row (firstn n_t row)
                                      ++ repeat fzero (Nt - n_t)) Xv) j
              = column (map (fun row => softmax_row (firstn n_t row)) Xv) j).
  { unfold column. rewrite !map_map. apply map_ext_in. intros row Hin.
    rewrite Forall_forall in Hrows. specialize (Hrows row Hin).
    apply app_nth1. rewrite softmax_row_length, length_firstn. lia. }
  rewrite E. apply dot_pad.
  - rewrite !column_length, !length_map, length_firstn. llia.
  - apply column_finite. unfold fin2 in *.
    rewrite Forall_forall in *. intros x Hx. apply Hfin.
    eapply In_skipn_all; eauto.
Qed.

(** ** Masking isolation: the first logits of one pair *)

(** The products of the valid source embeddings with the valid target
    embeddings of one pair. *)
Definition pair_similarity (W n_t : nat) (hsv htv : tensor2) : tensor2 :=
  map (fun u =>
         map (fun j => dot u (map (fun c => nth c (nth j htv []) fzero)
                                  (seq 0 W)))
             (seq 0 n_t))
      hsv.

Lemma matmul_pair (W n_t Nt : nat) (hsv pads_s htv pads_t : tensor2) :
  length htv = n_t -> n_t <= Nt ->
  map (firstn n_t)
      (firstn (length hsv)
              (matmul Nt (hsv ++ pads_s) (transpose W (htv ++ pads_t))))
  = pair_similarity W n_t hsv htv.
Proof.
  intros Hlen Hle. unfold matmul, pair_similarity.
  rewrite firstn_map, firstn_app, Nat.sub_diag, firstn_all.
  simpl firstn at 2. rewrite app_nil_r, map_map.
  apply map_ext. intros u.
  unfold transpose at 1. rewrite map_map, firstn_map, firstn_seq_min.
  replace (Nat.min n_t Nt) with n_t by lia.
  apply map_ext_in. intros j Hj. apply in_seq in Hj.
  rewrite column_transpose.
  replace (nth j (htv ++ pads_t) []) with (nth j htv []); [reflexivity|].
  symmetry. apply app_nth1. llia.
Qed.

(** ** Masking isolation: scores and updates of one pair *)

Lemma traverse_inv (A B : Type) (f : A -> result B) (l : list A) :
  forall bs, traverse f l = Ok bs -> Forall2 (fun a b => f a = Ok b) l bs.
Proof.
  induction l as [|a l IH]; intros bs H; simpl in H.
  - injection H as <-. constructor.
  - destruct (f a) as [b|] eqn:Ea; simpl in H; [|discriminate].
    destruct (traverse f l) as [bs'|] eqn:El; simpl in H; [|discriminate].
    injection H as <-. constructor; auto.
Qed.

Lemma traverse_nth_error (A B : Type) (f : A -> result B) (l : list A)
      (bs : list B) (i : nat) (a : A) :
  traverse f l = Ok bs -> nth_error l i = Some a ->
  exists b, nth_error bs i = Some b /\ f a = Ok b.
Proof.
  intros H. apply traverse_inv in H. revert i.
  induction H as [|x y l' bs' Hxy Hl IH]; intros [|i] Hi; simpl in *;
    try discriminate.
  - injection Hi as <-. eauto.
  - eauto.
Qed.

Lemma traverse_firstn (A B : Type) (f : A -> result B) (n : nat) :
  forall (l : list A) (bs : list B),
    traverse f l = Ok bs -> traverse f (firstn n l) = Ok (firstn n bs).
Proof.
  induction n as [|n IH]; intros l bs H; simpl; auto.
  destruct l as [|a l]; simpl in H.
  - injection H as <-. reflexivity.
  - destruct (f a) as [b|] eqn:Ea; simpl in H; [|discriminate].
    destruct (traverse f l) as [bs'|] eqn:El; simpl in H; [|discriminate].
    injection H as <-. simpl. rewrite Ea. simpl.
    rewrite (IH l bs' El). reflexivity.
Qed.

Lemma traverse_weaken (A B C : Type) (g : A -> result B) (g' : A -> result C)
      (h : B -> C) (l : list A) :
  (forall a y, g a = Ok y -> g' a = Ok (h y)) ->
  forall Y, traverse g l = Ok Y -> traverse g' l = Ok (map h Y).
Proof.
  intros Hg. induction l as [|a l IH]; intros Y H; simpl in H.
  - injection H as <-. reflexivity.
  - destruct (g a) as [b|] eqn:Ea; simpl in H; [|discriminate].
    destruct (traverse g l) as [bs'|] eqn:El; simpl in H; [|discriminate].
    injection H as <-. simpl. rewrite (Hg a b Ea). simpl.
    rewrite (IH bs' eq_refl). reflexivity.
Qed.

Lemma traverse_length (A B : Type) (f : A -> result B) (l : list A)
      (bs : list B) :
  traverse f l = Ok bs -> length bs = length l.
Proof.
  intros H. apply traverse_inv in H. symmetry. apply (Forall2_length H).
Qed.

(** The scores of the valid rows of pair [p] are those of a run of the
    scorer on these rows alone. *)
Lemma score_pair (m : MLP) (o_s o_t sc : tensor3) (n_s n_t p : nat)
      (os ot : tensor2) :
  score m (pairwise_diff o_s o_t) = Ok sc ->
  nth_error o_s p = Some os -> nth_error o_t p = Some ot ->
  traverse (traverse (fun d => y <- mlp_apply m d ;; squeeze y))
           (map (fun u => map (fun v => vsub u v) (firstn n_t ot))
                (firstn n_s os))
  = Ok (block n_s n_t p sc).
Proof.
  intros Hsc Hos Hot. unfold score in Hsc.
  assert (HD : nth_error (pairwise_diff o_s o_t) p
               = Some (map (fun u => map (fun v => vsub u v) ot) os)).
  { unfold pairwise_diff.
    apply (nth_error_map2 _ _ _
             (fun os ot => map (fun u => map (fun v => vsub u v) ot) os)
             o_s o_t p os ot Hos Hot). }
  destruct (traverse_nth_error _ _ _ _ _ _ _ Hsc HD) as (scp & Hscp & Hrow).
  unfold block. rewrite (nth_error_nth _ _ _ Hscp).
  apply (traverse_firstn _ _ _ n_s) in Hrow. rewrite firstn_map in Hrow.
  rewrite traverse_map in Hrow. rewrite traverse_map.
  revert Hrow. apply traverse_weaken.
  intros u y Hy. apply (traverse_firstn _ _ _ n_t) in Hy.
  now rewrite firstn_map in Hy.
Qed.

Lemma score_shape (m : MLP) (o_s o_t sc : tensor3) (B Ns Nt : nat) :
  shape2 B Ns o_s -> shape2 B Nt o_t ->
  score m (pairwise_diff o_s o_t) = Ok sc ->
  shape3 B Ns Nt sc.
Proof.
  intros [Hls Hrs] [Hlt Hrt] Hsc. unfold score in Hsc.
  pose proof (traverse_length _ _ _ _ _ Hsc) as Hlen.
  apply traverse_inv in Hsc.
  assert (HD : Forall (fun Db : list (list vec) =>
                         length Db = Ns
                         /\ Forall (fun row => length row = Nt) Db)
                      (pairwise_diff o_s o_t)).
  { unfold pairwise_diff.
    apply Forall_map2 with (P := fun r : tensor2 => length r = Ns)
                           (Q := fun r : tensor2 => length r = Nt); auto.
    intros a b Ha Hb. split.
    - now rewrite length_map.
    - apply Forall_forall. intros row Hin. apply in_map_iff in Hin.
      destruct Hin as (u & <- & _). now rewrite length_map. }
  split.
  - unfold pairwise_diff in Hlen. rewrite map2_length in Hlen. llia.
  - clear Hlen.
    induction Hsc as [|Db scb D' sc' Hb Hrest IH]; constructor.
    + assert (HDb : length Db = Ns
                    /\ Forall (fun row => length row = Nt) Db)
        by now inversion HD.
      destruct HDb as [HDl HDr].
      split.
      * rewrite (traverse_length _ _ _ _ _ Hb). exact HDl.
      * apply traverse_inv in Hb. clear HDl HD IH.
        induction Hb as [|row y rows ys Hrow Hrows IHb]; constructor.
        -- rewrite (traverse_length _ _ _ _ _ Hrow). now inversion HDr.
        -- apply IHb. now inversion HDr.
    + apply IH. now inversion HD.
Qed.

Lemma shape3_map2 (A B C : Type) (f : A -> B -> C) (b n m : nat)
      (x : list (list (list A))) (y : list (list (list B))) :
  shape3 b n m x -> shape3 b n m y ->
  shape3 b n m (map2 (map2 (map2 f)) x y).
Proof.
  intros [Hlx Hx] [Hly Hy]. split.
  - rewrite map2_length. lia.
  - apply Forall_map2 with (P := shape2 n m) (Q := shape2 n m); auto.
    intros a c [Hla Ha] [Hlc Hc]. split.
    + rewrite map2_length. lia.
    + apply Forall_map2 with (P := fun r : list A => length r = m)
                             (Q := fun r : list B => length r = m); auto.
      intros r q Hr Hq. rewrite map2_length. lia.
Qed.

Lemma shape3_map (A B : Type) (f : A -> B) (b n m : nat)
      (x : list (list (list A))) :
  shape3 b n m x -> shape3 b n m (map (map (map f)) x).
Proof.
  intros [Hlx Hx]. split.
  - now rewrite length_map.
  - apply Forall_forall. intros r Hin. apply in_map_iff in Hin.
    destruct Hin as (r' & <- & Hin').
    rewrite Forall_forall in Hx. destruct (Hx r' Hin') as [Hl Hr].
    split.
    + now rewrite length_map.
    + apply Forall_forall. intros q Hq. apply in_map_iff in Hq.
      destruct Hq as (q' & <- & Hq').
      rewrite Forall_forall in Hr. rewrite length_map. auto.
Qed.

Lemma firstn_map2 (A B C : Type) (f : A -> B -> C) (n : nat) :
  forall l m, firstn n (map2 f l m) = map2 f (firstn n l) (firstn n m).
Proof.
  induction n as [|n IH]; intros [|a l] [|b m]; simpl; auto.
  now rewrite IH.
Qed.

Lemma block_map2 (A B C : Type) (f : A -> B -> C) (n m p : nat)
      (x : list (list (list A))) (y : list (list (list B))) :
  p < length x -> p < length y ->
  block n m p (map2 (map2 (map2 f)) x y)
  = map2 (map2 f) (block n m p x) (block n m p y).
Proof.
  intros Hx Hy. unfold block.
  rewrite (nth_map2 _ _ _ (map2 (map2 f)) x y p (nth p x []) (nth p y []))
    by now apply nth_error_Some_nth.
  rewrite firstn_map2, map_map2, map2_map_l, map2_map_r.
  apply map2_ext. intros a b. apply firstn_map2.
Qed.

Lemma block_map (A B : Type) (h : A -> B) (n m p : nat)
      (x : list (list (list A))) :
  block n m p (map (map (map h)) x) = map (map h) (block n m p x).
Proof.
  unfold block.
  change (@nil (list B)) with (map (map h) (@nil (list A))).
  rewrite map_nth, firstn_map, !map_map.
  apply map_ext. intros r. apply firstn_map.
Qed.

Lemma map2_repeat_le (A B C : Type) (f : A -> B -> C) (c : B) (n : nat) :
  forall l : list A,
    length l <= n -> map2 f l (repeat c n) = map (fun a => f a c) l.
Proof.
  induction n as [|n IH]; intros [|a l] H; simpl in *; auto; try lia.
  rewrite IH by lia. reflexivity.
Qed.

Lemma block_lengths (A : Type) (n m p : nat) (x : list (list (list A))) :
  length (block n m p x) <= n
  /\ Forall (fun r => length r <= m) (block n m p x).
Proof.
  unfold block. split.
  - rewrite length_map, length_firstn. lia.
  - apply Forall_forall. intros r Hin. apply in_map_iff in Hin.
    destruct Hin as (r' & <- & _). rewrite length_firstn. lia.
Qed.

Lemma masked_softmax_shape (S_hat : tensor3) (M : mask3) (b n m : nat) :
  shape3 b n m S_hat -> shape3 b n m M ->
  shape3 b n m (masked_softmax S_hat M).
Proof.
  intros [Hl Hs] [Hl' Hm]. rewrite masked_softmax_rows. split.
  - rewrite map2_length. llia.
  - apply Forall_map2 with (P := shape2 n m) (Q := shape2 n m); auto.
    intros a c [Hla Ha] [Hlc Hc]. split.
    + rewrite map2_length. llia.
    + apply Forall_map2 with (P := fun r : vec => length r = m)
                             (Q := fun r : list bool => length r = m); auto.
      intros r q Hr Hq. rewrite masked_softmax_row_length; congruence.
Qed.

Lemma transport_shape (S r_s : tensor3) (B Ns Nt C : nat) :
  shape3 B Ns Nt S -> shape3 B Ns C r_s -> 0 < B -> 0 < Ns ->
  shape3 B Nt C (transport S r_s).
Proof.
  intros HS Hr HB HN. unfold transport.
  rewrite (size2_shape _ _ _ _ _ HS HB HN), (size2_shape _ _ _ _ _ Hr HB HN).
  destruct HS as [Hl Hs], Hr as [Hl' Hr]. split.
  - rewrite map2_length. llia.
  - apply Forall_map2 with (P := fun _ : tensor2 => True)
                           (Q := fun _ : tensor2 => True);
      try apply Forall_True.
    intros a c _ _.
    pose proof (matmul_shape C (transpose Nt a) c) as H.
    now rewrite transpose_length in H.
Qed.

(** ** Masking isolation: one pass of the loop on one pair *)

Section PairStep.
Variables EdgeIndex EdgeAttr : Type.
Variable self : DGMC EdgeIndex EdgeAttr.
Variables (edge_index_s : EdgeIndex) (edge_attr_s : EdgeAttr).
Variables (edge_index_t : EdgeIndex) (edge_attr_t : EdgeAttr).

Definition pair_scores (o_s o_t : tensor2) : result tensor2 :=
  traverse (traverse (fun d => y <- mlp_apply (mlp self) d ;; squeeze y))
           (map (fun u => map (fun v => vsub u v) o_t) o_s).

(** The body of the dense loop on the [n_s x n_t] logits [Sb] of one pair
    and the random features [rb] of its source nodes, without padding. *)
Definition pair_step (n_t : nat) (Sb rb : tensor2) : result tensor2 :=
  let S := map softmax_row Sb in
  let r_t := matmul (in_channels (psi_2 self)) (transpose n_t S) rb in
  let o_s := gnn_apply (psi_2 self) rb edge_index_s edge_attr_s in
  let o_t := gnn_apply (psi_2 self) r_t edge_index_t edge_attr_t in
  match pair_scores o_s o_t with
  | Ok sc => Ok (map2 (map2 fadd) Sb sc)
  | Raise e => Raise e
  end.

End PairStep.

Arguments pair_scores {EdgeIndex EdgeAttr} self o_s o_t.
Arguments pair_step {EdgeIndex EdgeAttr} self edge_index_s edge_attr_s
  edge_index_t edge_attr_t n_t Sb rb.

Lemma shape3_nth (A : Type) (b n m : nat) (x : list (list (list A))) q :
  shape3 b n m x -> q < b -> shape2 n m (nth q x []).
Proof.
  intros [Hl Hx] Hq. rewrite Forall_forall in Hx. apply Hx.
  apply nth_In. lia.
Qed.

Lemma firstn_app_exact (A : Type) (l1 l2 : list A) (n : nat) :
  length l1 = n -> firstn n (l1 ++ l2) = l1.
Proof.
  intros <-. rewrite firstn_app, Nat.sub_diag, firstn_all.
  simpl. apply app_nil_r.
Qed.

Section PairBlock.
Variables batch_s batch_t : list nat.
Variable p : nat.

Local Abbreviation B := (num_graphs batch_s).
Local Abbreviation Ns := (max_num_nodes batch_s).
Local Abbreviation Nt := (max_num_nodes batch_t).
Local Abbreviation n_s := (num_nodes batch_s p).
Local Abbreviation n_t := (num_nodes batch_t p).
Local Abbreviation ms := (batch_mask batch_s).
Local Abbreviation mt := (batch_mask batch_t).

Hypothesis HB : num_graphs batch_s = num_graphs batch_t.
Hypothesis Hp : p < num_graphs batch_s.
Hypothesis Hnt : 0 < num_nodes batch_t p.

Lemma pair_mask_batch_shape : shape3 B Ns Nt (pair_mask ms mt).
Proof.
  apply pair_mask_shape.
  - apply batch_mask_shape.
  - rewrite HB. apply batch_mask_shape.
Qed.

Lemma nth_pair_mask :
  nth p (pair_mask ms mt) []
  = map (fun a : bool =>
           map (andb a) (repeat true n_t ++ repeat false (Nt - n_t)))
        (repeat true n_s ++ repeat false (Ns - n_s)).
Proof.
  unfold pair_mask.
  apply (nth_map2 _ _ _
           (fun ms0 mt0 => map (fun a : bool => map (andb a) mt0) ms0)).
  - now apply nth_error_batch_mask.
  - apply nth_error_batch_mask. now rewrite <- HB.
Qed.

Lemma n_s_le : n_s <= Ns.
Proof. now apply num_nodes_le_max. Qed.

Lemma n_t_le : n_t <= Nt.
Proof. apply num_nodes_le_max. now rewrite <- HB. Qed.

(** Entry [p] of the correspondence tensor. *)
Lemma masked_softmax_nth (S_hat : tensor3) :
  shape3 B Ns Nt S_hat ->
  nth p (masked_softmax S_hat (pair_mask ms mt)) []
  = map (fun row => softmax_row (firstn n_t row) ++ repeat fzero (Nt - n_t))
        (firstn n_s (nth p S_hat []))
    ++ repeat (repeat fzero Nt) (Ns - n_s).
Proof.
  intros HS. rewrite masked_softmax_rows.
  pose proof pair_mask_batch_shape as [HMl HM].
  rewrite (nth_map2 _ _ _ (map2 masked_softmax_row) S_hat (pair_mask ms mt)
                    p (nth p S_hat []) (nth p (pair_mask ms mt) [])).
  - rewrite nth_pair_mask.
    apply masked_softmax_pair.
    + apply n_s_le.
    + exact Hnt.
    + apply n_t_le.
    + now apply (shape3_nth _ B).
  - apply nth_error_Some_nth. destruct HS as [Hl _]. llia.
  - apply nth_error_Some_nth. llia.
Qed.

(** The correspondence block of pair [p] is the softmax of its logits. *)
Lemma masked_softmax_block (S_hat : tensor3) :
  shape3 B Ns Nt S_hat ->
  block n_s n_t p (masked_softmax S_hat (pair_mask ms mt))
  = map softmax_row (block n_s n_t p S_hat).
Proof.
  intros HS. unfold block.
  pose proof (masked_softmax_nth S_hat HS) as E.
  unfold tensor3, tensor2, vec in *. rewrite E.
  pose proof (shape3_nth _ _ _ _ _ p HS Hp) as [Hl Hr].
  pose proof n_s_le. pose proof n_t_le.
  rewrite firstn_app_exact
    by (rewrite length_map, length_firstn; llia).
  rewrite !map_map. apply map_ext_in. intros row Hin.
  apply firstn_app_exact.
  rewrite softmax_row_length, length_firstn.
  apply In_firstn_all in Hin. rewrite Forall_forall in Hr.
  rewrite (Hr row Hin). lia.
Qed.

(** On the block of pair [p] nothing is masked. *)
Lemma masked_fill_block (sc : tensor3) (z : fval) :
  shape3 B Ns Nt sc ->
  block n_s n_t p (masked_fill sc (mask_not3 (pair_mask ms mt)) z)
  = block n_s n_t p sc.
Proof.
  intros [Hl Hs].
  pose proof pair_mask_batch_shape as [HMl HM].
  change (masked_fill sc (mask_not3 (pair_mask ms mt)) z)
    with (map2 (map2 (map2 (fun x (m : bool) => if m then z else x)))
               sc (map (map (map negb)) (pair_mask ms mt))).
  rewrite block_map2 by (rewrite ?length_map; llia).
  rewrite block_map. unfold block at 2.
  pose proof nth_pair_mask as E. unfold mask3, mask2 in *. rewrite E.
  rewrite firstn_map, firstn_app_exact by now rewrite repeat_length.
  rewrite !map_repeat, map_andb_true.
  rewrite firstn_app_exact by now rewrite repeat_length.
  rewrite map_repeat. simpl negb.
  destruct (block_lengths _ n_s n_t p sc) as [Hbl Hbr].
  rewrite map2_repeat_le by exact Hbl.
  rewrite <- (map_id (block n_s n_t p sc)) at 2.
  apply map_ext_in. intros row Hin.
  rewrite Forall_forall in Hbr.
  rewrite map2_repeat_le by auto.
  apply map_id.
Qed.

End PairBlock.

(** The dense loop on one pair: [rnd t] are the random features its source
    nodes receive in pass [t]. *)
Fixpoint pair_loop {EdgeIndex EdgeAttr : Type} (self : DGMC EdgeIndex EdgeAttr)
         (edge_index_s : EdgeIndex) (edge_attr_s : EdgeAttr)
         (edge_index_t : EdgeIndex) (edge_attr_t : EdgeAttr)
         (n_t n : nat) (rnd : nat -> tensor2) (Sb : tensor2)
  : result tensor2 :=
  match n with
  | O => Ok Sb
  | S n' =>
      match pair_step self edge_index_s edge_attr_s edge_index_t edge_attr_t
                      n_t Sb (rnd 0) with
      | Ok Sb' =>
          pair_loop self edge_index_s edge_attr_s edge_index_t edge_attr_t
                    n_t n' (fun t => rnd (S t)) Sb'
      | Raise e => Raise e
      end
  end.

Lemma pair_loop_ext (EdgeIndex EdgeAttr : Type) (self : DGMC EdgeIndex EdgeAttr)
      (e_s : EdgeIndex) (a_s : EdgeAttr) (e_t : EdgeIndex) (a_t : EdgeAttr)
      (n_t n : nat) :
  forall (rnd rnd' : nat -> tensor2) (Sb : tensor2),
    (forall t, t < n -> rnd t = rnd' t) ->
    pair_loop self e_s a_s e_t a_t n_t n rnd Sb
    = pair_loop self e_s a_s e_t a_t n_t n rnd' Sb.
Proof.
  induction n as [|n IH]; intros rnd rnd' Sb H; cbn [pair_loop]; auto.
  rewrite (H 0) by lia.
  destruct (pair_step self e_s a_s e_t a_t n_t Sb (rnd' 0)); auto.
  apply IH. intros t Ht. apply H. lia.
Qed.

Lemma batch_nonempty (batch : list nat) (p : nat) :
  0 < num_nodes batch p -> batch <> [].
Proof. intros H ->. simpl in H. lia. Qed.

Lemma batch_x_shape (g : tensor2) (batch : list nat) (fill : fval) (W : nat) :
  length g = length batch -> batch <> [] ->
  Forall (fun row : vec => length row = W) g ->
  shape3 (num_graphs batch) (max_num_nodes batch) W (batch_x g batch fill).
Proof.
  intros Hlen Hne Hrows. split; [apply batch_x_size0|].
  pose proof (batch_x_rows_length g batch fill Hlen) as Hm.
  assert (HW : size_last g = W).
  { destruct g as [|r g]; [destruct batch; simpl in *; congruence|].
    simpl. now inversion Hrows. }
  rewrite Forall_forall in *. intros m Hin. split; [auto|].
  unfold batch_x in Hin. apply in_map_iff in Hin.
  destruct Hin as (b & <- & _).
  apply Forall_app. split.
  - apply select_Forall. now apply Forall_forall.
  - apply Forall_forall. intros row Hrow. apply repeat_spec in Hrow.
    subst row. now rewrite repeat_length.
Qed.

(** What a dense call that returns has computed. *)
Lemma forward_fill_dense (EdgeIndex EdgeAttr : Type)
      (draws : nat -> nat * nat * nat -> tensor3)
      (self : DGMC EdgeIndex EdgeAttr)
      (edge_index_s : EdgeIndex) (edge_attr_s : EdgeAttr)
      (edge_index_t : EdgeIndex) (edge_attr_t : EdgeAttr)
      (fill_s fill_t : fval)
      (x_s : tensor2) (batch_s : list nat)
      (x_t : tensor2) (batch_t : list nat) (gen g : nat)
      (S_0 S_L : tensor3) :
  (k self < 1)%Z ->
  length (gnn_apply (psi_1 self) x_s edge_index_s edge_attr_s)
  = length batch_s ->
  batch_s <> [] ->
  forward_fill draws self edge_index_s edge_attr_s edge_index_t edge_attr_t
               fill_s fill_t x_s batch_s x_t batch_t gen
  = Ok (Dense S_0 S_L, g) ->
  exists S_hat,
    dense_loop draws self edge_index_s edge_attr_s edge_index_t edge_attr_t
               (Z.to_nat (num_steps self))
               (batch_mask batch_s) (batch_mask batch_t)
               (pair_mask (batch_mask batch_s) (batch_mask batch_t))
               (num_graphs batch_s, max_num_nodes batch_s,
                in_channels (psi_2 self))
               (similarity
                  (batch_x (gnn_apply (psi_1 self) x_s edge_index_s edge_attr_s)
                           batch_s fill_s)
                  (batch_x (gnn_apply (psi_1 self) x_t edge_index_t edge_attr_t)
                           batch_t fill_t), gen)
    = Ok (S_hat, g)
    /\ S_0 = masked_softmax
               (similarity
                  (batch_x (gnn_apply (psi_1 self) x_s edge_index_s edge_attr_s)
                           batch_s fill_s)
                  (batch_x (gnn_apply (psi_1 self) x_t edge_index_t edge_attr_t)
                           batch_t fill_t))
               (pair_mask (batch_mask batch_s) (batch_mask batch_t))
    /\ S_L = masked_softmax S_hat
               (pair_mask (batch_mask batch_s) (batch_mask batch_t)).
Proof.
  intros Hk Hl Hne H.
  unfold forward_fill, to_dense_batch, tensor_detach in H.
  rewrite (proj2 (Z.ltb_lt _ _) Hk) in H.
  assert (H' :
    (st <- dense_loop draws self edge_index_s edge_attr_s
                      edge_index_t edge_attr_t
                      (Z.to_nat (num_steps self))
                      (batch_mask batch_s) (batch_mask batch_t)
                      (pair_mask (batch_mask batch_s) (batch_mask batch_t))
                      (num_graphs batch_s, max_num_nodes batch_s,
                       in_channels (psi_2 self))
                      (similarity
                         (batch_x (gnn_apply (psi_1 self) x_s
                                             edge_index_s edge_attr_s)
                                  batch_s fill_s)
                         (batch_x (gnn_apply (psi_1 self) x_t
                                             edge_index_t edge_attr_t)
                                  batch_t fill_t), gen) ;;
     let (S_hat, gen0) := (st : tensor3 * nat) in
     Ok (Dense (masked_softmax
                  (similarity
                     (batch_x (gnn_apply (psi_1 self) x_s
                                         edge_index_s edge_attr_s)
                              batch_s fill_s)
                     (batch_x (gnn_apply (psi_1 self) x_t
                                         edge_index_t edge_attr_t)
                              batch_t fill_t))
                  (pair_mask (batch_mask batch_s) (batch_mask batch_t)))
               (masked_softmax S_hat
                  (pair_mask (batch_mask batch_s) (batch_mask batch_t))),
         gen0))
    = Ok (Dense S_0 S_L, g)).
  { rewrite <- H. unfold size0, size1.
    destruct (detach self); cbv beta iota zeta;
      rewrite batch_x_size0, (batch_x_size1 _ batch_s fill_s Hl Hne);
      reflexivity. }
  clear H.
  match type of H' with
  | bind ?r _ = _ => destruct r as [[S_hat g0]|] eqn:E
  end; cbn [bind] in H'; [|discriminate H'].
  injection H' as <- <- <-. exists S_hat. auto.
Qed.

(** Re-embedding: the rows [psi_2] returns for graph [p], read back from
    the padded tensor, are those it returns on the graph alone. *)
Lemma reembed_block (EdgeIndex EdgeAttr : Type) (psi : GNN EdgeIndex EdgeAttr)
      (e : EdgeIndex) (a : EdgeAttr) (pe : EdgeIndex) (pa : EdgeAttr)
      (batch : list nat) (p C : nat) (r d : tensor3) :
  sorted_batch batch -> p < num_graphs batch ->
  (forall r0 e0 a0, length (gnn_apply psi r0 e0 a0) = length r0) ->
  (forall r0, length r0 = length batch ->
              gnn_apply psi (nodes_of r0 batch p) pe pa
              = nodes_of (gnn_apply psi r0 e a) batch p) ->
  shape3 (num_graphs batch) (max_num_nodes batch) C r ->
  to_dense (gnn_apply psi (to_sparse r (batch_mask batch)) e a)
           (batch_mask batch) = Some d ->
  shape2 (num_graphs batch) (max_num_nodes batch) d
  /\ firstn (num_nodes batch p) (nth p d [])
     = gnn_apply psi (firstn (num_nodes batch p) (nth p r [])) pe pa.
Proof.
  intros Hsort Hp Hrow Hloc Hr Hd.
  assert (Hlen : length (to_sparse r (batch_mask batch)) = length batch).
  { rewrite (to_sparse_length r (batch_mask batch) _ _ _ Hr
                              (batch_mask_shape batch)).
    now apply count_true2_batch_mask. }
  destruct (to_dense_block _ batch p d Hsort
                           (eq_trans (Hrow _ e a) Hlen) Hp Hd) as [Hsh Hblk].
  split; [exact Hsh|].
  rewrite Hblk, <- (Hloc _ Hlen).
  f_equal. destruct Hr as [Hl Hrows].
  apply nodes_of_to_sparse; auto.
  apply Forall_forall. intros m Hm. rewrite Forall_forall in Hrows.
  now destruct (Hrows m Hm).
Qed.

Section PairRun.
Variables EdgeIndex EdgeAttr : Type.
Variable draws : nat -> nat * nat * nat -> tensor3.
Variable self : DGMC EdgeIndex EdgeAttr.
Variables (edge_index_s : EdgeIndex) (edge_attr_s : EdgeAttr).
Variables (edge_index_t : EdgeIndex) (edge_attr_t : EdgeAttr).
Variables (pair_index_s : EdgeIndex) (pair_attr_s : EdgeAttr).
Variables (pair_index_t : EdgeIndex) (pair_attr_t : EdgeAttr).
Variables batch_s batch_t : list nat.
Variable p : nat.

Local Abbreviation B := (num_graphs batch_s).
Local Abbreviation Ns := (max_num_nodes batch_s).
Local Abbreviation Nt := (max_num_nodes batch_t).
Local Abbreviation n_s := (num_nodes batch_s p).
Local Abbreviation n_t := (num_nodes batch_t p).
Local Abbreviation ms := (batch_mask batch_s).
Local Abbreviation mt := (batch_mask batch_t).
Local Abbreviation C := (in_channels (psi_2 self)).

Hypothesis Hsort_s : sorted_batch batch_s.
Hypothesis Hsort_t : sorted_batch batch_t.
Hypothesis HB : num_graphs batch_s = num_graphs batch_t.
Hypothesis Hp : p < num_graphs batch_s.
Hypothesis Hns : 0 < num_nodes batch_s p.
Hypothesis Hnt : 0 < num_nodes batch_t p.

(** [psi_2] returns one row per node, and the rows of graph [p] are those
    it returns on graph [p] alone. *)
Hypothesis Hrow2 :
  forall r e a, length (gnn_apply (psi_2 self) r e a) = length r.
Hypothesis Hloc_s :
  forall r, length r = length batch_s ->
            gnn_apply (psi_2 self) (nodes_of r batch_s p)
                      pair_index_s pair_attr_s
            = nodes_of (gnn_apply (psi_2 self) r edge_index_s edge_attr_s)
                       batch_s p.
Hypothesis Hloc_t :
  forall r, length r = length batch_t ->
            gnn_apply (psi_2 self) (nodes_of r batch_t p)
                      pair_index_t pair_attr_t
            = nodes_of (gnn_apply (psi_2 self) r edge_index_t edge_attr_t)
                       batch_t p.

(** The random features have the requested shape and are finite. *)
Hypothesis Hdraws :
  forall n b m c, shape3 b m c (draws n (b, m, c))
                  /\ fin3 (draws n (b, m, c)).

Lemma transport_block (S_hat r_s : tensor3) :
  shape3 B Ns Nt S_hat -> shape3 B Ns C r_s -> fin3 r_s ->
  firstn n_t
         (nth p (transport (masked_softmax S_hat (pair_mask ms mt)) r_s) [])
  = matmul C (transpose n_t (map softmax_row (block n_s n_t p S_hat)))
           (firstn n_s (nth p r_s [])).
Proof.
  intros HS Hr Hfin.
  pose proof (n_s_le batch_s p Hp) as Hles.
  pose proof (n_t_le batch_s batch_t p HB Hp) as Hlet.
  assert (HSs : shape3 B Ns Nt (masked_softmax S_hat (pair_mask ms mt))).
  { apply masked_softmax_shape; auto.
    now apply pair_mask_batch_shape. }
  unfold transport.
  rewrite (size2_shape _ _ _ _ _ HSs), (size2_shape _ _ _ _ _ Hr) by lia.
  rewrite (nth_map2 _ _ _
             (fun s r => matmul C (transpose Nt s) r)
             (masked_softmax S_hat (pair_mask ms mt)) r_s p
             (nth p (masked_softmax S_hat (pair_mask ms mt)) [])
             (nth p r_s [])).
  2:{ apply nth_error_Some_nth. destruct HSs as [Hl _]. llia. }
  2:{ apply nth_error_Some_nth. destruct Hr as [Hl _]. llia. }
  rewrite (masked_softmax_nth batch_s batch_t p HB Hp Hnt S_hat HS).
  destruct (shape3_nth _ _ _ _ _ p HS Hp) as [HXl HXr].
  destruct (shape3_nth _ _ _ _ _ p Hr Hp) as [Hrl Hrr].
  assert (Hlen : length (firstn n_s (nth p S_hat [])) = n_s).
  { rewrite length_firstn. llia. }
  pose proof (transport_pair (firstn n_s (nth p S_hat [])) (nth p r_s [])
                             n_t Nt C (Ns - n_s) Hlet) as E.
  rewrite Hlen in E. unfold block. apply E.
  - apply Forall_forall. intros row Hin. apply In_firstn_all in Hin.
    rewrite Forall_forall in HXr. rewrite (HXr row Hin). exact Hlet.
  - llia.
  - unfold fin3 in Hfin. rewrite Forall_forall in Hfin. apply Hfin.
    apply nth_In. destruct Hr as [Hl _]. llia.
Qed.

(** One pass of the loop on a batch restricts to one pass on pair [p]. *)
Lemma dense_step_block (S_hat : tensor3) (gen : nat)
      (S_hat' : tensor3) (gen' : nat) :
  shape3 B Ns Nt S_hat ->
  dense_step draws self edge_index_s edge_attr_s edge_index_t edge_attr_t
             ms mt (pair_mask ms mt) (B, Ns, C) (S_hat, gen)
  = Ok (S_hat', gen') ->
  shape3 B Ns Nt S_hat' /\ gen' = S gen
  /\ pair_step self pair_index_s pair_attr_s pair_index_t pair_attr_t n_t
               (block n_s n_t p S_hat)
               (firstn n_s (nth p (draws gen (B, Ns, C)) []))
     = Ok (block n_s n_t p S_hat').
Proof.
  intros HS H. unfold dense_step, randn in H.
  destruct (Hdraws gen B Ns C) as [Hrs Hrf].
  pose proof (n_s_le batch_s p Hp) as Hles.
  pose proof (pair_mask_batch_shape batch_s batch_t HB) as HM.
  assert (HSs : shape3 B Ns Nt (masked_softmax S_hat (pair_mask ms mt)))
    by (apply masked_softmax_shape; auto).
  assert (HB0 : 0 < B) by lia.
  assert (HN0 : 0 < Ns) by lia.
  pose proof (transport_shape _ _ _ _ _ _ HSs Hrs HB0 HN0) as Hrt.
  destruct (to_dense (gnn_apply (psi_2 self)
                                (to_sparse (draws gen (B, Ns, C)) ms)
                                edge_index_s edge_attr_s) ms)
    as [o_s|] eqn:Eos; [|discriminate H].
  destruct (to_dense (gnn_apply (psi_2 self)
                                (to_sparse
                                   (transport
                                      (masked_softmax S_hat (pair_mask ms mt))
                                      (draws gen (B, Ns, C))) mt)
                                edge_index_t edge_attr_t) mt)
    as [o_t|] eqn:Eot; [|discriminate H].
  cbn [of_option bind] in H.
  destruct (score (mlp self) (pairwise_diff o_s o_t)) as [sc|] eqn:Esc;
    [|discriminate H].
  cbn [bind] in H. injection H as <- <-.
  destruct (reembed_block _ _ _ _ _ pair_index_s pair_attr_s batch_s p C _ _
                          Hsort_s Hp Hrow2 Hloc_s Hrs Eos) as [Hos_sh Hos].
  assert (Hp_t : p < num_graphs batch_t) by now rewrite <- HB.
  assert (Hrt' : shape3 (num_graphs batch_t) Nt C
                        (transport (masked_softmax S_hat (pair_mask ms mt))
                                   (draws gen (B, Ns, C))))
    by (rewrite <- HB; exact Hrt).
  destruct (reembed_block _ _ _ _ _ pair_index_t pair_attr_t batch_t p C _ _
                          Hsort_t Hp_t Hrow2 Hloc_t Hrt' Eot) as [Hot_sh Hot].
  rewrite <- HB in Hot_sh.
  pose proof (score_shape _ _ _ _ _ _ _ Hos_sh Hot_sh Esc) as Hsc.
  split; [|split; [reflexivity|]].
  - unfold tensor_add. apply shape3_map2; auto.
    change (masked_fill sc (mask_not3 (pair_mask ms mt)) fzero)
      with (map2 (map2 (map2 (fun x (m : bool) => if m then fzero else x)))
                 sc (map (map (map negb)) (pair_mask ms mt))).
    apply shape3_map2; auto. now apply shape3_map.
  - unfold pair_step, pair_scores.
    rewrite (transport_block S_hat (draws gen (B, Ns, C)) HS Hrs Hrf) in Hot.
    rewrite <- Hos, <- Hot.
    destruct Hos_sh as [Hlos _], Hot_sh as [Hlot _].
    rewrite (score_pair (mlp self) o_s o_t sc n_s n_t p
                        (nth p o_s []) (nth p o_t []) Esc)
      by (apply nth_error_Some_nth; llia).
    f_equal. unfold tensor_add.
    destruct HS as [HlS _], Hsc as [Hlsc Hsc'].
    rewrite block_map2.
    + f_equal. symmetry.
      apply (masked_fill_block batch_s batch_t p HB Hp Hnt).
      split; auto.
    + llia.
    + unfold masked_fill, mask_not3.
      rewrite map2_length, length_map. destruct HM as [HlM _]. llia.
Qed.

Lemma dense_loop_block (n : nat) :
  forall (S_hat : tensor3) (gen : nat) (S_hat' : tensor3) (gen' : nat),
    shape3 B Ns Nt S_hat ->
    dense_loop draws self edge_index_s edge_attr_s edge_index_t edge_attr_t
               n ms mt (pair_mask ms mt) (B, Ns, C) (S_hat, gen)
    = Ok (S_hat', gen') ->
    shape3 B Ns Nt S_hat'
    /\ pair_loop self pair_index_s pair_attr_s pair_index_t pair_attr_t
                 n_t n
                 (fun t => firstn n_s (nth p (draws (gen + t) (B, Ns, C)) []))
                 (block n_s n_t p S_hat)
       = Ok (block n_s n_t p S_hat').
Proof.
  induction n as [|n IH]; intros S_hat gen S_hat' gen' HS H.
  - cbn in H. injection H as <- <-. split; auto.
  - cbn [dense_loop] in H.
    destruct (dense_step draws self edge_index_s edge_attr_s
                         edge_index_t edge_attr_t ms mt (pair_mask ms mt)
                         (B, Ns, C) (S_hat, gen)) as [[S1 g1]|] eqn:E1;
      cbn [bind] in H; [|discriminate H].
    destruct (dense_step_block _ _ _ _ HS E1) as (HS1 & -> & Hstep).
    destruct (IH _ _ _ _ HS1 H) as [HS' Hloop].
    split; auto.
    cbn [pair_loop]. rewrite Nat.add_0_r, Hstep, <- Hloop.
    apply pair_loop_ext. intros t _.
    replace (gen + S t) with (S gen + t) by lia. reflexivity.
Qed.

(** The first logits of pair [p]. *)
Lemma similarity_block (hs ht : tensor2) (fill_s fill_t : fval) (W : nat) :
  length hs = length batch_s -> length ht = length batch_t ->
  Forall (fun row : vec => length row = W) ht ->
  shape3 B Ns Nt (similarity (batch_x hs batch_s fill_s)
                             (batch_x ht batch_t fill_t))
  /\ block n_s n_t p (similarity (batch_x hs batch_s fill_s)
                                 (batch_x ht batch_t fill_t))
     = pair_similarity W n_t (nodes_of hs batch_s p) (nodes_of ht batch_t p).
Proof.
  intros Hls Hlt HW.
  pose proof (batch_nonempty _ _ Hnt) as Hne_t.
  pose proof (n_t_le batch_s batch_t p HB Hp) as Hlet.
  assert (Hp_t : p < num_graphs batch_t) by now rewrite <- HB.
  pose proof (batch_x_shape ht batch_t fill_t W Hlt Hne_t HW) as Hsh.
  unfold similarity, size1.
  rewrite (batch_x_size1 ht batch_t fill_t Hlt Hne_t).
  rewrite (size2_shape _ _ _ _ _ Hsh) by lia.
  split.
  - split.
    + rewrite map2_length, !batch_x_size0. lia.
    + apply Forall_map2 with (P := fun m : tensor2 => length m = Ns)
                             (Q := fun _ : tensor2 => True).
      * intros a c Ha _. rewrite <- Ha. apply matmul_shape.
      * now apply batch_x_rows_length.
      * apply Forall_True.
  - unfold block.
    pose proof (nth_map2 _ _ _
                  (fun a b => matmul Nt a (transpose W b))
                  (batch_x hs batch_s fill_s) (batch_x ht batch_t fill_t) p
                  _ _ [] (nth_error_batch_x hs batch_s fill_s p Hp)
                  (nth_error_batch_x ht batch_t fill_t p Hp_t)) as E.
    pose proof (matmul_pair W n_t Nt (nodes_of hs batch_s p)
                  (repeat (repeat fill_s (size_last hs)) (Ns - n_s))
                  (nodes_of ht batch_t p)
                  (repeat (repeat fill_t (size_last ht)) (Nt - n_t))
                  (nodes_of_length _ ht batch_t p Hlt) Hlet) as E'.
    rewrite (nodes_of_length _ hs batch_s p Hls) in E'.
    unfold tensor3, tensor2, vec in *. rewrite E. exact E'.
Qed.

(** A dense call on the batch, restricted to pair [p]. *)
Lemma forward_block (fill_s fill_t : fval) (x_s x_t : tensor2) (W : nat)
      (gen g : nat) (S_0 S_L : tensor3) :
  (k self < 1)%Z ->
  length (gnn_apply (psi_1 self) x_s edge_index_s edge_attr_s)
  = length batch_s ->
  length (gnn_apply (psi_1 self) x_t edge_index_t edge_attr_t)
  = length batch_t ->
  Forall (fun row : vec => length row = W)
         (gnn_apply (psi_1 self) x_t edge_index_t edge_attr_t) ->
  forward_fill draws self edge_index_s edge_attr_s edge_index_t edge_attr_t
               fill_s fill_t x_s batch_s x_t batch_t gen
  = Ok (Dense S_0 S_L, g) ->
  shape3 B Ns Nt S_0 /\ shape3 B Ns Nt S_L
  /\ block n_s n_t p S_0
     = map softmax_row
           (pair_similarity W n_t
              (nodes_of (gnn_apply (psi_1 self) x_s edge_index_s edge_attr_s)
                        batch_s p)
              (nodes_of (gnn_apply (psi_1 self) x_t edge_index_t edge_attr_t)
                        batch_t p))
  /\ exists Sb,
      pair_loop self pair_index_s pair_attr_s pair_index_t pair_attr_t
                n_t (Z.to_nat (num_steps self))
                (fun t => firstn n_s (nth p (draws (gen + t) (B, Ns, C)) []))
                (pair_similarity W n_t
                   (nodes_of (gnn_apply (psi_1 self) x_s
                                        edge_index_s edge_attr_s) batch_s p)
                   (nodes_of (gnn_apply (psi_1 self) x_t
                                        edge_index_t edge_attr_t) batch_t p))
      = Ok Sb
      /\ block n_s n_t p S_L = map softmax_row Sb.
Proof.
  intros Hk Hls Hlt HW H.
  pose proof (batch_nonempty _ _ Hns) as Hne_s.
  destruct (forward_fill_dense _ _ _ _ _ _ _ _ _ _ _ _ _ _ _ _ _ _
                               Hk Hls Hne_s H) as (S_hat & Hloop & -> & ->).
  destruct (similarity_block _ _ fill_s fill_t W Hls Hlt HW) as [Hsh Hblk].
  destruct (dense_loop_block _ _ _ _ _ Hsh Hloop) as [Hsh' Hpl].
  pose proof (pair_mask_batch_shape batch_s batch_t HB) as HM.
  split; [now apply masked_softmax_shape|].
  split; [now apply masked_softmax_shape|].
  split.
  - rewrite (masked_softmax_block batch_s batch_t p HB Hp Hnt _ Hsh).
    now rewrite Hblk.
  - exists (block n_s n_t p S_hat). split.
    + now rewrite <- Hblk.
    + apply (masked_softmax_block batch_s batch_t p HB Hp Hnt _ Hsh').
Qed.

End PairRun.

(** ** Masking isolation: a pair on its own *)

Lemma list_max_repeat0 (n : nat) : list_max (repeat 0 n) = 0.
Proof. induction n as [|n IH]; simpl; auto. Qed.

Lemma num_graphs_repeat0 (n : nat) : 0 < n -> num_graphs (repeat 0 n) = 1.
Proof.
  intros H. destruct n as [|n]; [lia|].
  unfold num_graphs. cbn [repeat].
  change (0 :: repeat 0 n) with (repeat 0 (S n)).
  now rewrite list_max_repeat0.
Qed.

Lemma num_nodes_repeat0 (n : nat) : num_nodes (repeat 0 n) 0 = n.
Proof.
  unfold num_nodes. induction n as [|n IH]; simpl; auto.
Qed.

Lemma max_num_nodes_repeat0 (n : nat) :
  0 < n -> max_num_nodes (repeat 0 n) = n.
Proof.
  intros H. unfold max_num_nodes. rewrite (num_graphs_repeat0 n H).
  cbn [seq map list_max fold_right]. rewrite num_nodes_repeat0. lia.
Qed.

Lemma sorted_repeat0 (n : nat) : 0 < n -> sorted_batch (repeat 0 n).
Proof.
  intros H. unfold sorted_batch. rewrite (num_graphs_repeat0 n H).
  cbn [seq map concat]. now rewrite num_nodes_repeat0, app_nil_r.
Qed.

Lemma nodes_of_repeat0 (A : Type) (x : list A) (n : nat) :
  length x = n -> nodes_of x (repeat 0 n) 0 = x.
Proof.
  intros <-. unfold nodes_of. now rewrite select_eqb_repeat.
Qed.

Lemma num_nodes_pos_lt (batch : list nat) (p : nat) :
  0 < num_nodes batch p -> p < num_graphs batch.
Proof.
  intros H. unfold num_nodes in H.
  apply (count_occ_In Nat.eq_dec) in H.
  unfold num_graphs. destruct batch as [|b batch]; [contradiction|].
  assert (Hmax : Forall (fun k => k <= list_max (b :: batch)) (b :: batch))
    by now apply list_max_le.
  rewrite Forall_forall in Hmax. specialize (Hmax p H). lia.
Qed.

Lemma shape3_single (A : Type) (n m : nat) (x : list (list (list A))) :
  shape3 1 n m x -> x = [block n m 0 x].
Proof.
  intros [Hl Hx]. destruct x as [|m0 [|m1 x]]; simpl in Hl; try discriminate.
  inversion Hx as [|? ? [Hn Hm] _]; subst.
  unfold block. simpl nth. rewrite firstn_all. f_equal.
  rewrite <- (map_id m0) at 1. apply map_ext_in. intros r Hr.
  rewrite Forall_forall in Hm. rewrite <- (Hm r Hr). now rewrite firstn_all.
Qed.

(** A dense call on one pair without padding. *)
Lemma forward_alone (EdgeIndex EdgeAttr : Type)
      (draws : nat -> nat * nat * nat -> tensor3)
      (self : DGMC EdgeIndex EdgeAttr)
      (pair_index_s : EdgeIndex) (pair_attr_s : EdgeAttr)
      (pair_index_t : EdgeIndex) (pair_attr_t : EdgeAttr)
      (fill_s fill_t : fval) (x_s x_t : tensor2) (n_s n_t W gen g : nat)
      (S_0 S_L : tensor3) :
  (k self < 1)%Z -> 0 < n_s -> 0 < n_t ->
  (forall r e a, length (gnn_apply (psi_2 self) r e a) = length r) ->
  (forall n b m c, shape3 b m c (draws n (b, m, c))
                   /\ fin3 (draws n (b, m, c))) ->
  length (gnn_apply (psi_1 self) x_s pair_index_s pair_attr_s) = n_s ->
  length (gnn_apply (psi_1 self) x_t pair_index_t pair_attr_t) = n_t ->
  Forall (fun row : vec => length row = W)
         (gnn_apply (psi_1 self) x_t pair_index_t pair_attr_t) ->
  forward_fill draws self pair_index_s pair_attr_s pair_index_t pair_attr_t
               fill_s fill_t x_s (repeat 0 n_s) x_t (repeat 0 n_t) gen
  = Ok (Dense S_0 S_L, g) ->
  S_0 = [map softmax_row
             (pair_similarity W n_t
                (gnn_apply (psi_1 self) x_s pair_index_s pair_attr_s)
                (gnn_apply (psi_1 self) x_t pair_index_t pair_attr_t))]
  /\ exists Sb,
      pair_loop self pair_index_s pair_attr_s pair_index_t pair_attr_t
                n_t (Z.to_nat (num_steps self))
                (fun t => nth 0 (draws (gen + t)
                                       (1, n_s, in_channels (psi_2 self)))
                              [])
                (pair_similarity W n_t
                   (gnn_apply (psi_1 self) x_s pair_index_s pair_attr_s)
                   (gnn_apply (psi_1 self) x_t pair_index_t pair_attr_t))
      = Ok Sb
      /\ S_L = [map softmax_row Sb].
Proof.
  intros Hk Hns Hnt Hrow2 Hdraws Hls Hlt HW H.
  assert (HB : num_graphs (repeat 0 n_s) = num_graphs (repeat 0 n_t))
    by now rewrite !num_graphs_repeat0.
  assert (Hp : 0 < num_graphs (repeat 0 n_s))
    by (rewrite num_graphs_repeat0; lia).
  assert (Hns' : 0 < num_nodes (repeat 0 n_s) 0)
    by now rewrite num_nodes_repeat0.
  assert (Hnt' : 0 < num_nodes (repeat 0 n_t) 0)
    by now rewrite num_nodes_repeat0.
  assert (Hloc : forall (n : nat) (e : EdgeIndex) (a : EdgeAttr) (r : tensor2),
             length r = length (repeat 0 n) ->
             gnn_apply (psi_2 self) (nodes_of r (repeat 0 n) 0) e a
             = nodes_of (gnn_apply (psi_2 self) r e a) (repeat 0 n) 0).
  { intros n e a r Hr. rewrite repeat_length in Hr.
    rewrite !nodes_of_repeat0; auto. now rewrite Hrow2. }
  destruct (forward_block
              EdgeIndex EdgeAttr draws self
              pair_index_s pair_attr_s pair_index_t pair_attr_t
              pair_index_s pair_attr_s pair_index_t pair_attr_t
              (repeat 0 n_s) (repeat 0 n_t) 0
              (sorted_repeat0 n_s Hns) (sorted_repeat0 n_t Hnt)
              HB Hp Hns' Hnt' Hrow2
              (Hloc n_s pair_index_s pair_attr_s)
              (Hloc n_t pair_index_t pair_attr_t)
              Hdraws fill_s fill_t x_s x_t W gen g S_0 S_L Hk
              (eq_trans Hls (eq_sym (repeat_length 0 n_s)))
              (eq_trans Hlt (eq_sym (repeat_length 0 n_t)))
              HW H)
    as (Hsh0 & HshL & H0 & Sb & Hloop & HL).
  rewrite !num_nodes_repeat0 in *.
  rewrite (num_graphs_repeat0 n_s Hns) in *.
  rewrite (max_num_nodes_repeat0 n_s Hns) in *.
  rewrite (max_num_nodes_repeat0 n_t Hnt) in *.
  rewrite !nodes_of_repeat0 in * by assumption.
  split.
  - rewrite (shape3_single _ _ _ _ Hsh0). now rewrite H0.
  - exists Sb. split.
    + rewrite <- Hloop. apply pair_loop_ext. intros t _.
      destruct (Hdraws (gen + t) 1 n_s (in_channels (psi_2 self)))
        as [Hd _].
      destruct (shape3_nth _ _ _ _ _ 0 Hd Nat.lt_0_1) as [Hl _].
      rewrite <- Hl at 2. now rewrite firstn_all.
    + rewrite (shape3_single _ _ _ _ HshL). now rewrite HL.
Qed.

(** C8, amended.  Masking isolation of the dense path.  Take a sorted batch
    of graph pairs, any two fill values for the padding, and a pair [p]
    whose two graphs have at least one node.  Assume both embedding
    functions are local: on the nodes and connectivity of pair [p] alone
    they return the rows they return for these nodes in the batch, and
    [psi_2] returns one row per node.  Assume the random features are finite
    and of the requested shape, and that in every pass the source nodes of
    pair [p] receive the same random features in the batch and alone.  Then,
    when the call on the batch and the call on pair [p] alone both return,
    the [S_0] and [S_L] of the call on the pair alone are the blocks of
    pair [p] in the [S_0] and [S_L] of the batch: its valid rows, cut to
    the valid target columns. *)
Theorem masking_isolation
        (EdgeIndex EdgeAttr : Type) (draws : nat -> nat * nat * nat -> tensor3)
        (self : DGMC EdgeIndex EdgeAttr)
        (edge_index_s : EdgeIndex) (edge_attr_s : EdgeAttr)
        (edge_index_t : EdgeIndex) (edge_attr_t : EdgeAttr)
        (pair_index_s : EdgeIndex) (pair_attr_s : EdgeAttr)
        (pair_index_t : EdgeIndex) (pair_attr_t : EdgeAttr)
        (fill_s fill_t : fval)
        (x_s : tensor2) (batch_s : list nat)
        (x_t : tensor2) (batch_t : list nat)
        (p W gen gen1 g g1 : nat) (S_0 S_L S_0' S_L' : tensor3) :
  (k self < 1)%Z ->
  sorted_batch batch_s -> sorted_batch batch_t ->
  num_graphs batch_s = num_graphs batch_t ->
  0 < num_nodes batch_s p -> 0 < num_nodes batch_t p ->
  length (gnn_apply (psi_1 self) x_s edge_index_s edge_attr_s)
  = length batch_s ->
  length (gnn_apply (psi_1 self) x_t edge_index_t edge_attr_t)
  = length batch_t ->
  Forall (fun row : vec => length row = W)
         (gnn_apply (psi_1 self) x_t edge_index_t edge_attr_t) ->
  gnn_apply (psi_1 self) (nodes_of x_s batch_s p) pair_index_s pair_attr_s
  = nodes_of (gnn_apply (psi_1 self) x_s edge_index_s edge_attr_s)
             batch_s p ->
  gnn_apply (psi_1 self) (nodes_of x_t batch_t p) pair_index_t pair_attr_t
  = nodes_of (gnn_apply (psi_1 self) x_t edge_index_t edge_attr_t)
             batch_t p ->
  (forall r e a, length (gnn_apply (psi_2 self) r e a) = length r) ->
  (forall r, length r = length batch_s ->
             gnn_apply (psi_2 self) (nodes_of r batch_s p)
                       pair_index_s pair_attr_s
             = nodes_of (gnn_apply (psi_2 self) r edge_index_s edge_attr_s)
                        batch_s p) ->
  (forall r, length r = length batch_t ->
             gnn_apply (psi_2 self) (nodes_of r batch_t p)
                       pair_index_t pair_attr_t
             = nodes_of (gnn_apply (psi_2 self) r edge_index_t edge_attr_t)
                        batch_t p) ->
  (forall n b m c, shape3 b m c (draws n (b, m, c))
                   /\ fin3 (draws n (b, m, c))) ->
  (forall t, t < Z.to_nat (num_steps self) ->
             nth 0 (draws (gen1 + t)
                          (1, num_nodes batch_s p, in_channels (psi_2 self)))
                 []
             = firstn (num_nodes batch_s p)
                      (nth p (draws (gen + t)
                                    (num_graphs batch_s,
                                     max_num_nodes batch_s,
                                     in_channels (psi_2 self)))
                           [])) ->
  forward_fill draws self edge_index_s edge_attr_s edge_index_t edge_attr_t
               fill_s fill_t x_s batch_s x_t batch_t gen
  = Ok (Dense S_0 S_L, g) ->
  forward draws self pair_index_s pair_attr_s pair_index_t pair_attr_t
          (nodes_of x_s batch_s p) (repeat 0 (num_nodes batch_s p))
          (nodes_of x_t batch_t p) (repeat 0 (num_nodes batch_t p)) gen1
  = Ok (Dense S_0' S_L', g1) ->
  S_0' = [block (num_nodes batch_s p) (num_nodes batch_t p) p S_0]
  /\ S_L' = [block (num_nodes batch_s p) (num_nodes batch_t p) p S_L].
Proof.
  intros Hk Hsort_s Hsort_t HB Hns Hnt Hls Hlt HW Hloc1_s Hloc1_t
         Hrow2 Hloc_s Hloc_t Hdraws Hrnd Hbatch Halone.
  pose proof (num_nodes_pos_lt batch_s p Hns) as Hp.
  destruct (forward_block
              EdgeIndex EdgeAttr draws self
              edge_index_s edge_attr_s edge_index_t edge_attr_t
              pair_index_s pair_attr_s pair_index_t pair_attr_t
              batch_s batch_t p Hsort_s Hsort_t HB Hp Hns Hnt
              Hrow2 Hloc_s Hloc_t Hdraws fill_s fill_t x_s x_t W gen g
              S_0 S_L Hk Hls Hlt HW Hbatch)
    as (_ & _ & HR0 & SbR & HplR & HRL).
  unfold forward in Halone.
  assert (Hls' : length (gnn_apply (psi_1 self) (nodes_of x_s batch_s p)
                                   pair_index_s pair_attr_s)
                 = num_nodes batch_s p).
  { rewrite Hloc1_s. now apply nodes_of_length. }
  assert (Hlt' : length (gnn_apply (psi_1 self) (nodes_of x_t batch_t p)
                                   pair_index_t pair_attr_t)
                 = num_nodes batch_t p).
  { rewrite Hloc1_t. now apply nodes_of_length. }
  assert (HW' : Forall (fun row : vec => length row = W)
                       (gnn_apply (psi_1 self) (nodes_of x_t batch_t p)
                                  pair_index_t pair_attr_t)).
  { rewrite Hloc1_t. now apply select_Forall. }
  destruct (forward_alone
              EdgeIndex EdgeAttr draws self
              pair_index_s pair_attr_s pair_index_t pair_attr_t
              PInf NInf (nodes_of x_s batch_s p) (nodes_of x_t batch_t p)
              (num_nodes batch_s p) (num_nodes batch_t p) W gen1 g1
              S_0' S_L' Hk Hns Hnt Hrow2 Hdraws Hls' Hlt' HW' Halone)
    as (HA0 & SbA & HplA & HAL).
  rewrite Hloc1_s, Hloc1_t in HA0, HplA.
  split.
  - now rewrite HR0.
  - rewrite (pair_loop_ext _ _ self pair_index_s pair_attr_s
                           pair_index_t pair_attr_t
                           (num_nodes batch_t p) (Z.to_nat (num_steps self))
                           _ _ _ Hrnd) in HplA.
    rewrite HplR in HplA. injection HplA as <-.
    now rewrite HRL.
Qed.

Lemma masking_isolation_witness :
  exists S_0 S_L g S_0' S_L' g1,
    forward_fill Tiny.draws0 (Tiny.model 1 (-1)) tt tt tt tt (Fin 7) NaN
                 [[Fin 1]; [Fin 2]; [Fin 3]] [0; 1; 1]
                 [[Fin 1]; [Fin 2]; [Fin 3]] [0; 0; 1] 0
    = Ok (Dense S_0 S_L, g)
    /\ forward Tiny.draws0 (Tiny.model 1 (-1)) tt tt tt tt
               [[Fin 2]; [Fin 3]] [0; 0] [[Fin 3]] [0] 5
       = Ok (Dense S_0' S_L', g1)
    /\ S_0' = [block 2 1 1 S_0] /\ S_L' = [block 2 1 1 S_L].
Proof.
  do 6 eexists.
  split; [reflexivity|]. split; [reflexivity|].
  apply (masking_isolation
           unit unit Tiny.draws0 (Tiny.model 1 (-1)) tt tt tt tt tt tt tt tt
           (Fin 7) NaN
           [[Fin 1]; [Fin 2]; [Fin 3]] [0; 1; 1]
           [[Fin 1]; [Fin 2]; [Fin 3]] [0; 0; 1] 1 1 0 5 1 6).
  - reflexivity.
  - reflexivity.
  - reflexivity.
  - reflexivity.
  - simpl. lia.
  - simpl. lia.
  - reflexivity.
  - reflexivity.
  - repeat constructor.
  - reflexivity.
  - reflexivity.
  - reflexivity.
  - reflexivity.
  - reflexivity.
  - apply draws0_ok.
  - intros t _. reflexivity.
  - reflexivity.
  - reflexivity.
Defined.

(** ** Masking isolation and the random features

    [torch.randn] fills a tensor of the requested shape from the stream of
    the generator, in row-major order.  A draw for a batch of two pairs hands
    the first value to the first pair and the second to the second pair; a
    draw for the second pair alone, from the same generator state, hands it
    the first value. *)

Module Noisy.

(** The stream of draw [n] holds the values [n], [n + 1], ... *)
Definition draws (n : nat) (size : nat * nat * nat) : tensor3 :=
  let '(B, N, C) := size in
  map (fun b =>
         map (fun i =>
                map (fun c => Fin (IZR (Z.of_nat (n + ((b * N + i) * C + c)))))
                    (seq 0 C))
             (seq 0 N))
      (seq 0 B).

Definition theta : Params :=
  mkParams (fun _ _ => fone) (fun _ => fzero)
           (fun _ _ => fone) (fun _ => fzero).

(** One refinement step, identity embeddings of width 1, and the scorer
    [d |-> relu d]. *)
Definition model : DGMC unit unit :=
  mkDGMC (Tiny.psi_id 1 1) (Tiny.psi_id 1 1) 1 (-1) false
         (mkMLP (Lin_new 1 1 (w1 theta) (b1 theta))
                (Lin_new 1 1 (w2 theta) (b2 theta))).

End Noisy.

Lemma softmax_row_two (a b : R) :
  softmax_row [Fin a; Fin b]
  = [Fin (exp a / (exp a + exp b)); Fin (exp b / (exp a + exp b))].
Proof.
  destruct (softmax_row_closed [Fin a; Fin b]) as [_ E].
  - repeat constructor.
  - discriminate.
  - rewrite E. simpl.
    replace (exp a + (exp b + 0))%R with (exp a + exp b)%R by lra.
    reflexivity.
Qed.

Lemma softmax_two_inj (a b a' b' : R) :
  (exp a / (exp a + exp b) = exp a' / (exp a' + exp b'))%R ->
  (b - a = b' - a')%R.
Proof.
  intros H.
  pose proof (exp_pos a). pose proof (exp_pos b).
  pose proof (exp_pos a'). pose proof (exp_pos b').
  assert (E : (exp a * (exp a' + exp b') = exp a' * (exp a + exp b))%R).
  { apply (Rmult_eq_compat_r ((exp a + exp b) * (exp a' + exp b'))) in H.
    field_simplify in H; lra. }
  assert (E2 : exp (a + b') = exp (a' + b)).
  { rewrite !exp_plus. lra. }
  apply exp_inv in E2. lra.
Qed.

Lemma draws_noisy_ok (n b m c : nat) :
  shape3 b m c (Noisy.draws n (b, m, c)) /\ fin3 (Noisy.draws n (b, m, c)).
Proof.
  unfold Noisy.draws. split.
  - split; [now rewrite length_map, length_seq|].
    apply Forall_forall. intros x Hx. apply in_map_iff in Hx.
    destruct Hx as (q & <- & _).
    split; [now rewrite length_map, length_seq|].
    apply Forall_forall. intros y Hy. apply in_map_iff in Hy.
    destruct Hy as (i & <- & _). now rewrite length_map, length_seq.
  - apply Forall_forall. intros x Hx. apply in_map_iff in Hx.
    destruct Hx as (q & <- & _).
    apply Forall_forall. intros y Hy. apply in_map_iff in Hy.
    destruct Hy as (i & <- & _).
    apply Forall_forall. intros z Hz. apply in_map_iff in Hz.
    destruct Hz as (j & <- & _). exact I.
Qed.

Lemma noisy_similarity :
  pair_similarity 1 2 [[Fin 1]] [[Fin 0]; [Fin 1]] = [[Fin 0; Fin 1]].
Proof.
  cbv -[Rplus Rmult Ropp Rminus Rinv Rdiv exp Rmax IZR Rsign Rlt_dec].
  repeat f_equal; lra.
Qed.

(** The logit of one target after the pass: [base] before it, [s] the
    correspondence weight of the target and [a] the random feature of the
    source node. *)
Definition noisy_logit (base s a : R) : R :=
  (base + (0 + Rmax (0 + (a + - (0 + s * a)) * 1 + 0) 0 * 1 + 0))%R.

Lemma noisy_step (a : R) :
  pair_step Noisy.model tt tt tt tt 2 [[Fin 0; Fin 1]] [[Fin a]]
  = Ok [[Fin (noisy_logit 0 (exp 0 / (exp 0 + exp 1)) a);
         Fin (noisy_logit 1 (exp 1 / (exp 0 + exp 1)) a)]].
Proof.
  unfold pair_step, pair_scores. cbn [map].
  rewrite softmax_row_two.
  cbv -[Rplus Rmult Ropp Rminus Rinv Rdiv exp Rmax IZR Rsign Rlt_dec].
  reflexivity.
Qed.

Lemma noisy_weights :
  (0 < exp 0 / (exp 0 + exp 1) < exp 1 / (exp 0 + exp 1))%R
  /\ (exp 1 / (exp 0 + exp 1) < 1)%R.
Proof.
  pose proof (exp_pos 0) as H0. pose proof (exp_pos 1) as H1.
  assert (Hlt : (exp 0 < exp 1)%R) by (apply exp_increasing; lra).
  assert (Hs : (0 < / (exp 0 + exp 1))%R) by (apply Rinv_0_lt_compat; lra).
  unfold Rdiv. repeat split.
  - apply Rmult_lt_0_compat; assumption.
  - apply Rmult_lt_compat_r; assumption.
  - apply (Rmult_lt_reg_r (exp 0 + exp 1)); [lra|].
    rewrite Rmult_assoc, Rinv_l by lra. lra.
Qed.

(** C8, as stated, fails for [S_L].  A batch of two pairs, the second with
    one source node and two target nodes, and the second pair alone, both
    from generator state 0.  In the batch the source node of the second pair
    receives the second value of the stream, alone it receives the first;
    the scores differ, and so do the rows of [S_L]. *)
Lemma masking_isolation_needs_same_draws :
  exists S_0 S_L g S_0' S_L' g1,
    forward Noisy.draws Noisy.model tt tt tt tt
            [[Fin 5]; [Fin 1]] [0; 1]
            [[Fin 5]; [Fin 0]; [Fin 1]] [0; 1; 1] 0
    = Ok (Dense S_0 S_L, g)
    /\ forward Noisy.draws Noisy.model tt tt tt tt
               [[Fin 1]] [0] [[Fin 0]; [Fin 1]] [0; 0] 0
       = Ok (Dense S_0' S_L', g1)
    /\ nodes_of [[Fin 5]; [Fin 1]] [0; 1] 1 = [[Fin 1]]
    /\ nodes_of [[Fin 5]; [Fin 0]; [Fin 1]] [0; 1; 1] 1 = [[Fin 0]; [Fin 1]]
    /\ S_L' <> [block 1 2 1 S_L].
Proof.
  assert (HR : exists S_0 S_L g,
             forward Noisy.draws Noisy.model tt tt tt tt
                     [[Fin 5]; [Fin 1]] [0; 1]
                     [[Fin 5]; [Fin 0]; [Fin 1]] [0; 1; 1] 0
             = Ok (Dense S_0 S_L, g))
    by (do 3 eexists; reflexivity).
  assert (HA : exists S_0' S_L' g1,
             forward Noisy.draws Noisy.model tt tt tt tt
                     [[Fin 1]] [0] [[Fin 0]; [Fin 1]] [0; 0] 0
             = Ok (Dense S_0' S_L', g1))
    by (do 3 eexists; reflexivity).
  destruct HR as (S_0 & S_L & g & HR), HA as (S_0' & S_L' & g1 & HA).
  exists S_0, S_L, g, S_0', S_L', g1.
  split; [exact HR|]. split; [exact HA|].
  split; [reflexivity|]. split; [reflexivity|].
  assert (Hrow2 : forall (r : tensor2) (e a : unit),
             length (gnn_apply (psi_2 Noisy.model) r e a) = length r)
    by reflexivity.
  destruct (forward_block
              unit unit Noisy.draws Noisy.model tt tt tt tt tt tt tt tt
              [0; 1] [0; 1; 1] 1 eq_refl eq_refl eq_refl
              (Nat.lt_succ_diag_r 1) Nat.lt_0_1 Nat.lt_0_2 Hrow2
              (fun r _ => eq_refl) (fun r _ => eq_refl) draws_noisy_ok
              PInf NInf [[Fin 5]; [Fin 1]] [[Fin 5]; [Fin 0]; [Fin 1]]
              1 0 g S_0 S_L eq_refl eq_refl eq_refl)
    as (_ & _ & _ & SbR & HplR & HRL);
    [repeat constructor | exact HR |].
  destruct (forward_alone
              unit unit Noisy.draws Noisy.model tt tt tt tt PInf NInf
              [[Fin 1]] [[Fin 0]; [Fin 1]] 1 2 1 0 g1 S_0' S_L'
              eq_refl Nat.lt_0_1 Nat.lt_0_2 Hrow2 draws_noisy_ok
              eq_refl eq_refl)
    as (_ & SbA & HplA & HAL);
    [repeat constructor | exact HA |].
  change (match pair_step Noisy.model tt tt tt tt 2
                          (pair_similarity 1 2 [[Fin 1]] [[Fin 0]; [Fin 1]])
                          [[Fin 1]] with
          | Ok s => Ok s
          | Raise e => Raise e
          end = Ok SbR) in HplR.
  change (match pair_step Noisy.model tt tt tt tt 2
                          (pair_similarity 1 2 [[Fin 1]] [[Fin 0]; [Fin 1]])
                          [[Fin 0]] with
          | Ok s => Ok s
          | Raise e => Raise e
          end = Ok SbA) in HplA.
  change (block 1 2 1 S_L = map softmax_row SbR) in HRL.
  rewrite noisy_similarity, noisy_step in HplR, HplA.
  injection HplR as <-. injection HplA as <-.
  intros E. rewrite HAL, HRL in E. cbn [map] in E.
  rewrite !softmax_row_two in E. injection E as E0 _.
  apply softmax_two_inj in E0. unfold noisy_logit in E0.
  destruct noisy_weights as [[Hs0 Hs01] Hs1].
  revert E0.
  generalize dependent (exp 0 / (exp 0 + exp 1))%R.
  generalize dependent (exp 1 / (exp 0 + exp 1))%R.
  intros s1 Hs1 s0 Hs0 Hs01.
  unfold Rmax. repeat destruct Rle_dec; lra.
Qed.

(** * Further properties of the code *)

From Stdlib Require Import Sorted.

(** ** [to_dense] after [to_sparse] *)

Lemma scatter_row_select_back (A : Type) (zero : A) (mask : list bool) :
  forall (x rest : list A),
    length x = length mask ->
    scatter_row zero (select x mask ++ rest) mask
    = (map2 (fun a (m : bool) => if m then a else zero) x mask, rest).
Proof.
  induction mask as [|m mask IH]; intros [|a x] rest H; simpl in *;
    try discriminate; auto.
  destruct m; simpl; rewrite IH by lia; reflexivity.
Qed.

Lemma scatter_select_back (A : Type) (zero : A) (mask : mask2) :
  forall (d : list (list A)) (rest : list A),
    same2 d mask ->
    scatter zero (concat (map2 (@select A) d mask) ++ rest) mask
    = map2 (map2 (fun a (m : bool) => if m then a else zero)) d mask.
Proof.
  induction mask as [|m mask IH]; intros d rest H.
  - inversion H; subst. reflexivity.
  - inversion H as [|r ? d' ? Hr Hd]; subst. simpl.
    rewrite <- app_assoc.
    apply same1_length in Hr.
    rewrite scatter_row_select_back by assumption.
    rewrite IH by assumption. reflexivity.
Qed.

Lemma to_sparse_width (d : tensor3) (mask : mask2) (B N W : nat) :
  shape3 B N W d -> Forall (fun row : vec => length row = W) (to_sparse d mask).
Proof.
  intros Hd. apply to_sparse_Forall.
  apply (shape3_rows _ _ _ _ _ Hd).
Qed.

(** X1.  [to_dense] undoes [to_sparse] up to the padding: on a tensor of
    the shape of the mask, with at least one row kept, stripping the padding
    and padding again gives the tensor back with its masked rows replaced by
    zero rows. *)
Theorem to_dense_to_sparse (d : tensor3) (mask : mask2) (B N W : nat) :
  shape3 B N W d -> shape2 B N mask -> 0 < count_true2 mask ->
  to_dense (to_sparse d mask) mask
  = Some (map2 (map2 (fun (row : vec) (m : bool) =>
                        if m then row else repeat fzero W))
               d mask).
Proof.
  intros Hd Hm Hpos. unfold to_dense.
  pose proof (to_sparse_length d mask B N W Hd Hm) as Hlen.
  rewrite (proj2 (Nat.eqb_eq _ _) Hlen).
  assert (HW : size_last (to_sparse d mask) = W).
  { pose proof (to_sparse_width d mask B N W Hd) as Hrows.
    destruct (to_sparse d mask) as [|r rs]; [simpl in Hlen; lia|].
    simpl. now inversion Hrows. }
  rewrite HW. f_equal.
  assert (Hsame : same2 d mask).
  { destruct Hd as [Hl Hd], Hm as [Hl' Hm].
    clear Hlen HW Hpos. revert B mask Hl Hl' Hm.
    induction Hd as [|x d' [Hx _] _ IH]; intros B [|m mask] Hl Hl' Hm;
      simpl in *; try lia; constructor.
    - apply same1_length. inversion Hm; subst. llia.
    - apply (IH (length d')); [reflexivity | llia | now inversion Hm]. }
  pose proof (scatter_select_back vec (repeat fzero W) mask d [] Hsame) as E.
  rewrite app_nil_r in E. exact E.
Qed.

Lemma to_dense_to_sparse_witness :
  to_dense (to_sparse [[[Fin 1]; [Fin 2]]; [[Fin 3]; [Fin 4]]]
                      [[true; false]; [false; true]])
           [[true; false]; [false; true]]
  = Some (map2 (map2 (fun (row : vec) (m : bool) =>
                        if m then row else repeat fzero 1))
               [[[Fin 1]; [Fin 2]]; [[Fin 3]; [Fin 4]]]
               [[true; false]; [false; true]]).
Proof.
  apply (to_dense_to_sparse _ _ 2 2 1).
  - repeat constructor.
  - repeat constructor.
  - unfold count_true2, count_true. simpl. lia.
Defined.

(** ** The padding rows of [to_dense] *)

Lemma scatter_row_false_zero (A : Type) (zero : A) (mask : list bool) :
  forall x : list A,
    Forall2 (fun a (m : bool) => m = false -> a = zero)
            (fst (scatter_row zero x mask)) mask.
Proof.
  induction mask as [|m mask IH]; intros x; simpl; [constructor|].
  destruct m.
  - destruct x as [|a x].
    + specialize (IH []). destruct (scatter_row zero [] mask) as [o rest].
      simpl in *. constructor; [discriminate | exact IH].
    + specialize (IH x). destruct (scatter_row zero x mask) as [o rest].
      simpl in *. constructor; [discriminate | exact IH].
  - specialize (IH x). destruct (scatter_row zero x mask) as [o rest].
    simpl in *. constructor; auto.
Qed.

Lemma scatter_false_zero (A : Type) (zero : A) (mask : mask2) :
  forall x : list A,
    Forall2 (Forall2 (fun a (m : bool) => m = false -> a = zero))
            (scatter zero x mask) mask.
Proof.
  induction mask as [|m mask IH]; intros x; simpl; [constructor|].
  pose proof (scatter_row_false_zero A zero m x) as H.
  destruct (scatter_row zero x m) as [o rest]. simpl in H.
  constructor; auto.
Qed.

Lemma to_dense_shape (x : tensor2) (mask : mask2) (d : tensor3) (B N : nat) :
  shape2 B N mask -> to_dense x mask = Some d -> shape2 B N d.
Proof.
  intros Hm Hd. unfold to_dense in Hd.
  destruct (length x =? count_true2 mask).
  - injection Hd as <-. now apply scatter_shape.
  - destruct x as [|r [|r' x]]; try discriminate.
    injection Hd as <-. destruct Hm as [Hl Hm].
    split; [now rewrite length_map|].
    apply Forall_forall. intros o Ho. apply in_map_iff in Ho.
    destruct Ho as (m & <- & Hin). rewrite length_map.
    rewrite Forall_forall in Hm. auto.
Qed.

(** X2.  Whenever [to_dense] returns, the result has the shape of the mask,
    and every row at a masked position is a zero row as wide as the rows of
    [x], whatever [x] holds. *)
Theorem to_dense_padding (x : tensor2) (mask : mask2) (d : tensor3)
        (B N : nat) :
  shape2 B N mask -> to_dense x mask = Some d ->
  shape2 B N d
  /\ Forall2 (Forall2 (fun (row : vec) (m : bool) =>
                         m = false -> row = repeat fzero (size_last x)))
             d mask.
Proof.
  intros Hm Hd. split; [exact (to_dense_shape x mask d B N Hm Hd)|].
  unfold to_dense in Hd.
  destruct (length x =? count_true2 mask).
  - injection Hd as <-. apply scatter_false_zero.
  - destruct x as [|r [|r' x]]; try discriminate.
    injection Hd as <-.
    clear Hm. induction mask as [|m mask IH]; simpl; constructor; auto.
    clear IH. induction m as [|b m IH]; simpl; constructor; auto.
    destruct b; [discriminate | reflexivity].
Qed.

Lemma to_dense_padding_witness :
  shape2 2 2 [[[Fin 1]; [Fin 0]]; [[Fin 0]; [Fin 2]]]
  /\ Forall2 (Forall2 (fun (row : vec) (m : bool) =>
                         m = false
                         -> row = repeat fzero (size_last [[Fin 1]; [Fin 2]])))
             [[[Fin 1]; [Fin 0]]; [[Fin 0]; [Fin 2]]]
             [[true; false]; [false; true]].
Proof.
  apply (to_dense_padding [[Fin 1]; [Fin 2]] [[true; false]; [false; true]]).
  - repeat constructor.
  - reflexivity.
Defined.

(** ** [to_sparse] and [to_dense] against the batching adapter *)

Lemma chunks_exist (A : Type) (cs : list nat) :
  forall x : list A,
    length x = list_sum cs ->
    exists Xs, concat Xs = x /\ Forall2 (fun X c => length X = c) Xs cs.
Proof.
  induction cs as [|c cs IH]; intros x H; simpl in H.
  - exists []. split; [|constructor].
    destruct x; [reflexivity | discriminate].
  - destruct (IH (skipn c x)) as (Xs & HX & HF).
    { rewrite length_skipn. lia. }
    exists (firstn c x :: Xs). split.
    + simpl. rewrite HX. apply firstn_skipn.
    + constructor; auto. rewrite length_firstn. lia.
Qed.

Lemma Forall2_nth_error_both (A B : Type) (R : A -> B -> Prop) l m :
  Forall2 R l m ->
  forall j a b, nth_error l j = Some a -> nth_error m j = Some b -> R a b.
Proof.
  induction 1 as [|x y l m Hxy Hlm IH]; intros [|j] a b Ha Hb; simpl in *;
    try discriminate.
  - injection Ha as <-. injection Hb as <-. exact Hxy.
  - eauto.
Qed.

Lemma map_nth_seq_all (A : Type) (d : A) (l : list A) :
  map (fun b => nth b l d) (seq 0 (length l)) = l.
Proof.
  induction l as [|a l IH]; simpl; auto.
  f_equal. rewrite <- seq_shift, map_map. exact IH.
Qed.

Lemma sorted_batch_length (batch : list nat) :
  sorted_batch batch ->
  length batch = list_sum (map (num_nodes batch) (seq 0 (num_graphs batch))).
Proof.
  intros Hsort.
  assert (E : length batch
              = length (concat (map (fun b => repeat b (num_nodes batch b))
                                    (seq 0 (num_graphs batch)))))
    by (f_equal; exact Hsort).
  rewrite E, length_concat, map_map. f_equal.
  apply map_ext. intros b. apply repeat_length.
Qed.

(** In a sorted batch the rows of the graphs, one graph after the other,
    are all the rows. *)
Lemma concat_nodes_of (A : Type) (x : list A) (batch : list nat) :
  sorted_batch batch -> length x = length batch ->
  concat (map (nodes_of x batch) (seq 0 (num_graphs batch))) = x.
Proof.
  intros Hsort Hlen.
  rewrite (sorted_batch_length batch Hsort) in Hlen.
  destruct (chunks_exist A _ x Hlen) as (Xs & HX & HF).
  assert (HlX : length Xs = num_graphs batch).
  { rewrite (Forall2_length HF), length_map. apply length_seq. }
  assert (Hcnt : forall j X, nth_error Xs j = Some X ->
                             length X = num_nodes batch (0 + j)).
  { intros j X Hj.
    assert (Hjb : j < num_graphs batch).
    { rewrite <- HlX. apply nth_error_Some. congruence. }
    assert (Hc : nth_error (map (num_nodes batch) (seq 0 (num_graphs batch))) j
                 = Some (num_nodes batch j)).
    { apply map_nth_error. now apply nth_error_seq0. }
    apply (Forall2_nth_error_both _ _ _ _ _ HF j X _ Hj Hc). }
  rewrite <- HX at 2. rewrite <- (map_nth_seq_all _ [] Xs), HlX.
  f_equal. apply map_ext_in. intros p Hp. apply in_seq in Hp.
  unfold nodes_of. rewrite <- HX.
  assert (E : map (Nat.eqb p) batch
              = map (Nat.eqb p)
                    (concat (map (fun b => repeat b (num_nodes batch b))
                                 (seq 0 (length Xs))))).
  { rewrite HlX. f_equal. exact Hsort. }
  rewrite E, (nodes_of_groups A (num_nodes batch) p Xs 0 Hcnt).
  rewrite HlX. simpl.
  rewrite (proj2 (Nat.ltb_lt p (num_graphs batch))) by lia.
  now rewrite Nat.sub_0_r.
Qed.

Lemma map2_diag (A B : Type) (f : A -> A -> B) (l : list A) :
  map2 f l l = map (fun a => f a a) l.
Proof. induction l as [|a l IH]; simpl; auto. now rewrite IH. Qed.

(** X3.  [to_sparse] inverts the padding of [to_dense_batch]: for a sorted
    batch vector with one row of [x] per node, stripping the padded tensor
    with its own mask gives [x] back, whatever the fill value. *)
Theorem to_sparse_to_dense_batch (x : tensor2) (batch : list nat)
        (fill : fval) :
  sorted_batch batch -> length x = length batch ->
  to_sparse (fst (to_dense_batch x batch fill))
            (snd (to_dense_batch x batch fill))
  = x.
Proof.
  intros Hsort Hlen. unfold to_dense_batch. cbn [fst snd].
  rewrite to_sparse_batch_mask. unfold batch_x.
  rewrite map2_map_l, map2_diag.
  transitivity (concat (map (nodes_of x batch) (seq 0 (num_graphs batch))));
    [|now apply concat_nodes_of].
  f_equal. apply map_ext. intros b.
  apply firstn_app_exact. now apply nodes_of_length.
Qed.

Lemma to_sparse_to_dense_batch_witness :
  to_sparse (fst (to_dense_batch [[Fin 1]; [Fin 2]; [Fin 3]] [0; 1; 1] PInf))
            (snd (to_dense_batch [[Fin 1]; [Fin 2]; [Fin 3]] [0; 1; 1] PInf))
  = [[Fin 1]; [Fin 2]; [Fin 3]].
Proof.
  apply to_sparse_to_dense_batch; reflexivity.
Defined.

Lemma scatter_row_chunk (A : Type) (zero : A) (X rest : list A) (m : nat) :
  scatter_row zero (X ++ rest) (repeat true (length X) ++ repeat false m)
  = (X ++ repeat zero m, rest).
Proof.
  induction X as [|a X IH]; simpl.
  - induction m as [|m IHm]; simpl; auto. now rewrite IHm.
  - now rewrite IH.
Qed.

Lemma scatter_groups (A : Type) (zero : A) (g : nat -> list A)
      (k : nat -> nat) (len : nat) :
  forall (s : nat) (rest : list A),
    scatter zero (concat (map g (seq s len)) ++ rest)
            (map (fun b => repeat true (length (g b)) ++ repeat false (k b))
                 (seq s len))
    = map (fun b => g b ++ repeat zero (k b)) (seq s len).
Proof.
  induction len as [|len IH]; intros s rest; simpl; auto.
  rewrite <- app_assoc, scatter_row_chunk, IH. reflexivity.
Qed.

(** X4.  On the mask of a sorted batch, [to_dense] pads like
    [to_dense_batch] with fill value 0: the rows of each graph, then zero
    rows up to the largest graph. *)
Theorem to_dense_is_to_dense_batch (x : tensor2) (batch : list nat) :
  sorted_batch batch -> length x = length batch ->
  to_dense x (snd (to_dense_batch x batch fzero))
  = Some (fst (to_dense_batch x batch fzero)).
Proof.
  intros Hsort Hlen. unfold to_dense_batch. cbn [fst snd].
  unfold to_dense.
  rewrite (count_true2_batch_mask batch Hsort).
  rewrite (proj2 (Nat.eqb_eq _ _) Hlen). f_equal.
  pose proof (scatter_groups vec (repeat fzero (size_last x))
                (nodes_of x batch)
                (fun b => max_num_nodes batch - num_nodes batch b)
                (num_graphs batch) 0 []) as E.
  rewrite app_nil_r, (concat_nodes_of vec x batch Hsort Hlen) in E.
  unfold batch_x, batch_mask. cbv zeta.
  etransitivity; [|exact E].
  f_equal. apply map_ext. intros b.
  now rewrite (nodes_of_length vec x batch b Hlen).
Qed.

Lemma to_dense_is_to_dense_batch_witness :
  to_dense [[Fin 1]; [Fin 2]; [Fin 3]]
           (snd (to_dense_batch [[Fin 1]; [Fin 2]; [Fin 3]] [0; 1; 1] fzero))
  = Some (fst (to_dense_batch [[Fin 1]; [Fin 2]; [Fin 3]] [0; 1; 1] fzero)).
Proof.
  apply to_dense_is_to_dense_batch; reflexivity.
Defined.

(** ** [masked_softmax]: what the masked logits and bad logits do *)

Lemma masked_fill_row_twice (s : vec) (m : list bool) (v w : fval) :
  masked_fill_row (masked_fill_row s m v) m w = masked_fill_row s m w.
Proof.
  unfold masked_fill_row. revert m.
  induction s as [|x s IH]; intros [|b m]; simpl; auto.
  rewrite IH. destruct b; reflexivity.
Qed.

(** X5.  The logits at the masked positions never reach the result:
    overwriting them with any value [v] leaves [masked_softmax]
    unchanged. *)
Theorem masked_softmax_ignores_masked (src : tensor3) (mask : mask3)
        (v : fval) :
  masked_softmax (masked_fill src (mask_not3 mask) v) mask
  = masked_softmax src mask.
Proof.
  rewrite !masked_softmax_rows. unfold masked_fill, mask_not3.
  rewrite map2_map_r, map2_map2_r.
  apply map2_ext. intros s m.
  rewrite map2_map_r, map2_map2_r.
  apply map2_ext. intros r b.
  unfold masked_softmax_row. now rewrite masked_fill_row_twice.
Qed.

Lemma fold_fmax_top (v : vec) :
  forall a, (a = PInf \/ a = NaN) ->
            fold_left fmax v a = PInf \/ fold_left fmax v a = NaN.
Proof.
  induction v as [|x v IH]; intros a Ha; simpl; auto.
  apply IH. destruct Ha as [-> | ->]; destruct x; simpl; auto.
Qed.

Lemma row_max_top (v : vec) :
  In PInf v \/ In NaN v -> row_max v = PInf \/ row_max v = NaN.
Proof.
  unfold row_max. generalize NInf.
  induction v as [|x v IH]; intros a [H|H]; simpl in *; try contradiction.
  - destruct H as [->|H].
    + apply fold_fmax_top. destruct a; simpl; auto.
    + apply IH. now left.
  - destruct H as [->|H].
    + apply fold_fmax_top. destruct a; simpl; auto.
    + apply IH. now right.
Qed.

Lemma softmax_row_poisoned (v : vec) :
  In PInf v \/ In NaN v -> Forall (fun y => y = NaN) (softmax_row v).
Proof.
  intros H. unfold softmax_row.
  assert (Hs : fsum (map (fun x => fexp (fsub x (row_max v))) v) = NaN).
  { apply fold_fadd_has_NaN. apply in_map_iff.
    destruct (row_max_top v H) as [-> | ->]; destruct H as [H|H].
    - exists PInf. split; [reflexivity | assumption].
    - exists NaN. split; [reflexivity | assumption].
    - exists PInf. split; [reflexivity | assumption].
    - exists NaN. split; [reflexivity | assumption]. }
  rewrite Hs. apply Forall_forall. intros y Hy.
  apply in_map_iff in Hy. destruct Hy as (e & <- & _).
  destruct e; reflexivity.
Qed.

Lemma masked_softmax_row_poisoned (s : vec) (m : list bool) (j : nat)
      (x : fval) :
  nth_error s j = Some x -> nth_error m j = Some true ->
  x = NaN \/ x = PInf ->
  forall j' y,
    nth_error (masked_softmax_row s m) j' = Some y ->
    nth_error m j' = Some true ->
    y = NaN.
Proof.
  intros Hs Hm Hx j' y Hy Hm'.
  unfold masked_softmax_row in Hy.
  assert (Hin : In x (masked_fill_row s (mask_not m) NInf)).
  { apply (nth_error_In _ j). unfold masked_fill_row, mask_not.
    rewrite (nth_error_map2 _ _ _ _ s (map negb m) j x false Hs).
    - reflexivity.
    - now rewrite nth_error_map, Hm. }
  assert (Hp : Forall (fun y => y = NaN)
                      (softmax_row (masked_fill_row s (mask_not m) NInf))).
  { apply softmax_row_poisoned. destruct Hx as [-> | ->]; auto. }
  unfold masked_fill_row at 1 in Hy.
  apply nth_error_map2_inv in Hy. destruct Hy as (a & b & Ha & Hb & ->).
  unfold mask_not in Hb. rewrite nth_error_map, Hm' in Hb.
  injection Hb as <-. simpl.
  rewrite Forall_forall in Hp. apply Hp. now apply nth_error_In in Ha.
Qed.

(** X6.  One bad logit spoils its row: when an unmasked entry of a row is
    NaN or [+inf], every unmasked entry of that row of the result is
    NaN. *)
Theorem masked_softmax_poisoned (src : tensor3) (mask : mask3)
        (b i j : nat) (x : fval) :
  cell3 src b i j = Some x -> cell3 mask b i j = Some true ->
  x = NaN \/ x = PInf ->
  forall j' y,
    cell3 (masked_softmax src mask) b i j' = Some y ->
    cell3 mask b i j' = Some true ->
    y = NaN.
Proof.
  intros Hs Hm Hx j' y Hy Hm'.
  rewrite masked_softmax_rows in Hy. unfold cell3 in *.
  destruct (row3 (map2 (map2 masked_softmax_row) src mask) b i) as [r|] eqn:Er;
    [|discriminate].
  apply row3_map2 in Er. destruct Er as (rs & rm & Ers & Erm & ->).
  rewrite Ers in Hs. rewrite Erm in Hm, Hm'.
  exact (masked_softmax_row_poisoned rs rm j x Hs Hm Hx j' y Hy Hm').
Qed.

Lemma masked_softmax_poisoned_witness :
  cell3 [[[Fin 0; PInf; Fin 1]]] 0 0 1 = Some PInf
  /\ cell3 [[[true; true; false]]] 0 0 1 = Some true
  /\ forall j' y,
      cell3 (masked_softmax [[[Fin 0; PInf; Fin 1]]] [[[true; true; false]]])
            0 0 j' = Some y ->
      cell3 [[[true; true; false]]] 0 0 j' = Some true ->
      y = NaN.
Proof.
  split; [reflexivity|]. split; [reflexivity|].
  apply (masked_softmax_poisoned [[[Fin 0; PInf; Fin 1]]]
                                 [[[true; true; false]]] 0 0 1 PInf).
  - reflexivity.
  - reflexivity.
  - right. reflexivity.
Defined.

(** A probability: a finite value between 0 and 1. *)
Definition probability (y : fval) : Prop :=
  exists p : R, y = Fin p /\ (0 <= p <= 1)%R.

Lemma Rsum_ge_elem (A : Type) (g : A -> R) (l : list A) (x : A) :
  (forall y, 0 <= g y)%R -> In x l -> (g x <= Rsum (map g l))%R.
Proof.
  intros Hg. induction l as [|a l IH]; intros Hin; simpl in *; [tauto|].
  assert (H0 : (0 <= Rsum (map g l))%R).
  { clear IH Hin. induction l as [|b l IHl]; simpl; [lra|].
    pose proof (Hg b). lra. }
  destruct Hin as [->|Hin]; [lra|].
  pose proof (Hg a). specialize (IH Hin). lra.
Qed.

Lemma masked_softmax_row_probability (src : vec) (mask : list bool) :
  Forall2 ok_cell src mask ->
  Forall probability (masked_softmax_row src mask).
Proof.
  intros Hok.
  assert (Hzero : probability fzero) by (exists 0%R; split; [reflexivity|lra]).
  destruct (all_false_or_true mask) as [Hin|Hall].
  - destruct (softmax_row_regular _ (fill_row_regular _ _ Hok)
                                  (fill_row_finite _ _ Hok Hin))
      as (M & _ & Hpos & Hsm).
    unfold masked_softmax_row. fold (fill_row src mask). rewrite Hsm.
    unfold masked_fill_row.
    apply Forall_map2 with (P := probability) (Q := fun _ : bool => True).
    + intros a b Ha _. destruct b; auto.
    + apply Forall_forall. intros y Hy. apply in_map_iff in Hy.
      destruct Hy as (x & <- & Hx).
      eexists. split; [reflexivity|].
      pose proof (expw_nonneg M x) as H0.
      pose proof (Rsum_ge_elem fval (expw M) _ x (expw_nonneg M) Hx) as H1.
      split.
      * apply Rmult_le_pos; [assumption|].
        apply Rlt_le. now apply Rinv_0_lt_compat.
      * apply (Rmult_le_reg_r (Rsum (map (expw M) (fill_row src mask))));
          [assumption|].
        unfold Rdiv. rewrite Rmult_assoc, Rinv_l by lra. lra.
    + apply Forall_True.
  - unfold masked_softmax_row.
    eapply Forall_impl; [|apply masked_fill_row_all; exact Hall].
    intros x ->. exact Hzero.
Qed.

(** X7.  Where every unmasked logit is finite, every entry of the result is
    a finite number between 0 and 1. *)
Theorem masked_softmax_probabilities (src : tensor3) (mask : mask3) :
  Forall2 (Forall2 (Forall2 ok_cell)) src mask ->
  Forall (Forall (Forall probability)) (masked_softmax src mask).
Proof.
  rewrite masked_softmax_rows.
  induction 1 as [|s m src mask Hsm _ IH]; simpl; constructor; auto.
  clear IH. induction Hsm as [|r b s m Hrb _ IH]; simpl; constructor; auto.
  now apply masked_softmax_row_probability.
Qed.

Lemma masked_softmax_probabilities_witness :
  Forall (Forall (Forall probability))
         (masked_softmax [[[Fin 1; NaN]; [PInf; NaN]]]
                         [[[true; false]; [false; false]]]).
Proof.
  apply masked_softmax_probabilities.
  repeat constructor; discriminate.
Defined.

(** X8.  With nothing masked, [masked_softmax] is [torch.softmax]. *)
Theorem masked_softmax_full_mask (src : tensor3) (mask : mask3) :
  Forall2 (Forall2 (fun (r : vec) (m : list bool) =>
                      m = repeat true (length r))) src mask ->
  masked_softmax src mask = softmax src.
Proof.
  rewrite masked_softmax_rows. unfold softmax.
  induction 1 as [|s m src mask Hsm _ IH]; simpl; [reflexivity|].
  rewrite IH. f_equal. clear IH.
  induction Hsm as [|r b s m Hrb _ IH]; simpl; [reflexivity|].
  rewrite IH. f_equal. subst b. apply masked_softmax_row_all_true.
Qed.

Lemma masked_softmax_full_mask_witness :
  masked_softmax [[[Fin 1; Fin 2]]] [[[true; true]]]
  = softmax [[[Fin 1; Fin 2]]].
Proof.
  apply masked_softmax_full_mask. repeat constructor.
Defined.

(** ** The scorer built by [DGMC.__init__] *)

Lemma Lin_new_length (i o : nat) (w : nat -> nat -> fval) (b : nat -> fval)
      (x y : vec) :
  lin_apply (Lin_new i o w b) x = Ok y -> length x = i /\ length y = o.
Proof.
  unfold lin_apply, Lin_new. simpl.
  destruct (Nat.eqb_spec (length x) i) as [E|E]; [|discriminate].
  intros H. injection H as <-. split; [exact E|].
  rewrite map2_length, !length_map, length_seq. lia.
Qed.

Lemma Lin_new_returns (i o : nat) (w : nat -> nat -> fval) (b : nat -> fval)
      (x : vec) :
  length x = i -> exists y, lin_apply (Lin_new i o w b) x = Ok y.
Proof.
  intros E. unfold lin_apply, Lin_new. simpl.
  rewrite (proj2 (Nat.eqb_eq _ _) E). eauto.
Qed.

(** X9.  The scorer [__init__] builds accepts exactly the vectors as wide
    as [psi_2.out_channels]: on these it returns one scalar, on any other
    width it raises. *)
Theorem scorer_accepts_out_channels (EdgeIndex EdgeAttr : Type)
        (psi1 psi2 : GNN EdgeIndex EdgeAttr) (steps kval : Z) (det : bool)
        (theta : Params) :
  exists self,
    DGMC_init psi1 psi2 steps kval det theta = Ok self
    /\ forall d : vec,
        (exists y, (y0 <- mlp_apply (mlp self) d ;; squeeze y0) = Ok y)
        <-> length d = out_channels psi2.
Proof.
  eexists. split; [reflexivity|]. intros d. cbn [mlp lin1 lin2].
  unfold mlp_apply. cbn [lin1 lin2]. split.
  - intros [y Hy].
    destruct (lin_apply (Lin_new (out_channels psi2) (out_channels psi2)
                                 (w1 theta) (b1 theta)) d) as [h|] eqn:E1;
      [|discriminate Hy].
    now apply Lin_new_length in E1.
  - intros Hd.
    destruct (Lin_new_returns _ (out_channels psi2) (w1 theta) (b1 theta)
                              d Hd) as [h E1].
    rewrite E1. cbn [bind].
    pose proof (Lin_new_length _ _ _ _ _ _ E1) as [_ Hh].
    destruct (Lin_new_returns (out_channels psi2) 1 (w2 theta) (b2 theta)
                              (map relu h)) as [y E2].
    { now rewrite length_map. }
    rewrite E2. cbn [bind].
    apply Lin_new_length in E2. destruct E2 as [_ Hy].
    destruct y as [|s [|s' y]]; simpl in Hy; try discriminate.
    exists s. reflexivity.
Qed.

(** ** The indices [top_k] returns *)

Lemma slot_insert_Forall (P : fval * nat -> Prop) (x : fval) (j : nat)
      (slots : list (fval * nat)) :
  P (x, j) -> Forall P slots -> Forall P (slot_insert x j slots).
Proof.
  intros Hx. induction 1 as [|[y i] rest Hy Hrest IH]; simpl.
  - constructor; auto.
  - destruct (flt x y); repeat constructor; auto.
Qed.

Lemma Forall_firstn (A : Type) (P : A -> Prop) (n : nat) (l : list A) :
  Forall P l -> Forall P (firstn n l).
Proof.
  intros H. apply Forall_forall. intros a Ha.
  rewrite Forall_forall in H. apply H. eapply In_firstn_all; eauto.
Qed.

Lemma enumerate_in_range (row : vec) :
  Forall (fun c : fval * nat => snd c < length row) (enumerate row).
Proof.
  unfold enumerate. apply Forall_forall. intros [x j] Hin.
  apply in_combine_r in Hin. apply in_seq in Hin. simpl. lia.
Qed.

Lemma argKmin_in_range (k : nat) (row : vec) :
  row <> [] -> Forall (fun j => j < length row) (argKmin k row).
Proof.
  intros Hne. unfold argKmin.
  assert (Hn : 0 < length row) by (destruct row; [congruence | simpl; lia]).
  assert (H : Forall (fun c : fval * nat => snd c < length row)
                     (fold_left (offer k) (enumerate row)
                                (repeat (PInf, 0) k))).
  { pose proof (enumerate_in_range row) as Hc.
    assert (H0 : Forall (fun c : fval * nat => snd c < length row)
                        (repeat (PInf, 0) k)).
    { apply Forall_forall. intros c Hc'. apply repeat_spec in Hc'.
      now subst c. }
    revert H0. generalize (repeat (PInf, 0) k).
    induction Hc as [|c cands Hc _ IH]; intros slots H0; simpl; auto.
    apply IH. unfold offer. apply Forall_firstn.
    apply slot_insert_Forall; auto. }
  apply Forall_forall. intros j Hj. apply in_map_iff in Hj.
  destruct Hj as (c & <- & Hc). rewrite Forall_forall in H. now apply H.
Qed.



(** ** [top_k] on finite embeddings *)

(** The candidates in the order [argKmin] ranks them: each is placed after
    the candidates it is not strictly less than. *)
Definition ranked (cands : list (fval * nat)) : list (fval * nat) :=
  fold_left (fun slots c => slot_insert (fst c) (snd c) slots) cands [].

(** The order of the slots: by value. *)
Definition slot_le (a b : fval * nat) : Prop := fle (fst a) (fst b).

Lemma firstn_cons_firstn (A : Type) (k : nat) (a : A) (l : list A) :
  firstn k (a :: firstn k l) = firstn k (a :: l).
Proof.
  destruct k as [|k]; [reflexivity|].
  change (a :: firstn k (firstn (S k) l) = a :: firstn k l).
  rewrite firstn_firstn. f_equal. f_equal. lia.
Qed.

Lemma slot_insert_firstn (x : fval) (j : nat) (k : nat) :
  forall L,
    firstn k (slot_insert x j (firstn k L)) = firstn k (slot_insert x j L).
Proof.
  induction k as [|k IH]; intros L; [reflexivity|].
  destruct L as [|[y i] L]; [reflexivity|].
  cbn [firstn slot_insert]. destruct (flt x y).
  - cbn [firstn]. f_equal. apply firstn_cons_firstn.
  - cbn [firstn]. f_equal. apply IH.
Qed.

Lemma slot_insert_before_inf (x : fval) (j : nat) (P : list (fval * nat)) :
  is_finite x -> Forall (fun s => fst s = PInf) P ->
  forall S, slot_insert x j (S ++ P) = slot_insert x j S ++ P.
Proof.
  intros Hx HP. induction S as [|[y i] S IH]; simpl.
  - destruct P as [|[y i] P]; [reflexivity|].
    inversion HP as [|? ? Hy _]; subst. simpl in Hy. subst y.
    simpl. now rewrite (flt_finite_PInf x Hx).
  - destruct (flt x y); [reflexivity|]. now rewrite IH.
Qed.

Lemma offers_ranked (k : nat) (P : list (fval * nat)) (cands : list (fval * nat)) :
  Forall fin_slot cands -> Forall (fun s => fst s = PInf) P ->
  forall S,
    fold_left (offer k) cands (firstn k (S ++ P))
    = firstn k (fold_left (fun slots c => slot_insert (fst c) (snd c) slots)
                          cands S ++ P).
Proof.
  intros Hc HP. induction Hc as [|c cands Hc _ IH]; intros S; simpl; auto.
  unfold offer at 2.
  rewrite slot_insert_firstn, slot_insert_before_inf by assumption.
  apply IH.
Qed.

Lemma slot_insert_perm (x : fval) (j : nat) (S : list (fval * nat)) :
  Permutation (slot_insert x j S) ((x, j) :: S).
Proof.
  induction S as [|[y i] S IH]; simpl; [apply Permutation_refl|].
  destruct (flt x y); [apply Permutation_refl|].
  eapply Permutation_trans; [apply perm_skip; exact IH|]. apply perm_swap.
Qed.

Lemma ranked_perm (cands : list (fval * nat)) :
  Permutation (ranked cands) cands.
Proof.
  unfold ranked.
  assert (H : forall S,
             Permutation
               (fold_left (fun slots c => slot_insert (fst c) (snd c) slots)
                          cands S)
               (S ++ cands)).
  { induction cands as [|c cands IH]; intros S; simpl.
    - rewrite app_nil_r. apply Permutation_refl.
    - eapply Permutation_trans; [apply IH|].
      eapply Permutation_trans;
        [apply Permutation_app_tail; apply slot_insert_perm|].
      destruct c as [x j]. simpl. apply Permutation_middle. }
  exact (H []).
Qed.

Lemma flt_false_fle (x y : fval) :
  is_finite x -> is_finite y -> flt x y = false -> fle y x.
Proof.
  destruct x, y; simpl; try contradiction. intros _ _.
  destruct (Rlt_dec r r0); [discriminate|]. intros _. lra.
Qed.

Lemma flt_true_fle (x y : fval) :
  is_finite x -> is_finite y -> flt x y = true -> fle x y.
Proof.
  destruct x, y; simpl; try contradiction. intros _ _.
  destruct (Rlt_dec r r0); [|discriminate]. intros _. lra.
Qed.

Lemma slot_insert_sorted (x : fval) (j : nat) (S : list (fval * nat)) :
  is_finite x -> Forall fin_slot S ->
  StronglySorted slot_le S -> StronglySorted slot_le (slot_insert x j S).
Proof.
  intros Hx Hf Hs.
  induction Hs as [|[y i] S Hs IH Hy]; simpl.
  - repeat constructor.
  - inversion Hf as [|? ? Hfy Hf']; subst. unfold fin_slot in Hfy.
    simpl in Hfy. destruct (flt x y) eqn:E.
    + pose proof (flt_true_fle x y Hx Hfy E) as Hxy.
      constructor; [constructor; assumption|].
      constructor; [exact Hxy|].
      eapply Forall_impl; [|exact Hy].
      intros a Ha. unfold slot_le in *. simpl in *.
      eapply fle_trans; eauto.
    + constructor; [now apply IH|].
      apply slot_insert_Forall; [|exact Hy].
      unfold slot_le. simpl. now apply flt_false_fle.
Qed.

Lemma ranked_sorted (cands : list (fval * nat)) :
  Forall fin_slot cands -> StronglySorted slot_le (ranked cands).
Proof.
  intros Hc. unfold ranked.
  assert (H : forall S,
             Forall fin_slot S -> StronglySorted slot_le S ->
             StronglySorted slot_le
               (fold_left (fun slots c => slot_insert (fst c) (snd c) slots)
                          cands S)).
  { induction Hc as [|c cands Hc _ IH]; intros S Hf Hs; simpl; auto.
    apply IH.
    - apply slot_insert_Forall; auto.
    - now apply slot_insert_sorted. }
  apply H; constructor.
Qed.

Lemma argKmin_ranked (k : nat) (row : vec) :
  fin1 row -> k <= length row ->
  argKmin k row = map snd (firstn k (ranked (enumerate row))).
Proof.
  intros Hfin Hk. unfold argKmin.
  pose proof (offers_ranked k (repeat (PInf, 0) k) (enumerate row)
                            (enumerate_finite row Hfin)) as E.
  assert (HP : Forall (fun s : fval * nat => fst s = PInf)
                      (repeat (PInf, 0) k)).
  { apply Forall_forall. intros s Hs. apply repeat_spec in Hs. now subst s. }
  specialize (E HP []). simpl app in E.
  rewrite firstn_all2 in E by now rewrite repeat_length.
  rewrite E. f_equal. fold (ranked (enumerate row)).
  assert (Hl : length (ranked (enumerate row)) = length row).
  { rewrite (Permutation_length (ranked_perm (enumerate row))).
    unfold enumerate. rewrite length_combine, length_seq. lia. }
  rewrite firstn_app.
  replace (k - length (ranked (enumerate row))) with 0 by lia.
  apply app_nil_r.
Qed.

Lemma sorted_app_le (A : Type) (R : A -> A -> Prop) (l1 l2 : list A) :
  StronglySorted R (l1 ++ l2) ->
  forall a b, In a l1 -> In b l2 -> R a b.
Proof.
  induction l1 as [|x l1 IH]; intros Hs a b Ha Hb; simpl in *; [tauto|].
  inversion Hs as [|? ? Hs' Hx]; subst.
  destruct Ha as [->|Ha].
  - rewrite Forall_forall in Hx. apply Hx. apply in_or_app. now right.
  - now apply IH.
Qed.

Lemma enumerate_In (row : vec) (x : fval) (j : nat) :
  In (x, j) (enumerate row) <-> j < length row /\ x = nth j row NaN.
Proof.
  unfold enumerate. revert j.
  assert (H : forall (l : vec) (s j : nat),
             In (x, j) (combine l (seq s (length l)))
             <-> s <= j < s + length l /\ x = nth (j - s) l NaN).
  { induction l as [|y l IH]; intros s j; simpl.
    - split; [tauto | lia].
    - rewrite IH. split.
      + intros [E | [Hr Hx]].
        * injection E as <- <-. rewrite Nat.sub_diag. split; [lia | reflexivity].
        * split; [lia|]. replace (j - s) with (S (j - S s)) by lia. exact Hx.
      + intros [Hr Hx]. destruct (Nat.eq_dec j s) as [->|Hne].
        * left. rewrite Nat.sub_diag in Hx. now subst x.
        * right. split; [lia|].
          replace (j - s) with (S (j - S s)) in Hx by lia. exact Hx. }
  intros j. specialize (H row 0 j). rewrite Nat.sub_0_r in H.
  rewrite H. simpl. split; intros [Hr Hx]; split; auto; lia.
Qed.

Lemma argKmin_least (k : nat) (row : vec) :
  fin1 row -> k <= length row ->
  NoDup (argKmin k row)
  /\ forall j j',
      In j (argKmin k row) -> j' < length row -> ~ In j' (argKmin k row) ->
      fle (nth j row NaN) (nth j' row NaN).
Proof.
  intros Hfin Hk. rewrite (argKmin_ranked k row Hfin Hk).
  set (T := ranked (enumerate row)).
  pose proof (ranked_perm (enumerate row)) as Hperm. fold T in Hperm.
  pose proof (ranked_sorted (enumerate row) (enumerate_finite row Hfin))
    as Hsorted. fold T in Hsorted.
  split.
  - assert (Hnd : NoDup (map snd T)).
    { apply (Permutation_NoDup (l := map snd (enumerate row))).
      - apply Permutation_map. now apply Permutation_sym.
      - rewrite enumerate_snd. apply seq_NoDup. }
    rewrite <- (firstn_skipn k T), map_app in Hnd.
    now apply NoDup_app_remove_r in Hnd.
  - intros j j' Hj Hj' Hnot.
    apply in_map_iff in Hj. destruct Hj as ([x i] & Hi & Hin).
    simpl in Hi. subst i.
    assert (Hx : x = nth j row NaN).
    { apply In_firstn_all in Hin.
      apply (Permutation_in _ Hperm) in Hin.
      now apply enumerate_In in Hin. }
    assert (Hin' : In (nth j' row NaN, j') T).
    { apply (Permutation_in _ (Permutation_sym Hperm)).
      apply enumerate_In. auto. }
    rewrite <- (firstn_skipn k T) in Hin', Hsorted.
    apply in_app_or in Hin'. destruct Hin' as [Hin'|Hin'].
    + exfalso. apply Hnot. apply in_map_iff.
      exists (nth j' row NaN, j'). auto.
    + pose proof (sorted_app_le _ slot_le _ _ Hsorted _ _ Hin Hin') as Hle.
      unfold slot_le in Hle. simpl in Hle. now subst x.
Qed.

Lemma distances_finite (u : vec) (xt : tensor2) :
  fin1 u -> fin2 xt -> fin1 (distances u xt).
Proof.
  intros Hu Hxt. unfold distances, fin1, fin2 in *.
  apply Forall_forall. intros d Hd. apply in_map_iff in Hd.
  destruct Hd as (v & <- & Hv). rewrite Forall_forall in Hxt.
  apply fsum_finite.
  apply Forall_map2 with (P := is_finite) (Q := is_finite).
  - intros a b Ha Hb. now apply fmul_finite.
  - apply Forall_forall. intros a Ha. apply in_map_iff in Ha.
    destruct Ha as (a' & <- & Ha'). apply fneg_finite.
    rewrite Forall_forall in Hu. auto.
  - now apply Hxt.
Qed.



(** ** The dense call: shapes, draws and errors *)

Lemma similarity_shape (hs ht : tensor2) (batch_s batch_t : list nat)
      (fill_s fill_t : fval) :
  length hs = length batch_s -> length ht = length batch_t ->
  batch_t <> [] -> num_graphs batch_s = num_graphs batch_t ->
  shape3 (num_graphs batch_s) (max_num_nodes batch_s) (max_num_nodes batch_t)
         (similarity (batch_x hs batch_s fill_s) (batch_x ht batch_t fill_t)).
Proof.
  intros Hls Hlt Hne HB. unfold similarity, size1.
  rewrite (batch_x_size1 ht batch_t fill_t Hlt Hne). split.
  - rewrite map2_length, !batch_x_size0. lia.
  - apply Forall_map2 with
      (P := fun m : tensor2 => length m = max_num_nodes batch_s)
      (Q := fun _ : tensor2 => True).
    + intros a c Ha _. rewrite <- Ha. apply matmul_shape.
    + now apply batch_x_rows_length.
    + apply Forall_True.
Qed.

Section DenseShape.
Variables EdgeIndex EdgeAttr : Type.
Variable draws : nat -> nat * nat * nat -> tensor3.
Variable self : DGMC EdgeIndex EdgeAttr.
Variables (edge_index_s : EdgeIndex) (edge_attr_s : EdgeAttr).
Variables (edge_index_t : EdgeIndex) (edge_attr_t : EdgeAttr).
Variables ms mt : mask2.
Variables B Ns Nt : nat.
Variable rnd_size : nat * nat * nat.
Hypothesis Hms : shape2 B Ns ms.
Hypothesis Hmt : shape2 B Nt mt.

Lemma dense_step_shape (S_hat : tensor3) (gen : nat)
      (S_hat' : tensor3) (gen' : nat) :
  shape3 B Ns Nt S_hat ->
  dense_step draws self edge_index_s edge_attr_s edge_index_t edge_attr_t
             ms mt (pair_mask ms mt) rnd_size (S_hat, gen)
  = Ok (S_hat', gen') ->
  shape3 B Ns Nt S_hat' /\ gen' = S gen.
Proof.
  intros HS H. unfold dense_step, randn in H.
  match type of H with
  | context [of_option (to_dense ?o ms)] =>
      destruct (to_dense o ms) as [o_s|] eqn:Eos; [|discriminate H]
  end.
  match type of H with
  | context [of_option (to_dense ?o mt)] =>
      destruct (to_dense o mt) as [o_t|] eqn:Eot; [|discriminate H]
  end.
  cbn [of_option bind] in H.
  destruct (score (mlp self) (pairwise_diff o_s o_t)) as [sc|] eqn:Esc;
    [|discriminate H].
  cbn [bind] in H. injection H as <- <-.
  split; [|reflexivity].
  pose proof (to_dense_shape _ _ _ _ _ Hms Eos) as Hos.
  pose proof (to_dense_shape _ _ _ _ _ Hmt Eot) as Hot.
  pose proof (score_shape _ _ _ _ _ _ _ Hos Hot Esc) as Hsc.
  pose proof (pair_mask_shape ms mt B Ns Nt Hms Hmt) as HM.
  unfold tensor_add. apply shape3_map2; auto.
  change (masked_fill sc (mask_not3 (pair_mask ms mt)) fzero)
    with (map2 (map2 (map2 (fun x (m : bool) => if m then fzero else x)))
               sc (map (map (map negb)) (pair_mask ms mt))).
  apply shape3_map2; auto. now apply shape3_map.
Qed.

Lemma dense_loop_shape (n : nat) :
  forall (S_hat : tensor3) (gen : nat) (S_hat' : tensor3) (gen' : nat),
    shape3 B Ns Nt S_hat ->
    dense_loop draws self edge_index_s edge_attr_s edge_index_t edge_attr_t
               n ms mt (pair_mask ms mt) rnd_size (S_hat, gen)
    = Ok (S_hat', gen') ->
    shape3 B Ns Nt S_hat' /\ gen' = gen + n.
Proof.
  induction n as [|n IH]; intros S_hat gen S_hat' gen' HS H.
  - cbn in H. injection H as <- <-. split; [assumption | lia].
  - cbn [dense_loop] in H.
    match type of H with
    | bind ?r _ = _ => destruct r as [[S1 g1]|] eqn:E1
    end; cbn [bind] in H; [|discriminate H].
    destruct (dense_step_shape _ _ _ _ HS E1) as [HS1 ->].
    destruct (IH _ _ _ _ HS1 H) as [HS' ->]. split; [assumption | lia].
Qed.

End DenseShape.

(** X12.  Whenever a call with [k < 1] returns, it returns the pair
    [S_0], [S_L], both of shape [B x N_s x N_t] (the number of graphs and
    the largest source and target graph), and it has made exactly
    [num_steps] draws from the generator, none if [num_steps] is
    negative. *)
Theorem dense_output_shape
        (EdgeIndex EdgeAttr : Type) (draws : nat -> nat * nat * nat -> tensor3)
        (self : DGMC EdgeIndex EdgeAttr)
        (edge_index_s : EdgeIndex) (edge_attr_s : EdgeAttr)
        (edge_index_t : EdgeIndex) (edge_attr_t : EdgeAttr)
        (x_s : tensor2) (batch_s : list nat)
        (x_t : tensor2) (batch_t : list nat) (gen g : nat)
        (out : output) :
  (k self < 1)%Z ->
  length (gnn_apply (psi_1 self) x_s edge_index_s edge_attr_s)
  = length batch_s ->
  length (gnn_apply (psi_1 self) x_t edge_index_t edge_attr_t)
  = length batch_t ->
  batch_s <> [] -> batch_t <> [] ->
  num_graphs batch_s = num_graphs batch_t ->
  forward draws self edge_index_s edge_attr_s edge_index_t edge_attr_t
          x_s batch_s x_t batch_t gen
  = Ok (out, g) ->
  exists S_0 S_L,
    out = Dense S_0 S_L
    /\ shape3 (num_graphs batch_s) (max_num_nodes batch_s)
              (max_num_nodes batch_t) S_0
    /\ shape3 (num_graphs batch_s) (max_num_nodes batch_s)
              (max_num_nodes batch_t) S_L
    /\ g = gen + Z.to_nat (num_steps self).
Proof.
  intros Hk Hls Hlt Hne_s Hne_t HB H.
  assert (Hout : exists S_0 S_L, out = Dense S_0 S_L).
  { unfold forward, forward_fill, to_dense_batch in H.
    rewrite (proj2 (Z.ltb_lt _ _) Hk) in H.
    destruct (detach self); cbv beta iota zeta in H;
      match type of H with
      | bind ?r _ = _ => destruct r as [[S' g']|]
      end; cbn [bind] in H; try discriminate H;
      injection H as <- _; eauto. }
  destruct Hout as (S_0 & S_L & ->). exists S_0, S_L.
  split; [reflexivity|].
  unfold forward in H.
  destruct (forward_fill_dense _ _ _ _ _ _ _ _ _ _ _ _ _ _ _ _ _ _
                               Hk Hls Hne_s H) as (S_hat & Hloop & -> & ->).
  pose proof (similarity_shape _ _ batch_s batch_t PInf NInf
                               Hls Hlt Hne_t HB) as Hsim.
  pose proof (batch_mask_shape batch_s) as Hms.
  pose proof (batch_mask_shape batch_t) as Hmt. rewrite <- HB in Hmt.
  pose proof (pair_mask_shape _ _ _ _ _ Hms Hmt) as HM.
  destruct (dense_loop_shape _ _ draws self edge_index_s edge_attr_s
                             edge_index_t edge_attr_t _ _ _ _ _ _ Hms Hmt
                             _ _ _ _ _ Hsim Hloop) as [HSL ->].
  split; [now apply masked_softmax_shape|].
  split; [now apply masked_softmax_shape | reflexivity].
Qed.

Lemma dense_output_shape_witness :
  exists S_0 S_L,
    Dense (masked_softmax (similarity (batch_x [[Fin 1]; [Fin 2]] [0; 0] PInf)
                                      (batch_x [[Fin 3]] [0] NInf))
                          (pair_mask (batch_mask [0; 0]) (batch_mask [0])))
          (masked_softmax (similarity (batch_x [[Fin 1]; [Fin 2]] [0; 0] PInf)
                                      (batch_x [[Fin 3]] [0] NInf))
                          (pair_mask (batch_mask [0; 0]) (batch_mask [0])))
    = Dense S_0 S_L
    /\ shape3 (num_graphs [0; 0]) (max_num_nodes [0; 0]) (max_num_nodes [0])
              S_0
    /\ shape3 (num_graphs [0; 0]) (max_num_nodes [0; 0]) (max_num_nodes [0])
              S_L
    /\ 4 = 4 + Z.to_nat (num_steps (Tiny.model (-3) 0)).
Proof.
  apply (dense_output_shape unit unit Tiny.draws0 (Tiny.model (-3) 0)
                            tt tt tt tt [[Fin 1]; [Fin 2]] [0; 0]
                            [[Fin 3]] [0] 4 4).
  - reflexivity.
  - reflexivity.
  - reflexivity.
  - discriminate.
  - discriminate.
  - reflexivity.
  - reflexivity.
Defined.

Lemma to_dense_rows (o : tensor2) (mask : mask2) (d : tensor3) (W : nat) :
  Forall (fun row : vec => length row = W) o -> 0 < count_true2 mask ->
  to_dense o mask = Some d ->
  Forall (Forall (fun row : vec => length row = W)) d.
Proof.
  intros Ho Hpos Hd. unfold to_dense in Hd.
  assert (Hz : o <> [] -> length (repeat fzero (size_last o)) = W).
  { intros Hne. rewrite repeat_length.
    destruct o as [|r o]; [congruence|]. simpl. now inversion Ho. }
  assert (Hall : forall (x : tensor2) (zero : vec),
             length zero = W ->
             Forall (fun row : vec => length row = W) x ->
             Forall (Forall (fun row : vec => length row = W))
                    (scatter zero x mask)).
  { intros x zero Hzero Hx.
    pose proof (scatter_Forall2 vec (fun row => length row = W) zero mask
                                Hzero x Hx) as H2.
    clear - H2. induction H2 as [|r m rs ms Hr _ IH]; constructor; auto.
    clear - Hr. induction Hr; constructor; auto. }
  destruct (Nat.eqb_spec (length o) (count_true2 mask)) as [E|E].
  - injection Hd as <-. apply Hall; auto. apply Hz.
    intros ->. simpl in E. lia.
  - destruct o as [|r [|r' o]]; try discriminate.
    injection Hd as <-.
    assert (Hr : length r = W) by now inversion Ho.
    apply Forall_forall. intros rows Hrows. apply in_map_iff in Hrows.
    destruct Hrows as (m & <- & _).
    apply Forall_forall. intros row Hrow. apply in_map_iff in Hrow.
    destruct Hrow as (b & <- & _).
    destruct b; [exact Hr|]. simpl. rewrite repeat_length. exact Hr.
Qed.

Lemma score_raises (m : MLP) (o_s o_t : tensor3) (Bs Bt Ns Nt W : nat) :
  shape2 Bs Ns o_s -> shape2 Bt Nt o_t ->
  0 < Bs -> 0 < Bt -> 0 < Ns -> 0 < Nt ->
  Forall (Forall (fun row : vec => length row = W)) o_s ->
  Forall (Forall (fun row : vec => length row = W)) o_t ->
  W <> in_features (lin1 m) ->
  score m (pairwise_diff o_s o_t) = Raise ShapeError.
Proof.
  intros [Hls Hrs] [Hlt Hrt] HBs HBt HNs HNt Hws Hwt HW.
  destruct o_s as [|os o_s]; [simpl in Hls; lia|].
  destruct o_t as [|ot o_t]; [simpl in Hlt; lia|].
  assert (Hos : length os = Ns) by now inversion Hrs.
  assert (Hot : length ot = Nt) by now inversion Hrt.
  destruct os as [|u os]; [simpl in Hos; lia|].
  destruct ot as [|v ot]; [simpl in Hot; lia|].
  assert (Hu : length u = W).
  { inversion Hws as [|? ? Hwu _]; subst. now inversion Hwu. }
  assert (Hv : length v = W).
  { inversion Hwt as [|? ? Hwv _]; subst. now inversion Hwv. }
  unfold score, pairwise_diff. cbn [map2 map traverse].
  unfold mlp_apply, lin_apply.
  assert (E : (length (vsub u v) =? in_features (lin1 m)) = false).
  { apply Nat.eqb_neq. unfold vsub. rewrite map2_length. lia. }
  rewrite E. reflexivity.
Qed.

(** X13.  The width mismatch [__init__] lets through is caught by the first
    refinement step: when [psi_2] returns rows of a width other than its
    declared [out_channels], a dense call on a batch that is not empty, with
    at least one step, raises. *)
Theorem dense_raises_on_width_mismatch
        (EdgeIndex EdgeAttr : Type) (draws : nat -> nat * nat * nat -> tensor3)
        (psi1 psi2 : GNN EdgeIndex EdgeAttr) (steps kval : Z) (det : bool)
        (theta : Params) (self : DGMC EdgeIndex EdgeAttr)
        (edge_index_s : EdgeIndex) (edge_attr_s : EdgeAttr)
        (edge_index_t : EdgeIndex) (edge_attr_t : EdgeAttr)
        (x_s : tensor2) (batch_s : list nat)
        (x_t : tensor2) (batch_t : list nat) (gen W : nat) :
  DGMC_init psi1 psi2 steps kval det theta = Ok self ->
  (kval < 1)%Z -> (1 <= steps)%Z ->
  batch_s <> [] -> batch_t <> [] ->
  (forall r e a,
      Forall (fun row : vec => length row = W) (gnn_apply psi2 r e a)) ->
  W <> out_channels psi2 ->
  forward draws self edge_index_s edge_attr_s edge_index_t edge_attr_t
          x_s batch_s x_t batch_t gen
  = Raise ShapeError.
Proof.
  intros Hinit Hk Hsteps Hne_s Hne_t Hrows HW.
  unfold DGMC_init in Hinit. injection Hinit as Hself.
  assert (Ek : k self = kval) by (rewrite <- Hself; reflexivity).
  assert (En : num_steps self = steps) by (rewrite <- Hself; reflexivity).
  assert (Ep : psi_2 self = psi2) by (rewrite <- Hself; reflexivity).
  assert (Ein : in_features (lin1 (mlp self)) = out_channels psi2)
    by (rewrite <- Hself; reflexivity).
  assert (Hstep : forall rnd_size st,
             dense_step draws self edge_index_s edge_attr_s
                        edge_index_t edge_attr_t
                        (batch_mask batch_s) (batch_mask batch_t)
                        (pair_mask (batch_mask batch_s) (batch_mask batch_t))
                        rnd_size st
             = Raise ShapeError).
  { intros rnd_size [S_hat gen0]. unfold dense_step, randn. rewrite Ep.
    match goal with
    | |- context [of_option (to_dense ?o (batch_mask batch_s))] =>
        pose proof (Hrows (to_sparse (draws gen0 rnd_size)
                                     (batch_mask batch_s))
                          edge_index_s edge_attr_s) as Hws;
        destruct (to_dense o (batch_mask batch_s)) as [o_s|] eqn:Eos;
        [|reflexivity]
    end.
    match goal with
    | |- context [of_option (to_dense ?o (batch_mask batch_t))] =>
        assert (Hwt : Forall (fun row : vec => length row = W) o)
          by apply Hrows;
        destruct (to_dense o (batch_mask batch_t)) as [o_t|] eqn:Eot;
        [|reflexivity]
    end.
    cbn [of_option bind].
    rewrite (score_raises (mlp self) o_s o_t
               (num_graphs batch_s) (num_graphs batch_t)
               (max_num_nodes batch_s) (max_num_nodes batch_t) W).
    - reflexivity.
    - exact (to_dense_shape _ _ _ _ _ (batch_mask_shape batch_s) Eos).
    - exact (to_dense_shape _ _ _ _ _ (batch_mask_shape batch_t) Eot).
    - now apply num_graphs_pos.
    - now apply num_graphs_pos.
    - now apply max_num_nodes_pos.
    - now apply max_num_nodes_pos.
    - exact (to_dense_rows _ _ _ W Hws (batch_mask_count_pos _ Hne_s) Eos).
    - exact (to_dense_rows _ _ _ W Hwt (batch_mask_count_pos _ Hne_t) Eot).
    - congruence. }
  unfold forward, forward_fill, to_dense_batch.
  rewrite Ek, (proj2 (Z.ltb_lt _ _) Hk), En.
  destruct (Z.to_nat steps) as [|n] eqn:E; [lia|].
  destruct (detach self); cbv beta iota zeta; cbn [dense_loop];
    rewrite Hstep; reflexivity.
Qed.

Lemma dense_raises_on_width_mismatch_witness :
  forward Tiny.draws0
          (mkDGMC (Tiny.psi_const 1 3 3) (Tiny.psi_const 5 2 1) 1 (-1) false
                  (mkMLP (Lin_new 2 2 (w1 Tiny.theta0) (b1 Tiny.theta0))
                         (Lin_new 2 1 (w2 Tiny.theta0) (b2 Tiny.theta0))))
          tt tt tt tt [[Fin 1]] [0] [[Fin 1]] [0] 0
  = Raise ShapeError.
Proof.
  apply (dense_raises_on_width_mismatch
           unit unit Tiny.draws0 (Tiny.psi_const 1 3 3) (Tiny.psi_const 5 2 1)
           1 (-1) false Tiny.theta0 _ tt tt tt tt
           [[Fin 1]] [0] [[Fin 1]] [0] 0 1).
  - reflexivity.
  - lia.
  - lia.
  - discriminate.
  - discriminate.
  - intros r e a. simpl. apply Forall_forall. intros row Hrow.
    apply in_map_iff in Hrow. destruct Hrow as (x & <- & _). reflexivity.
  - simpl. lia.
Defined.

(** ** The first correspondences of the dense call *)

Lemma pair_similarity_dots (W n_t : nat) (hsv htv : tensor2) :
  length htv = n_t -> Forall (fun row : vec => length row = W) htv ->
  pair_similarity W n_t hsv htv = map (fun u => map (dot u) htv) hsv.
Proof.
  intros Hl HW. unfold pair_similarity. apply map_ext. intros u.
  rewrite <- Hl.
  transitivity (map (dot u) (map (fun b => nth b htv [])
                                 (seq 0 (length htv))));
    [|now rewrite map_nth_seq_all].
  rewrite map_map. apply map_ext_in. intros j Hj. apply in_seq in Hj.
  f_equal.
  assert (Hrow : length (nth j htv []) = W).
  { rewrite Forall_forall in HW. apply HW. apply nth_In. lia. }
  rewrite <- Hrow. apply map_nth_seq.
Qed.



(** ** [masked_softmax] under a shift of the logits *)

Lemma Rsum_scal (A : Type) (a : R) (g : A -> R) (l : list A) :
  Rsum (map (fun x => a * g x)%R l) = (a * Rsum (map g l))%R.
Proof. induction l as [|x l IH]; simpl; [lra|]. rewrite IH. lra. Qed.

Lemma expw_shift (M : R) (x : fval) :
  expw M x = (exp (- M) * expw 0 x)%R.
Proof.
  destruct x; simpl; try lra.
  rewrite <- exp_plus. f_equal. lra.
Qed.

(** The softmax of a row of finite values and [-inf], with the weights
    taken relative to 0. *)
Lemma softmax_row_weights (v : vec) :
  Forall regular v -> Exists is_finite v ->
  (0 < Rsum (map (expw 0) v))%R
  /\ softmax_row v
     = map (fun x => Fin (expw 0 x / Rsum (map (expw 0) v))) v.
Proof.
  intros Hr He.
  destruct (softmax_row_regular v Hr He) as (M & _ & Hpos & Hsm).
  pose proof (Rsum_expw_pos 0 v He) as Hpos0. split; [exact Hpos0|].
  rewrite Hsm. apply map_ext. intros x. f_equal.
  assert (E : Rsum (map (expw M) v)
              = (exp (- M) * Rsum (map (expw 0) v))%R).
  { rewrite <- Rsum_scal. f_equal. apply map_ext. intros y.
    apply expw_shift. }
  rewrite E, (expw_shift M x).
  pose proof (exp_pos (- M)). field. split; lra.
Qed.

Definition shift (c : R) (x : fval) : fval := fadd x (Fin c).

Lemma vec_cases (v : vec) :
  (In PInf v \/ In NaN v)
  \/ (Forall regular v /\ (Exists is_finite v \/ Forall (eq NInf) v)).
Proof.
  induction v as [|x v IH]; [right; split; [constructor | right; constructor]|].
  destruct IH as [[H|H] | [Hr He]].
  - left. left. now right.
  - left. right. now right.
  - destruct x as [r| | |].
    + right. split; [constructor; simpl; auto|].
      left. constructor. exact I.
    + left. left. now left.
    + right. split; [constructor; simpl; auto|].
      destruct He as [He|He]; [left; now constructor 2 | right].
      constructor; auto.
    + left. right. now left.
Qed.

Lemma softmax_row_shift (c : R) (v : vec) :
  softmax_row (map (shift c) v) = softmax_row v.
Proof.
  destruct (vec_cases v) as [Hbad | [Hr [He|Hn]]].
  - assert (Hbad' : In PInf (map (shift c) v) \/ In NaN (map (shift c) v)).
    { destruct Hbad as [H|H]; [left|right];
        apply in_map_iff; eexists; (split; [|exact H]); reflexivity. }
    pose proof (softmax_row_poisoned _ Hbad) as H1.
    pose proof (softmax_row_poisoned _ Hbad') as H2.
    apply Forall_eq_repeat_r in H1. apply Forall_eq_repeat_r in H2.
    rewrite H1, H2, !softmax_row_length, length_map. reflexivity.
  - assert (Hr' : Forall regular (map (shift c) v)).
    { apply Forall_forall. intros y Hy. apply in_map_iff in Hy.
      destruct Hy as (x & <- & Hx). rewrite Forall_forall in Hr.
      specialize (Hr x Hx). destruct x; simpl in *; auto. }
    assert (He' : Exists is_finite (map (shift c) v)).
    { apply Exists_exists in He. destruct He as (x & Hx & Hfin).
      apply Exists_exists. exists (shift c x). split.
      - now apply in_map.
      - destruct x; simpl in *; auto. }
    destruct (softmax_row_weights v Hr He) as [Hpos E].
    destruct (softmax_row_weights _ Hr' He') as [Hpos' E'].
    rewrite E, E', map_map.
    assert (Hw : forall x, regular x ->
                           expw 0 (shift c x) = (exp c * expw 0 x)%R).
    { intros [r| | |] Hx; simpl in *; try contradiction; try lra.
      rewrite <- exp_plus. f_equal. lra. }
    assert (Hs : Rsum (map (expw 0) (map (shift c) v))
                 = (exp c * Rsum (map (expw 0) v))%R).
    { rewrite map_map, <- Rsum_scal. f_equal.
      apply map_ext_in. intros x Hx. apply Hw.
      rewrite Forall_forall in Hr. auto. }
    apply map_ext_in. intros x Hx. f_equal.
    rewrite Hs, Hw by (rewrite Forall_forall in Hr; auto).
    pose proof (exp_pos c). field. split; lra.
  - f_equal. rewrite <- (map_id v) at 2. apply map_ext_in.
    intros x Hx. rewrite Forall_forall in Hn. now rewrite <- (Hn x Hx).
Qed.

(** X15.  In exact arithmetic [masked_softmax] does not see a shift of the
    logits: adding the same finite number to every logit leaves the result
    unchanged, for any input. *)
Theorem masked_softmax_shift (src : tensor3) (mask : mask3) (c : R) :
  masked_softmax (map (map (map (shift c))) src) mask
  = masked_softmax src mask.
Proof.
  rewrite !masked_softmax_rows.
  rewrite map2_map_l. apply map2_ext. intros s m.
  rewrite map2_map_l. apply map2_ext. intros r b.
  unfold masked_softmax_row. f_equal.
  rewrite <- (softmax_row_shift c (masked_fill_row r (mask_not b) NInf)).
  f_equal. unfold masked_fill_row. rewrite map_map2, map2_map_l.
  apply map2_ext. intros x [|]; reflexivity.
Qed.

(** X16.  The first correspondences of a dense call depend on the inputs
    and on [psi_1] only: two models with the same [psi_1], whatever their
    [psi_2], scorer, number of steps and generator state, return the same
    [S_0]. *)
Theorem dense_S0_only_psi_1
        (EdgeIndex EdgeAttr : Type)
        (draws draws' : nat -> nat * nat * nat -> tensor3)
        (self self' : DGMC EdgeIndex EdgeAttr)
        (edge_index_s : EdgeIndex) (edge_attr_s : EdgeAttr)
        (edge_index_t : EdgeIndex) (edge_attr_t : EdgeAttr)
        (x_s : tensor2) (batch_s : list nat)
        (x_t : tensor2) (batch_t : list nat) (gen gen' g g' : nat)
        (S_0 S_L S_0' S_L' : tensor3) :
  psi_1 self = psi_1 self' ->
  (k self < 1)%Z -> (k self' < 1)%Z ->
  forward draws self edge_index_s edge_attr_s edge_index_t edge_attr_t
          x_s batch_s x_t batch_t gen
  = Ok (Dense S_0 S_L, g) ->
  forward draws' self' edge_index_s edge_attr_s edge_index_t edge_attr_t
          x_s batch_s x_t batch_t gen'
  = Ok (Dense S_0' S_L', g') ->
  S_0' = S_0.
Proof.
  intros Hpsi Hk Hk' H H'.
  apply (forward_dense_S0 _ _ _ _ _ _ _ _ _ _ _ _ _ _ _ _ Hk) in H.
  apply (forward_dense_S0 _ _ _ _ _ _ _ _ _ _ _ _ _ _ _ _ Hk') in H'.
  rewrite H, H', Hpsi. reflexivity.
Qed.

Lemma dense_S0_only_psi_1_witness :
  exists S_0 S_L g S_L' g',
    forward Tiny.draws0 (Tiny.model 0 (-1)) tt tt tt tt
            [[Fin 1]; [Fin 2]] [0; 0] [[Fin 1]; [Fin 3]] [0; 0] 0
    = Ok (Dense S_0 S_L, g)
    /\ forward Tiny.draws0 (Tiny.model 2 0) tt tt tt tt
               [[Fin 1]; [Fin 2]] [0; 0] [[Fin 1]; [Fin 3]] [0; 0] 7
       = Ok (Dense S_0 S_L', g').
Proof.
  assert (HA : exists S_0 S_L g,
             forward Tiny.draws0 (Tiny.model 0 (-1)) tt tt tt tt
                     [[Fin 1]; [Fin 2]] [0; 0] [[Fin 1]; [Fin 3]] [0; 0] 0
             = Ok (Dense S_0 S_L, g))
    by (do 3 eexists; reflexivity).
  assert (HB : exists S_0' S_L' g',
             forward Tiny.draws0 (Tiny.model 2 0) tt tt tt tt
                     [[Fin 1]; [Fin 2]] [0; 0] [[Fin 1]; [Fin 3]] [0; 0] 7
             = Ok (Dense S_0' S_L', g'))
    by (do 3 eexists; reflexivity).
  destruct HA as (S_0 & S_L & g & HA), HB as (S_0' & S_L' & g' & HB).
  exists S_0, S_L, g, S_L', g'. split; [exact HA|].
  rewrite <- (dense_S0_only_psi_1
                unit unit Tiny.draws0 Tiny.draws0
                (Tiny.model 0 (-1)) (Tiny.model 2 0) tt tt tt tt
                [[Fin 1]; [Fin 2]] [0; 0] [[Fin 1]; [Fin 3]] [0; 0]
                0 7 g g' S_0 S_L S_0' S_L' eq_refl eq_refl eq_refl HA HB).
  exact HB.
Defined.
